(** * Inverted index builder and boolean search engine

    A shallow embedding of [3_indexation/inverted_index.py] and
    [3_indexation/boolean_search.py], with the properties of the
    index build, the query parser and the query evaluator. *)

From Stdlib Require Import ZArith NArith List Lia Decimal DecimalN DecimalZ.
From Stdlib Require Import Ascii String.
From stdpp Require Import base option list gmap sets sorting.

#[local] Open Scope Z_scope.

(** ** Python values *)

(** A Python [str] is a sequence of Unicode code points. *)
Abbreviation str := (list N).

(** The parts of the Unicode character database that the [re] module and
    [str.upper], [str.lower] and [int] consult outside ASCII.  Inside
    ASCII the definitions below are explicit.
    - [unicode_isalnum]: [str.isalnum] of a code point above 127, which
      is what [\w] accepts there;
    - [unicode_digit]: the value of a decimal digit above 127, which is
      what [\d] accepts and [int] reads;
    - [unicode_upper], [unicode_lower]: [str.upper] and [str.lower] of a
      string that is not pure ASCII. *)
Class UnicodeData := {
  unicode_isalnum : N -> bool;
  unicode_digit : N -> option Z;
  unicode_upper : str -> str;
  unicode_lower : str -> str
}.

(** A [pathlib.Path]: its components below the directory that every
    path starts from, the last component first.  The empty path is
    that directory itself, which always exists.  Components [..] and
    symbolic links are not modelled. *)
Abbreviation Path := (list str).

(** The content of a file: bytes, each below 256. *)
Abbreviation bytes := (list N).

(** The calls that the operating system may refuse (permissions, a
    full or read-only disk): creating a directory, creating a file,
    opening a file for writing, passing on the [n]-th written line,
    and opening a file for reading. *)
Inductive syscall :=
| Mkdir (p : Path)
| Touch (p : Path)
| OpenWrite (p : Path)
| WriteLine (p : Path) (n : nat)
| OpenRead (p : Path).

(** What the platform decides for a run.
    - [text_encode]: the bytes that [file.write(s)] puts into a file
      opened with [open('w')] and no [encoding]: the newline
      translation of the platform and the locale's encoding; [None]
      when the encoding raises [UnicodeEncodeError];
    - [refuses]: the calls that the operating system refuses;
    - [int_max_str_digits]: [sys.get_int_max_str_digits()], the limit
      on the digits of a numeral that [int] reads (4300 by default, 0
      for no limit, never between 1 and 639). *)
Class Platform := {
  text_encode : str -> option bytes;
  refuses : syscall -> bool;
  int_max_str_digits : nat
}.

Module Py.

(** A string literal of the source, as code points (ASCII only). *)
Definition lit (s : string) : str := map N_of_ascii (list_ascii_of_string s).

(** Exceptions are values: a computation returns [Ok] or raises. *)
Inductive result (E A : Type) : Type :=
| Ok (a : A)
| Raise (e : E).
Arguments Ok {E A} a.
Arguments Raise {E A} e.

Definition bind {E A B} (m : result E A) (k : A -> result E B) : result E B :=
  match m with
  | Ok a => k a
  | Raise e => Raise e
  end.

Definition between (lo hi c : N) : bool := ((lo <=? c) && (c <=? hi))%N.

Definition is_ascii (c : N) : bool := (c <? 128)%N.

(** [str.isspace] on one code point: the separators of [str.split()]. *)
Definition isspace (c : N) : bool :=
  between 9 13 c || between 28 32 c || (c =? 133)%N || (c =? 160)%N
  || (c =? 5760)%N || between 8192 8202 c || (c =? 8232)%N
  || (c =? 8233)%N || (c =? 8239)%N || (c =? 8287)%N || (c =? 12288)%N.

Fixpoint take_while {A} (p : A -> bool) (l : list A) : list A :=
  match l with
  | x :: l' => if p x then x :: take_while p l' else []
  | [] => []
  end.

Fixpoint drop_while {A} (p : A -> bool) (l : list A) : list A :=
  match l with
  | x :: l' => if p x then drop_while p l' else l
  | [] => []
  end.

Definition nonspace (c : N) : bool := negb (isspace c).

(** [s.split(maxsplit=1)]: the first whitespace-delimited word and,
    when something other than whitespace follows it, the rest. *)
Definition split_maxsplit1 (s : str) : list str :=
  match drop_while isspace s with
  | [] => []
  | s1 =>
      let w := take_while nonspace s1 in
      match drop_while isspace (drop_while nonspace s1) with
      | [] => [w]
      | r => [w; r]
      end
  end.

(** ASCII letters and digits. *)
Definition is_ascii_upper (c : N) : bool := between 65 90 c.
Definition is_ascii_lower (c : N) : bool := between 97 122 c.
Definition is_ascii_digit (c : N) : bool := between 48 57 c.

Definition ascii_upper (c : N) : N := if is_ascii_lower c then (c - 32)%N else c.
Definition ascii_lower (c : N) : N := if is_ascii_upper c then (c + 32)%N else c.

(** [str.upper] and [str.lower]. *)
Definition upper `{UnicodeData} (s : str) : str :=
  if forallb is_ascii s then map ascii_upper s else unicode_upper s.
Definition lower `{UnicodeData} (s : str) : str :=
  if forallb is_ascii s then map ascii_lower s else unicode_lower s.

(** [\w]: alphanumeric or underscore. *)
Definition is_word `{UnicodeData} (c : N) : bool :=
  if is_ascii c
  then is_ascii_upper c || is_ascii_lower c || is_ascii_digit c || (c =? 95)%N
  else unicode_isalnum c.

(** [\d] with the digit's value. *)
Definition digit_value `{UnicodeData} (c : N) : option Z :=
  if is_ascii c
  then (if is_ascii_digit c then Some (Z.of_N c - 48) else None)
  else unicode_digit c.

Definition is_digit `{UnicodeData} (c : N) : bool :=
  match digit_value c with Some _ => true | None => false end.

(** [int(s)] on a run of digits, most significant first. *)
Definition int_of_digits `{UnicodeData} (s : str) : Z :=
  fold_left (fun acc c => 10 * acc + default 0 (digit_value c)) s 0.

(** [str(n)] for an [int]. *)
Fixpoint chars_of_uint (d : Decimal.uint) : str :=
  match d with
  | Nil => []
  | D0 d => 48%N :: chars_of_uint d
  | D1 d => 49%N :: chars_of_uint d
  | D2 d => 50%N :: chars_of_uint d
  | D3 d => 51%N :: chars_of_uint d
  | D4 d => 52%N :: chars_of_uint d
  | D5 d => 53%N :: chars_of_uint d
  | D6 d => 54%N :: chars_of_uint d
  | D7 d => 55%N :: chars_of_uint d
  | D8 d => 56%N :: chars_of_uint d
  | D9 d => 57%N :: chars_of_uint d
  end.

Definition str_of_int (z : Z) : str :=
  match Z.to_int z with
  | Decimal.Pos d => chars_of_uint d
  | Decimal.Neg d => 45%N :: chars_of_uint d
  end.

(** [sep.join(parts)]. *)
Fixpoint join (sep : str) (parts : list str) : str :=
  match parts with
  | [] => []
  | [p] => p
  | p :: rest => p ++ sep ++ join sep rest
  end.

(** [s.split()]: the maximal runs of characters that are not
    whitespace.  [cur] is the run being read. *)
Fixpoint split_from (cur : str) (s : str) : list str :=
  match s with
  | [] => match cur with [] => [] | _ => [cur] end
  | c :: s' =>
      if isspace c
      then match cur with
           | [] => split_from [] s'
           | _ => cur :: split_from [] s'
           end
      else split_from (cur ++ [c]) s'
  end.

Definition str_split (s : str) : list str := split_from [] s.

(** [s.strip()]. *)
Definition str_strip (s : str) : str :=
  rev (drop_while isspace (rev (drop_while isspace s))).

(** The digits of [int(s)] after the sign: at least one digit, single
    underscores allowed between digits.  [prev_digit] tells whether the
    character before was a digit. *)
Fixpoint int_digits `{UnicodeData} (acc : Z) (prev_digit : bool) (s : str)
    : option Z :=
  match s with
  | [] => if prev_digit then Some acc else None
  | c :: s' =>
      match digit_value c with
      | Some d => int_digits (10 * acc + d) true s'
      | None =>
          if (c =? 95)%N && prev_digit then int_digits acc false s' else None
      end
  end.

(** The limit on the digits of a numeral: [int] raises [ValueError]
    for a numeral of more than 640 digits that has more digits than
    the limit, when there is one. *)
Definition too_many_digits `{Platform} (digits : nat) : bool :=
  ((640 <? digits) && (0 <? int_max_str_digits) && (int_max_str_digits <? digits))%nat.

(** The numeral after the sign: the limit counts its digits, not the
    underscores between them. *)
Definition int_limited `{UnicodeData} `{Platform} (digits : str) : option Z :=
  if too_many_digits (length (filter (fun c => is_digit c = true) digits)) then None
  else int_digits 0 false digits.

(** [int(s)] for a [str], [None] for [ValueError]. *)
Definition int_of_str `{UnicodeData} `{Platform} (s : str) : option Z :=
  match str_strip s with
  | 45%N :: digits => Z.opp <$> int_limited digits
  | 43%N :: digits => int_limited digits
  | digits => int_limited digits
  end.

(** Reading in text mode: [\r\n] and [\r] arrive as [\n]. *)
Fixpoint universal_newlines (s : str) : str :=
  match s with
  | [] => []
  | 13%N :: (10%N :: s'') => 10%N :: universal_newlines s''
  | 13%N :: s' => 10%N :: universal_newlines s'
  | c :: s' => c :: universal_newlines s'
  end.

(** The lines of a text, each with its final [\n]; [cur] is the line
    being read. *)
Fixpoint lines_from (cur : str) (s : str) : list str :=
  match s with
  | [] => match cur with [] => [] | _ => [cur] end
  | c :: s' =>
      if (c =? 10)%N then (cur ++ [c]) :: lines_from [] s'
      else lines_from (cur ++ [c]) s'
  end.

(** [file.readlines()] of a file opened for reading as text. *)
Definition readlines_text (content : str) : list str :=
  lines_from [] (universal_newlines content).

(** *** UTF-8 *)

(** A code point as UTF-8; [None] for a surrogate or a number that is
    no code point ([UnicodeEncodeError]). *)
Definition utf8_encode_char (c : N) : option bytes :=
  if (c <? 128)%N then Some [c]
  else if (c <? 2048)%N then Some [192 + c / 64; 128 + c mod 64]%N
  else if (c <? 65536)%N then
    if between 55296 57343 c then None
    else Some [224 + c / 4096; 128 + (c / 64) mod 64; 128 + c mod 64]%N
  else if (c <? 1114112)%N then
    Some [240 + c / 262144; 128 + (c / 4096) mod 64; 128 + (c / 64) mod 64;
          128 + c mod 64]%N
  else None.

(** [s.encode('utf-8')]. *)
Fixpoint utf8_encode (s : str) : option bytes :=
  match s with
  | [] => Some []
  | c :: s' =>
      match utf8_encode_char c, utf8_encode s' with
      | Some b, Some bs => Some (b ++ bs)
      | _, _ => None
      end
  end.

(** A continuation byte. *)
Definition continuation (b : N) : bool := between 128 191 b.

(** [content.decode('utf-8')]: strict, so [None]
    ([UnicodeDecodeError]) for a truncated or overlong sequence, a
    surrogate, or a number above U+10FFFF.  A byte order mark is kept
    as a character. *)
Fixpoint utf8_decode (content : bytes) : option str :=
  match content with
  | [] => Some []
  | b0 :: content1 =>
      if (b0 <? 128)%N then cons b0 <$> utf8_decode content1
      else if between 194 223 b0 then
        match content1 with
        | b1 :: content2 =>
            if continuation b1
            then cons ((b0 - 192) * 64 + (b1 - 128))%N <$> utf8_decode content2
            else None
        | _ => None
        end
      else if between 224 239 b0 then
        match content1 with
        | b1 :: b2 :: content3 =>
            let c := ((b0 - 224) * 4096 + (b1 - 128) * 64 + (b2 - 128))%N in
            if continuation b1 && continuation b2
               && (2048 <=? c)%N && negb (between 55296 57343 c)
            then cons c <$> utf8_decode content3
            else None
        | _ => None
        end
      else if between 240 244 b0 then
        match content1 with
        | b1 :: b2 :: b3 :: content4 =>
            let c := ((b0 - 240) * 262144 + (b1 - 128) * 4096
                      + (b2 - 128) * 64 + (b3 - 128))%N in
            if continuation b1 && continuation b2 && continuation b3
               && between 65536 1114111 c
            then cons c <$> utf8_decode content4
            else None
        | _ => None
        end
      else None
  end.

(** A [dict]: keys are unique and kept in insertion order; assigning
    to a present key replaces its value in place. *)
Section Dict.
Context {K V : Type} `{EqDecision K}.

Fixpoint dict_get (k : K) (d : list (K * V)) : option V :=
  match d with
  | [] => None
  | (k', v) :: d' => if decide (k = k') then Some v else dict_get k d'
  end.

Fixpoint dict_set (k : K) (v : V) (d : list (K * V)) : list (K * V) :=
  match d with
  | [] => [(k, v)]
  | (k', v') :: d' =>
      if decide (k = k') then (k, v) :: d' else (k', v') :: dict_set k v d'
  end.
End Dict.

End Py.

#[global] Instance result_bind {E} : MBind (Py.result E) := fun _ _ k m => Py.bind m k.
#[global] Instance result_ret {E} : MRet (Py.result E) := fun _ a => Py.Ok a.

(** ** [inverted_index.py]: the index builder *)

Module InvertedIndex.
Import Py.

(** [path.name] and [path.parent]. *)
Definition name (p : Path) : str := hd [] p.
Definition parent (p : Path) : Path := tl p.

(** [name.rfind('.')]. *)
Fixpoint rfind (c : N) (s : str) : option nat :=
  match s with
  | [] => None
  | x :: s' =>
      match rfind c s' with
      | Some i => Some (S i)
      | None => if (x =? c)%N then Some O else None
      end
  end.

(** Where [Path.suffix] starts: the last dot, unless it is the first
    or the last character of the name. *)
Definition suffix_start (nm : str) : option nat :=
  match rfind 46 nm with
  | Some i => if ((0 <? i) && (i <? length nm - 1))%nat then Some i else None
  | None => None
  end.

(** [path.suffix] and [path.stem]. *)
Definition suffix (p : Path) : str :=
  match suffix_start (name p) with
  | Some i => drop i (name p)
  | None => []
  end.

Definition stem (p : Path) : str :=
  match suffix_start (name p) with
  | Some i => take i (name p)
  | None => name p
  end.

(** What a path names: a directory or a regular file with its
    content. *)
Inductive node :=
| Dir
| File (content : bytes).

#[global] Instance node_eq_dec : EqDecision node.
Proof. solve_decision. Defined.

(** The file system: the directories and files that exist below the
    directory that every path starts from.  In a file system as it can
    be, every entry is in a directory that exists ([well_formed]
    below); the builder keeps it so. *)
Abbreviation files := (gmap Path node).

(** [os.stat]: what a path names, if anything. *)
Definition stat (fs : files) (p : Path) : option node :=
  match p with
  | [] => Some Dir
  | _ => fs !! p
  end.

(** [path.exists()] and [path.is_dir()]. *)
Definition exists_ (fs : files) (p : Path) : bool :=
  match stat fs p with Some _ => true | None => false end.

Definition is_dir (fs : files) (p : Path) : bool :=
  match stat fs p with Some Dir => true | _ => false end.

(** [f"{stem}_{counter}{suffix}"] under the same parent. *)
Definition numbered (path : Path) (counter : Z) : Path :=
  (stem path ++ lit "_" ++ str_of_int counter ++ suffix path) :: parent path.

(** The [while True] loop of [resolve_output]; [None] when the fuel
    runs out before a free name is found. *)
Fixpoint resolve_output_loop (fuel : nat) (fs : files) (path : Path)
    (counter : Z) : option Path :=
  match fuel with
  | O => None
  | S fuel' =>
      let new_path := numbered path counter in
      if negb (exists_ fs new_path) then Some new_path
      else resolve_output_loop fuel' fs path (counter + 1)
  end.

Definition resolve_output (fs : files) (output : Path) : option Path :=
  if negb (exists_ fs output) then Some output
  else resolve_output_loop (S (size fs)) fs output 1.

(** The directory given as [--input], as [os.listdir] enumerates it:
    each name with what [readlines()] gives for it, or [None] when
    opening or decoding it raises.  The listing itself is taken to
    succeed; when [os.listdir] raises, [process_lemmas_directory]
    returns the error and builds nothing. *)
Abbreviation directory := (list (str * option (list str))).

Inductive exn :=
| OSError             (* [open] or the decoding of a lemma file failed,
                         or the system refused a call *)
| IndexError          (* [line.split(maxsplit=1)[0]] on a blank line *)
| FileExistsError     (* [os.mkdir] of a path that exists *)
| FileNotFoundError   (* a parent directory is missing *)
| NotADirectoryError  (* a parent is a regular file *)
| IsADirectoryError   (* [open('w')] of a directory *)
| UnicodeEncodeError  (* a line that the locale's encoding cannot write *)
| ValueError.         (* [int] of a numeral beyond the limit on digits *)

(** [s] without the prefix [pre], when it starts with it. *)
Fixpoint strip_prefix (pre s : str) : option str :=
  match pre, s with
  | [], _ => Some s
  | c :: pre', x :: s' => if (c =? x)%N then strip_prefix pre' s' else None
  | _ :: _, [] => None
  end.

(** [re.compile(r'lemmas_(\d+)\.txt$').match(filename)], with
    [int(match.group(1))]: the name is [lemmas_], at least one digit,
    [.txt], and then ends ([$] also accepts one final newline). *)
Definition match_lemma_filename `{UnicodeData} (filename : str) : option Z :=
  match strip_prefix (lit "lemmas_") filename with
  | None => None
  | Some rest =>
      let digits := take_while is_digit rest in
      let tail := drop_while is_digit rest in
      match digits with
      | [] => None
      | _ =>
          if bool_decide (tail = lit ".txt" \/ tail = lit ".txt" ++ [10%N])
          then Some (int_of_digits digits)
          else None
      end
  end.

(** Line 42 for one name: [int(match.group(1))] raises [ValueError]
    when the name matches and has more digits than the limit on
    digits allows. *)
Definition lemma_number_raises `{UnicodeData} `{Platform} (filename : str) : bool :=
  match match_lemma_filename filename, strip_prefix (lit "lemmas_") filename with
  | Some _, Some rest => too_many_digits (length (take_while is_digit rest))
  | _, _ => false
  end.

(** Lines 39-44, when no [int] raises.  [os.path.join(lemmas_path,
    filename)] is kept as the file name: it is only used to open the
    file of that directory again. *)
Fixpoint get_lemmas_file_paths `{UnicodeData} (listing : list str)
    (lemmas_files : list (Z * str)) : list (Z * str) :=
  match listing with
  | [] => lemmas_files
  | filename :: listing' =>
      match match_lemma_filename filename with
      | Some number =>
          get_lemmas_file_paths listing' (dict_set number filename lemmas_files)
      | None => get_lemmas_file_paths listing' lemmas_files
      end
  end.

Definition readlines (dir : directory) (path : str) : result exn (list str) :=
  match dict_get path dir with
  | Some (Some lines) => Ok lines
  | _ => Raise OSError
  end.

(** The first column of a line. *)
Definition first_column (line : str) : result exn str :=
  match split_maxsplit1 line with
  | w :: _ => Ok w
  | [] => Raise IndexError
  end.

Fixpoint first_columns (lines : list str) (lemmas : list str)
    : result exn (list str) :=
  match lines with
  | [] => Ok lemmas
  | line :: lines' =>
      w ← first_column line; first_columns lines' (lemmas ++ [w])
  end.

Definition get_lemmas_from_lemma_file (dir : directory) (lemma_file_path : str)
    : result exn (list str) :=
  lines ← readlines dir lemma_file_path; first_columns lines [].

(** Lines 69-72: one [append] per lemma read. *)
Definition add_posting (file_index : Z) (index : list (str * list Z))
    (lemma : str) : list (str * list Z) :=
  match dict_get lemma index with
  | None => dict_set lemma [file_index] index
  | Some file_indexes => dict_set lemma (file_indexes ++ [file_index]) index
  end.

(** Lines 66-72: the loop over [lemmas_file_paths.items()]. *)
Fixpoint index_files (dir : directory) (items : list (Z * str))
    (index : list (str * list Z)) : result exn (list (str * list Z)) :=
  match items with
  | [] => Ok index
  | (file_index, lemma_file_path) :: items' =>
      lemmas ← get_lemmas_from_lemma_file dir lemma_file_path;
      index_files dir items' (fold_left (add_posting file_index) lemmas index)
  end.

(** Line 79: [string_to_write]. *)
Definition index_line (entry : str * list Z) : str :=
  entry.1 ++ lit " " ++ join (lit " ") (map str_of_int entry.2) ++ [10%N].

(** [os.mkdir(p)]. *)
Definition os_mkdir `{Platform} (fs : files) (p : Path) : result exn files :=
  match stat fs p with
  | Some _ => Raise FileExistsError
  | None =>
      match stat fs (parent p) with
      | None => Raise FileNotFoundError
      | Some (File _) => Raise NotADirectoryError
      | Some Dir =>
          if refuses (Mkdir p) then Raise OSError else Ok (<[p := Dir]> fs)
      end
  end.

(** The file system after a call, and the exception it raised if it
    did. *)
Abbreviation outcome := (files * option exn)%type.

(** [Path.mkdir(parents=False, exist_ok=True)]: a missing parent is
    raised, any other error is passed over when the path is a
    directory. *)
Definition mkdir_one `{Platform} (fs : files) (p : Path) : outcome :=
  match os_mkdir fs p with
  | Ok fs' => (fs', None)
  | Raise FileNotFoundError => (fs, Some FileNotFoundError)
  | Raise e => if is_dir fs p then (fs, None) else (fs, Some e)
  end.

(** [Path.mkdir(parents=True, exist_ok=True)]: on a missing parent the
    parent is made first, then the path once more. *)
Fixpoint mkdir `{Platform} (fs : files) (p : Path) : outcome :=
  match os_mkdir fs p with
  | Ok fs' => (fs', None)
  | Raise FileNotFoundError =>
      match p with
      | [] => (fs, Some FileNotFoundError)
      | _ :: parent_ =>
          match mkdir fs parent_ with
          | (fs', None) => mkdir_one fs' p
          | failed => failed
          end
      end
  | Raise e => if is_dir fs p then (fs, None) else (fs, Some e)
  end.

(** [Path.touch()]: an empty file, unless the path exists. *)
Definition touch `{Platform} (fs : files) (p : Path) : outcome :=
  if exists_ fs p then (fs, None)
  else match stat fs (parent p) with
       | None => (fs, Some FileNotFoundError)
       | Some (File _) => (fs, Some NotADirectoryError)
       | Some Dir =>
           if refuses (Touch p) then (fs, Some OSError)
           else (<[p := File []]> fs, None)
       end.

(** [Path.open('w')]: the file is created or emptied. *)
Definition open_w `{Platform} (fs : files) (p : Path) : outcome :=
  match stat fs p with
  | Some Dir => (fs, Some IsADirectoryError)
  | Some (File _) =>
      if refuses (OpenWrite p) then (fs, Some OSError)
      else (<[p := File []]> fs, None)
  | None =>
      match stat fs (parent p) with
      | None => (fs, Some FileNotFoundError)
      | Some (File _) => (fs, Some NotADirectoryError)
      | Some Dir =>
          if refuses (OpenWrite p) then (fs, Some OSError)
          else (<[p := File []]> fs, None)
      end
  end.

(** The bytes of a written line reach the end of the file. *)
Definition append (fs : files) (p : Path) (chunk : bytes) : files :=
  match fs !! p with
  | Some (File content) => <[p := File (content ++ chunk)]> fs
  | _ => fs
  end.

(** Lines 78-80: the lines are written one after the other; when one
    cannot be encoded, or the system refuses it, the lines before it
    stay in the file (the file is closed on the way out of [with]). *)
Fixpoint write_lines `{Platform} (fs : files) (p : Path) (n : nat)
    (items : list (str * list Z)) : outcome :=
  match items with
  | [] => (fs, None)
  | entry :: items' =>
      match text_encode (index_line entry) with
      | None => (fs, Some UnicodeEncodeError)
      | Some chunk =>
          if refuses (WriteLine p n) then (fs, Some OSError)
          else write_lines (append fs p chunk) p (S n) items'
      end
  end.

(** Lines 74-80. *)
Definition write_index `{Platform} (fs : files) (resolved_output : Path)
    (lemma_to_file_indexes : list (str * list Z)) : outcome :=
  let created :=
    if negb (exists_ fs resolved_output) then
      match mkdir fs (parent resolved_output) with
      | (fs', None) => touch fs' resolved_output
      | failed => failed
      end
    else (fs, None) in
  match created with
  | (fs1, None) =>
      match open_w fs1 resolved_output with
      | (fs2, None) => write_lines fs2 resolved_output O lemma_to_file_indexes
      | failed => failed
      end
  | failed => failed
  end.

Inductive error :=
| EmptyInput          (* the message of line 61 *)
| Caught (e : exn).   (* [str(e)] of the [except] branch *)

Record ProcessingResult := {
  file_path : option Path;
  error_ : option error
}.

(** The posting lists built from a directory (lines 57 and 65-72). *)
Definition build_index `{UnicodeData} (dir : directory)
    : result exn (list (str * list Z)) :=
  index_files dir (get_lemmas_file_paths (map fst dir) []) [].

(** [process_lemmas_directory]: the result and the file system
    afterwards; [None] when [resolve_output] runs out of fuel.  An
    exception of line 57 or of the reading changes nothing; an
    exception of the write leaves behind what the calls before it
    made.  The numbers that line 79 writes were read from names within
    the limit on digits, so [str] does not raise there. *)
Definition process_lemmas_directory `{UnicodeData} `{Platform} (dir : directory)
    (output : Path) (fs : files) : option (ProcessingResult * files) :=
  if existsb lemma_number_raises (map fst dir)
  then Some ({| file_path := None; error_ := Some (Caught ValueError) |}, fs)
  else
  match get_lemmas_file_paths (map fst dir) [] with
  | [] => Some ({| file_path := None; error_ := Some EmptyInput |}, fs)
  | lemmas_file_paths =>
      match resolve_output fs output with
      | None => None
      | Some resolved_output =>
          match index_files dir lemmas_file_paths [] with
          | Raise e => Some ({| file_path := None; error_ := Some (Caught e) |}, fs)
          | Ok lemma_to_file_indexes =>
              match write_index fs resolved_output lemma_to_file_indexes with
              | (fs', None) =>
                  Some ({| file_path := Some resolved_output; error_ := None |}, fs')
              | (fs', Some e) =>
                  Some ({| file_path := None; error_ := Some (Caught e) |}, fs')
              end
          end
      end
  end.

End InvertedIndex.

(** ** [boolean_search.py]: the query engine *)

Module BooleanSearch.
Import Py.

(** The three structures loaded by [SearchEngine.__init__]. [lemmas] is
    a [dict] that [_get_indexes_by_token] iterates, so its insertion
    order is kept. *)
Record SearchEngine := {
  inverted_index : gmap str (gset Z);
  lemmas : list (str * gset str);
  htmls : gmap Z str
}.

(** *** The loaders *)

(** What stops the start of the engine. *)
Inductive load_exn :=
| CannotRead      (* [open], [os.listdir] or the decoding raised *)
| BlankLine       (* [splitted[0]] on a line without a word: [IndexError] *)
| NotAnInteger.   (* [int] of a word that is no integer, or of a numeral
                     beyond the limit on digits: [ValueError] *)

(** [set(map(int, words))]. *)
Fixpoint ints `{UnicodeData} `{Platform} (words : list str) : result load_exn (list Z) :=
  match words with
  | [] => Ok []
  | w :: words' =>
      match int_of_str w with
      | Some n => ns ← ints words'; Ok (n :: ns)
      | None => Raise NotAnInteger
      end
  end.

(** Lines 16-20: one assignment per line. *)
Fixpoint load_index_lines `{UnicodeData} `{Platform} (lines : list str)
    (inverted_index : gmap str (gset Z)) : result load_exn (gmap str (gset Z)) :=
  match lines with
  | [] => Ok inverted_index
  | line :: lines' =>
      match str_split line with
      | [] => Raise BlankLine
      | lemma :: words =>
          file_indexes ← ints words;
          load_index_lines lines' (<[lemma := list_to_set file_indexes]> inverted_index)
      end
  end.

(** [open(path, 'r', encoding='utf-8')] with [file.readlines()]: the
    lines of a regular file that the system lets be opened and that
    is UTF-8. *)
Definition read_lines `{Platform} (fs : InvertedIndex.files) (path : Path)
    : result load_exn (list str) :=
  match InvertedIndex.stat fs path with
  | Some (InvertedIndex.File content) =>
      if refuses (OpenRead path) then Raise CannotRead
      else match utf8_decode content with
           | Some text => Ok (readlines_text text)
           | None => Raise CannotRead
           end
  | _ => Raise CannotRead
  end.

(** [_load_inverted_index] on the file system of the builder's
    output. *)
Definition _load_inverted_index `{UnicodeData} `{Platform} (fs : InvertedIndex.files)
    (index_path : Path) : result load_exn (gmap str (gset Z)) :=
  lines ← read_lines fs index_path; load_index_lines lines ∅.

(** Lines 29-35: the tokens of one line join the set of its lemma. *)
Definition add_tokens (lemmas_index : list (str * gset str)) (lemma : str)
    (tokens : gset str) : list (str * gset str) :=
  match dict_get lemma lemmas_index with
  | None => dict_set lemma tokens lemmas_index
  | Some known => dict_set lemma (known ∪ tokens) lemmas_index
  end.

Fixpoint load_lemma_lines (lines : list str) (lemmas_index : list (str * gset str))
    : result load_exn (list (str * gset str)) :=
  match lines with
  | [] => Ok lemmas_index
  | line :: lines' =>
      match str_split line with
      | [] => Raise BlankLine
      | lemma :: words =>
          load_lemma_lines lines' (add_tokens lemmas_index lemma (list_to_set words))
      end
  end.

(** [_load_lemmas]: every file of the directory is read, whatever its
    name. *)
Fixpoint _load_lemmas (dir : InvertedIndex.directory)
    (lemmas_index : list (str * gset str)) : result load_exn (list (str * gset str)) :=
  match dir with
  | [] => Ok lemmas_index
  | (filename, content) :: dir' =>
      match content with
      | Some lines =>
          lemmas_index' ← load_lemma_lines lines lemmas_index;
          _load_lemmas dir' lemmas_index'
      | None => Raise CannotRead
      end
  end.

(** [re.compile(r'(\d+)\.html$').match(filename)] with
    [int(match.group(1))]. *)
Definition match_html_filename `{UnicodeData} (filename : str) : option Z :=
  let digits := take_while is_digit filename in
  let tail := drop_while is_digit filename in
  match digits with
  | [] => None
  | _ =>
      if bool_decide (tail = lit ".html" \/ tail = lit ".html" ++ [10%N])
      then Some (int_of_digits digits)
      else None
  end.

(** Line 44 for one name: [int(match.group(1))] raises [ValueError]
    when the name matches and has more digits than the limit on
    digits allows. *)
Definition html_number_raises `{UnicodeData} `{Platform} (filename : str) : bool :=
  match match_html_filename filename with
  | Some _ => too_many_digits (length (take_while is_digit filename))
  | None => false
  end.

(** [_load_htmls], when no [int] raises; the path is kept as the file
    name. *)
Fixpoint _load_htmls `{UnicodeData} (listing : list str) (htmls_index : gmap Z str)
    : gmap Z str :=
  match listing with
  | [] => htmls_index
  | filename :: listing' =>
      match match_html_filename filename with
      | Some number => _load_htmls listing' (<[number := filename]> htmls_index)
      | None => _load_htmls listing' htmls_index
      end
  end.

(** [os.listdir(path)]: the listing, or [None] when the call raises
    (no such directory, not a directory, no permission). *)
Definition listdir {A} (listing : option A) : result load_exn A :=
  match listing with
  | Some entries => Ok entries
  | None => Raise CannotRead
  end.

(** [SearchEngine.__init__]: the index file, the lemma directory and
    the listing of the document directory. *)
Definition init `{UnicodeData} `{Platform} (fs : InvertedIndex.files)
    (index_path : Path) (lemmas_dir : option InvertedIndex.directory)
    (htmls_listing : option (list str)) : result load_exn SearchEngine :=
  index ← _load_inverted_index fs index_path;
  dir ← listdir lemmas_dir;
  groups ← _load_lemmas dir [];
  listing ← listdir htmls_listing;
  if existsb html_number_raises listing then Raise NotAnInteger
  else Ok {| inverted_index := index;
             lemmas := groups;
             htmls := _load_htmls listing ∅ |}.

(** *** [_tokenize_query] *)

Definition AND : str := lit "AND".
Definition OR : str := lit "OR".
Definition NOT : str := lit "NOT".
Definition LPAREN : str := lit "(".
Definition RPAREN : str := lit ")".

(** Under [re.IGNORECASE] a letter of the pattern matches its two
    ASCII cases; no code point above 127 lowercases to one of the
    letters of [AND], [OR], [NOT]. *)
Definition ci_match (p c : N) : bool := (ascii_lower p =? ascii_lower c)%N.

(** The literal [kw] at the head of [s], ignoring case: the matched
    text and what follows it. *)
Fixpoint match_literal_ci (kw s : str) : option (str * str) :=
  match kw, s with
  | [], _ => Some ([], s)
  | p :: kw', c :: s' =>
      if ci_match p c
      then match match_literal_ci kw' s' with
           | Some (m, rest) => Some (c :: m, rest)
           | None => None
           end
      else None
  | _ :: _, [] => None
  end.

Definition is_word_opt `{UnicodeData} (c : option N) : bool :=
  match c with Some c => is_word c | None => false end.

(** [\b] between the character before and the character after. *)
Definition boundary `{UnicodeData} (before after : option N) : bool :=
  negb (eqb (is_word_opt before) (is_word_opt after)).

(** [\bKW\b] at the head of [s], [prev] being the character before. *)
Definition match_keyword `{UnicodeData} (kw : str) (prev : option N) (s : str)
    : option str :=
  match match_literal_ci kw s with
  | Some (m, rest) =>
      if boundary prev (head s) && boundary (last m) (head rest)
      then Some m else None
  | None => None
  end.

(** [\w+] at the head of [s]. *)
Definition match_word `{UnicodeData} (s : str) : option str :=
  match take_while is_word s with
  | [] => None
  | m => Some m
  end.

(** The alternatives of [token_pattern], tried in order at one
    position. *)
Definition match_at `{UnicodeData} (prev : option N) (s : str) : option str :=
  match s with
  | [] => None
  | c :: _ =>
      if (c =? 40)%N then Some [c]
      else if (c =? 41)%N then Some [c]
      else match match_keyword AND prev s with
           | Some m => Some m
           | None =>
           match match_keyword OR prev s with
           | Some m => Some m
           | None =>
           match match_keyword NOT prev s with
           | Some m => Some m
           | None => match_word s
           end end end
  end.

(** [re.findall]: the matches from left to right, without overlap.
    [skip] counts the characters still covered by the last match. *)
Fixpoint findall `{UnicodeData} (skip : nat) (prev : option N) (s : str)
    : list str :=
  match s with
  | [] => []
  | c :: s' =>
      match skip with
      | S skip' => findall skip' (Some c) s'
      | O =>
          match match_at prev s with
          | Some m => m :: findall (length m - 1) (Some c) s'
          | None => findall O (Some c) s'
          end
      end
  end.

Definition normalize `{UnicodeData} (t : str) : str :=
  if bool_decide (upper t ∈ [AND; OR; NOT; LPAREN; RPAREN])
  then upper t else lower t.

Definition _tokenize_query `{UnicodeData} (query : str) : list str :=
  map normalize (findall O None query).

(** *** [_to_postfix] *)

Definition precedence (t : str) : option Z :=
  if bool_decide (t = NOT) then Some 3
  else if bool_decide (t = AND) then Some 2
  else if bool_decide (t = OR) then Some 1
  else None.

(** The operator stack has its top, [operator_stack[-1]], at the head. *)

(** Lines 67-70: on [')'], pop to the output until ['('], and drop it. *)
Fixpoint close_paren (output_queue operator_stack : list str)
    : list str * list str :=
  match operator_stack with
  | [] => (output_queue, [])
  | top :: below =>
      if bool_decide (top = LPAREN) then (output_queue, below)
      else close_paren (output_queue ++ [top]) below
  end.

(** Lines 73-76: pop the operators that bind at least as tightly. *)
Fixpoint pop_operators (p : Z) (output_queue operator_stack : list str)
    : list str * list str :=
  match operator_stack with
  | [] => (output_queue, [])
  | top :: below =>
      if bool_decide (top <> LPAREN) && (p <=? default 0 (precedence top))
      then pop_operators p (output_queue ++ [top]) below
      else (output_queue, operator_stack)
  end.

(** One round of the loop of lines 60-77.  A token with a precedence is
    an operator (the [else] branch); the others are ['('], [')'] or a
    word. *)
Definition postfix_step (st : list str * list str) (token : str)
    : list str * list str :=
  let '(output_queue, operator_stack) := st in
  match precedence token with
  | None =>
      if bool_decide (token = LPAREN) then (output_queue, token :: operator_stack)
      else if bool_decide (token = RPAREN) then close_paren output_queue operator_stack
      else (output_queue ++ [token], operator_stack)
  | Some p =>
      let '(output_queue', operator_stack') :=
        pop_operators p output_queue operator_stack in
      (output_queue', token :: operator_stack')
  end.

Definition _to_postfix (tokens : list str) : list str :=
  let '(output_queue, operator_stack) := fold_left postfix_step tokens ([], []) in
  output_queue ++ operator_stack.

(** *** [_get_indexes_by_token] *)

(** What the stack of [process_query] holds: a set, or Python's
    [None]. *)
Abbreviation value := (option (gset Z)).

Definition _get_indexes_by_token (self : SearchEngine) (token : str)
    (default_value : gset Z) : value :=
  match inverted_index self !! token with
  | Some file_indexes => Some file_indexes
  | None =>
      match List.find (fun entry => bool_decide (token ∈ entry.2)) (lemmas self) with
      | Some (lemma, _) => inverted_index self !! lemma
      | None => Some default_value
      end
  end.

(** *** [process_query] *)

Inductive message :=
| NotNeedsOperand      (* line 104 *)
| BinaryNeedsOperands  (* line 110 *)
| BadStructure.        (* line 124 *)

(** [ValueError] is what the engine raises for a malformed query;
    [TypeError] is what a set operation on [None] raises. *)
Inductive exn :=
| ValueError (m : message)
| TypeError.

Definition is_operator (token : str) : bool :=
  bool_decide (token ∈ [AND; OR; NOT]).

(** One round of the loop of lines 100-121; the top of [stack] is its
    head. *)
Definition eval_step (self : SearchEngine) (stack : list value) (token : str)
    : result exn (list value) :=
  let all_docs : gset Z := dom (htmls self) in
  if is_operator token then
    if bool_decide (token = NOT) then
      match stack with
      | [] => Raise (ValueError NotNeedsOperand)
      | operand :: stack' =>
          match operand with
          | Some s => Ok (Some (all_docs ∖ s) :: stack')
          | None => Raise TypeError
          end
      end
    else
      match stack with
      | right_ :: left_ :: stack' =>
          match left_, right_ with
          | Some l, Some r =>
              if bool_decide (token = AND) then Ok (Some (l ∩ r) :: stack')
              else Ok (Some (l ∪ r) :: stack')
          | _, _ => Raise TypeError
          end
      | _ => Raise (ValueError BinaryNeedsOperands)
      end
  else Ok (_get_indexes_by_token self token ∅ :: stack).

Fixpoint eval_loop (self : SearchEngine) (postfix_tokens : list str)
    (stack : list value) : result exn (list value) :=
  match postfix_tokens with
  | [] => Ok stack
  | token :: rest =>
      stack' ← eval_step self stack token; eval_loop self rest stack'
  end.

(** [sorted(list(s))]. *)
Definition sorted (s : gset Z) : list Z := merge_sort Z.le (elements s).

(** Line 123 and [list(stack[0])]: the set that survives. *)
Definition surviving (stack : list value) : result exn (gset Z) :=
  match stack with
  | [v] =>
      match v with
      | Some s => Ok s
      | None => Raise TypeError
      end
  | _ => Raise (ValueError BadStructure)
  end.

(** Lines 97-124 on a postfix program: the set a query evaluates to. *)
Definition evaluate_set (self : SearchEngine) (postfix_tokens : list str)
    : result exn (gset Z) :=
  stack ← eval_loop self postfix_tokens []; surviving stack.

(** Line 126. *)
Definition paths (self : SearchEngine) (s : gset Z) : list (option str) :=
  map (fun idx => htmls self !! idx) (sorted s).

(** The evaluator alone: lines 97-126 on a postfix program. *)
Definition evaluate (self : SearchEngine) (postfix_tokens : list str)
    : result exn (list (option str)) :=
  s ← evaluate_set self postfix_tokens; Ok (paths self s).

(** The set [process_query] computes before it maps it to paths. *)
Definition query_set `{UnicodeData} (self : SearchEngine) (query : str)
    : result exn (gset Z) :=
  evaluate_set self (_to_postfix (_tokenize_query query)).

Definition process_query `{UnicodeData} (self : SearchEngine) (query : str)
    : result exn (list (option str)) :=
  evaluate self (_to_postfix (_tokenize_query query)).

End BooleanSearch.

(** ** A character table for the examples *)

(** ASCII and the Cyrillic letters U+0400 to U+045F, whose cases are 32
    (or, for the first and last sixteen, 80) apart; every other code
    point counts as a separator without case. *)
Module Cyrillic.
Import Py.

Definition upper_char (c : N) : N :=
  if between 1072 1103 c then (c - 32)%N
  else if between 1104 1119 c then (c - 80)%N
  else ascii_upper c.

Definition lower_char (c : N) : N :=
  if between 1040 1071 c then (c + 32)%N
  else if between 1024 1039 c then (c + 80)%N
  else ascii_lower c.

Definition table : UnicodeData := {|
  unicode_isalnum := between 1024 1119;
  unicode_digit := fun _ => None;
  unicode_upper := map upper_char;
  unicode_lower := map lower_char
|}.

(** кот, пёс, слово *)
Definition kot : str := [1082; 1086; 1090]%N.
Definition pyos : str := [1087; 1105; 1089]%N.
Definition slovo : str := [1089; 1083; 1086; 1074; 1086]%N.

End Cyrillic.

(** ** A platform for the examples *)

(** A system with a UTF-8 locale and [\n] as line end, which refuses
    no call, and an interpreter with the default limit on digits. *)
Module Posix.

Definition platform : Platform := {|
  text_encode := Py.utf8_encode;
  refuses := fun _ => false;
  int_max_str_digits := 4300
|}.

(** The bytes of a text that UTF-8 can write. *)
Definition encoded (text : str) : bytes := default [] (Py.utf8_encode text).

End Posix.


(** * Properties *)

(** ** Dictionaries *)

Section DictFacts.
Context {K V : Type} `{EqDecision K}.
Implicit Types (d : list (K * V)) (k : K) (v : V).

Lemma dict_get_set_eq k v d : Py.dict_get k (Py.dict_set k v d) = Some v.
Proof.
  induction d as [|[k' v'] d IH]; simpl.
  - by rewrite decide_True.
  - destruct (decide (k = k')) as [->|Hne]; simpl.
    + by rewrite decide_True.
    + by rewrite decide_False.
Qed.

Lemma dict_get_set_ne k k' v d :
  k <> k' -> Py.dict_get k' (Py.dict_set k v d) = Py.dict_get k' d.
Proof.
  intros Hne. induction d as [|[k0 v0] d IH]; simpl.
  - by rewrite decide_False.
  - destruct (decide (k = k0)) as [->|Hne0]; simpl.
    + by rewrite !decide_False.
    + by rewrite IH.
Qed.

Lemma dict_get_None k d : Py.dict_get k d = None <-> k ∉ d.*1.
Proof.
  induction d as [|[k' v'] d IH]; simpl.
  - split; [intros _; apply not_elem_of_nil | done].
  - rewrite not_elem_of_cons. destruct (decide (k = k')); [|tauto].
    split; [done | tauto].
Qed.

Lemma dict_get_Some_elem k v d : Py.dict_get k d = Some v -> (k, v) ∈ d.
Proof.
  induction d as [|[k' v'] d IH]; simpl; [done|].
  destruct (decide (k = k')) as [->|]; intros Hg.
  - injection Hg as ->. left.
  - right. auto.
Qed.

Lemma dict_get_elem_NoDup k v d :
  NoDup d.*1 -> (k, v) ∈ d -> Py.dict_get k d = Some v.
Proof.
  induction d as [|[k' v'] d IH]; simpl; intros Hnd Hin.
  - by apply elem_of_nil in Hin.
  - apply NoDup_cons in Hnd as [Hk Hnd]. apply elem_of_cons in Hin as [Heq|Hin].
    + injection Heq as -> ->. by rewrite decide_True.
    + rewrite decide_False; [auto|]. intros ->. apply Hk.
      apply list_elem_of_fmap. by exists (k', v).
Qed.

Lemma dict_set_keys k v d :
  (Py.dict_set k v d).*1 = if decide (k ∈ d.*1) then d.*1 else d.*1 ++ [k].
Proof.
  induction d as [|[k' v'] d IH].
  - destruct (decide (k ∈ ([] : list (K * V)).*1)) as [Hin|_]; [|done].
    by apply elem_of_nil in Hin.
  - cbn [Py.dict_set]. destruct (decide (k = k')) as [->|Hne].
    + rewrite !fmap_cons. cbn [fst].
      destruct (decide (k' ∈ k' :: d.*1)) as [Hin|Hin]; [done|].
      exfalso. apply Hin. left.
    + rewrite !fmap_cons, IH. cbn [fst].
      destruct (decide (k ∈ d.*1)) as [Hin|Hin];
        destruct (decide (k ∈ k' :: d.*1)) as [Hin'|Hin']; try done.
      * exfalso. apply Hin'. by right.
      * apply elem_of_cons in Hin' as [?|?]; done.
Qed.

Lemma dict_set_NoDup k v d : NoDup d.*1 -> NoDup (Py.dict_set k v d).*1.
Proof.
  intros Hnd. rewrite dict_set_keys. case_decide; [done|].
  apply NoDup_app. split_and!; [done | | apply NoDup_singleton].
  intros x Hx Hx'. apply list_elem_of_singleton in Hx' as ->. done.
Qed.

End DictFacts.

(** ** The index builder *)

Section BuilderFacts.
Import Py InvertedIndex.
Context `{UnicodeData}.
Implicit Types (index : list (str * list Z)) (dir : directory).

(** The posting list of a lemma: the ids written on its line, and
    nothing for a lemma without a line. *)
Definition postings (L : str) index : list Z := default [] (dict_get L index).

(** The lemmas [get_lemmas_from_lemma_file] reads from a file. *)
Definition file_lemmas dir (path : str) : list str :=
  match get_lemmas_from_lemma_file dir path with
  | Ok lemmas => lemmas
  | Raise _ => []
  end.

(** How many of the lemmas read are [L]. *)
Definition occurrences (L : str) (lemmas : list str) : nat :=
  length (filter (fun lemma => lemma = L) lemmas).

(** The ids that the files of [items], in this order, contribute to the
    lemma [L]: the file's id once for each line that starts with [L]. *)
Definition contributions dir (L : str) (items : list (Z * str)) : list Z :=
  flat_map (fun item => repeat item.1 (occurrences L (file_lemmas dir item.2)))
           items.

Lemma postings_add_posting L i index lemma :
  postings L (add_posting i index lemma)
  = postings L index ++ (if decide (lemma = L) then [i] else []).
Proof.
  unfold postings, add_posting.
  destruct (decide (lemma = L)) as [->|Hne].
  - destruct (dict_get L index) as [ids|] eqn:Hg; by rewrite dict_get_set_eq.
  - destruct (dict_get lemma index) as [ids|];
      rewrite dict_get_set_ne by done; by rewrite app_nil_r.
Qed.

Lemma postings_fold_add L i lemmas index :
  postings L (fold_left (add_posting i) lemmas index)
  = postings L index ++ repeat i (occurrences L lemmas).
Proof.
  revert index. induction lemmas as [|lemma lemmas IH]; intros index; simpl.
  - by rewrite app_nil_r.
  - rewrite IH, postings_add_posting, <- app_assoc. f_equal.
    unfold occurrences. rewrite filter_cons.
    destruct (decide (lemma = L)); done.
Qed.

Lemma add_posting_keys_NoDup i index lemma :
  NoDup index.*1 -> NoDup (add_posting i index lemma).*1.
Proof. unfold add_posting. destruct (dict_get lemma index); apply dict_set_NoDup. Qed.

Lemma fold_add_keys_NoDup i lemmas index :
  NoDup index.*1 -> NoDup (fold_left (add_posting i) lemmas index).*1.
Proof.
  revert index. induction lemmas as [|l ls IH]; intros index Hnd; simpl; [done|].
  by apply IH, add_posting_keys_NoDup.
Qed.

(** A key of the index has at least one id. *)
Definition no_empty_entry index : Prop := Forall (fun e => e.2 <> []) index.

Lemma dict_set_no_empty (k : str) (v : list Z) index :
  v <> [] -> no_empty_entry index -> no_empty_entry (dict_set k v index).
Proof.
  intros Hv. unfold no_empty_entry. induction index as [|[k' v'] d IH]; simpl; intros Hd.
  - by constructor.
  - apply Forall_cons in Hd as [Hv' Hd]. destruct (decide (k = k')).
    + by constructor.
    + constructor; auto.
Qed.

Lemma fold_add_no_empty i lemmas index :
  no_empty_entry index -> no_empty_entry (fold_left (add_posting i) lemmas index).
Proof.
  revert index. induction lemmas as [|l ls IH]; intros index Hd; simpl; [done|].
  apply IH. unfold add_posting. destruct (dict_get l index).
  - apply dict_set_no_empty; [|done]. by destruct l0.
  - by apply dict_set_no_empty.
Qed.

(** What [index_files] builds when no file raises. *)
Lemma index_files_postings dir items index index' :
  index_files dir items index = Ok index' ->
  (forall L, postings L index' = postings L index ++ contributions dir L items)
  /\ Forall (fun item => get_lemmas_from_lemma_file dir item.2
                         = Ok (file_lemmas dir item.2)) items
  /\ (NoDup index.*1 -> NoDup index'.*1)
  /\ (no_empty_entry index -> no_empty_entry index').
Proof.
  revert index. induction items as [|[i path] items IH]; intros index; simpl.
  - intros [= ->]. split_and!; [|constructor|done|done].
    intros L. unfold contributions. simpl. by rewrite app_nil_r.
  - destruct (get_lemmas_from_lemma_file dir path) as [lemmas|e] eqn:Hread;
      [|discriminate].
    simpl. intros Hrest. destruct (IH _ Hrest) as (Hpost & Hall & Hnd & Hne).
    assert (Hfl : file_lemmas dir path = lemmas) by (unfold file_lemmas; by rewrite Hread).
    split_and!.
    + intros L. rewrite Hpost, postings_fold_add, <- app_assoc. f_equal.
      unfold contributions. simpl. by rewrite Hfl.
    + constructor; [simpl; by rewrite Hfl | done].
    + intros Hk. by apply Hnd, fold_add_keys_NoDup.
    + intros Hk. by apply Hne, fold_add_no_empty.
Qed.

Lemma first_columns_spec lines acc lemmas :
  first_columns lines acc = Ok lemmas ->
  exists ws, lemmas = acc ++ ws
             /\ Forall2 (fun line w => first_column line = Ok w) lines ws.
Proof.
  revert acc. induction lines as [|line lines IH]; intros acc; simpl.
  - intros [= <-]. exists []. by rewrite app_nil_r.
  - destruct (first_column line) as [w|e] eqn:Hw; [|discriminate]. simpl.
    intros Hrest. destruct (IH _ Hrest) as (ws & -> & Hall).
    exists (w :: ws). rewrite <- app_assoc. split; [done|]. by constructor.
Qed.

(** The lemmas of a file that was read are the first columns of its
    lines, line by line. *)
Lemma file_lemmas_lines dir path lemmas :
  get_lemmas_from_lemma_file dir path = Ok lemmas ->
  exists lines, readlines dir path = Ok lines
                /\ Forall2 (fun line w => first_column line = Ok w) lines lemmas.
Proof.
  unfold get_lemmas_from_lemma_file.
  destruct (readlines dir path) as [lines|e]; [|discriminate]. simpl.
  intros Hfc. apply first_columns_spec in Hfc as (ws & -> & Hall).
  by exists lines.
Qed.

Lemma get_lemmas_file_paths_NoDup (listing : list str) (acc : list (Z * str)) :
  NoDup acc.*1 -> NoDup (get_lemmas_file_paths listing acc).*1.
Proof.
  revert acc. induction listing as [|f listing IH]; intros acc Hnd; simpl; [done|].
  destruct (match_lemma_filename f); [|by apply IH].
  by apply IH, dict_set_NoDup.
Qed.

Lemma elem_of_contributions dir L items (d : Z) :
  d ∈ contributions dir L items <->
  exists path, (d, path) ∈ items /\ L ∈ file_lemmas dir path.
Proof.
  unfold contributions. rewrite list_elem_of_In, in_flat_map. split.
  - intros ([i path] & Hin & Hrep). simpl in Hrep.
    apply repeat_spec in Hrep as Heq. subst i. exists path.
    rewrite list_elem_of_In. split; [done|].
    unfold occurrences in Hrep.
    destruct (filter (fun lemma => lemma = L) (file_lemmas dir path)) as [|x xs] eqn:Hf;
      [by destruct Hrep|].
    assert (Hx : x ∈ filter (fun lemma => lemma = L) (file_lemmas dir path))
      by (rewrite Hf; left).
    apply list_elem_of_filter in Hx as [-> Hx]. done.
  - intros (path & Hin & HL). exists (d, path). rewrite <- list_elem_of_In.
    split; [done|]. simpl. unfold occurrences.
    assert (Hx : L ∈ filter (fun lemma => lemma = L) (file_lemmas dir path))
      by (by apply list_elem_of_filter).
    destruct (filter _ _); [by apply elem_of_nil in Hx | by left].
Qed.

Lemma contributions_keys dir L items (d : Z) :
  d ∈ contributions dir L items -> d ∈ items.*1.
Proof.
  rewrite elem_of_contributions. intros (path & Hin & _).
  apply list_elem_of_fmap. by exists (d, path).
Qed.


(** How often an id stands in a posting list. *)
Lemma contributions_count dir L items (d : Z) :
  NoDup items.*1 ->
  filter (fun x => x = d) (contributions dir L items)
  = repeat d (match dict_get d items with
              | Some path => occurrences L (file_lemmas dir path)
              | None => O
              end).
Proof.
  induction items as [|[i path] items IH]; simpl; intros Hnd; [done|].
  apply NoDup_cons in Hnd as [Hi Hnd].
  change (contributions dir L ((i, path) :: items))
    with (repeat i (occurrences L (file_lemmas dir path)) ++ contributions dir L items).
  rewrite filter_app, IH by done.
  destruct (decide (d = i)) as [->|Hne].
  - assert (dict_get i items = None) as -> by (by apply dict_get_None).
    simpl. rewrite app_nil_r.
    induction (occurrences L (file_lemmas dir path)) as [|n IHn]; simpl; [done|].
    rewrite filter_cons, decide_True by done. by f_equal.
  - assert (filter (fun x => x = d) (repeat i (occurrences L (file_lemmas dir path))) = [])
      as ->; [|done].
    induction (occurrences L (file_lemmas dir path)) as [|n IHn]; simpl; [done|].
    rewrite filter_cons, decide_False by done. done.
Qed.

Lemma occurrences_NoDup L (lemmas : list str) :
  NoDup lemmas -> (occurrences L lemmas <= 1)%nat.
Proof.
  unfold occurrences. induction 1 as [|x l Hx Hnd IH]; simpl; [lia|].
  rewrite filter_cons. destruct (decide (x = L)) as [->|]; [|done].
  assert (filter (fun lemma => lemma = L) l = []) as ->; [|simpl; lia].
  destruct (filter (fun lemma => lemma = L) l) as [|y ys] eqn:Hf; [done|].
  assert (Hy : y ∈ filter (fun lemma => lemma = L) l) by (rewrite Hf; left).
  apply list_elem_of_filter in Hy as [-> Hy]. done.
Qed.

Lemma contributions_NoDup dir L items :
  NoDup items.*1 ->
  Forall (fun item => NoDup (file_lemmas dir item.2)) items ->
  NoDup (contributions dir L items).
Proof.
  induction items as [|[i path] items IH]; simpl; intros Hnd Hall; [constructor|].
  apply NoDup_cons in Hnd as [Hi Hnd]. apply Forall_cons in Hall as [Hp Hall].
  change (contributions dir L ((i, path) :: items))
    with (repeat i (occurrences L (file_lemmas dir path)) ++ contributions dir L items).
  simpl in Hp. pose proof (occurrences_NoDup L _ Hp) as Hle.
  destruct (occurrences L (file_lemmas dir path)) as [|[|n]]; simpl; [by apply IH| |lia].
  constructor; [|by apply IH]. intros Hin. by apply contributions_keys in Hin.
Qed.

Lemma first_column_elem lines lemmas L :
  Forall2 (fun line w => first_column line = Ok w) lines lemmas ->
  L ∈ lemmas <-> exists line, line ∈ lines /\ first_column line = Ok L.
Proof.
  induction 1 as [|line w lines lemmas Hw Hall IH].
  - split; [intros Hin; by apply elem_of_nil in Hin|].
    intros (line & Hin & _). by apply elem_of_nil in Hin.
  - rewrite elem_of_cons, IH. split.
    + intros [->|(l & Hin & Hl)]; [exists line; split; [left|done]|].
      exists l. split; [by right | done].
    + intros (l & Hin & Hl). apply elem_of_cons in Hin as [->|Hin].
      * left. congruence.
      * right. by exists l.
Qed.

(** The index of a successful build, lemma by lemma. *)
Lemma build_index_postings dir index :
  build_index dir = Ok index ->
  let items := get_lemmas_file_paths (map fst dir) [] in
  NoDup items.*1
  /\ NoDup index.*1
  /\ no_empty_entry index
  /\ Forall (fun item => get_lemmas_from_lemma_file dir item.2
                         = Ok (file_lemmas dir item.2)) items
  /\ forall L, postings L index = contributions dir L items.
Proof.
  intros Hb. cbv zeta. unfold build_index in Hb.
  apply index_files_postings in Hb as (Hpost & Hall & Hnd & Hne).
  split_and!.
  - apply get_lemmas_file_paths_NoDup. constructor.
  - apply Hnd. constructor.
  - apply Hne. constructor.
  - done.
  - apply Hpost.
Qed.

End BuilderFacts.

Import Py InvertedIndex BooleanSearch.

(** An equation between closed terms, checked by evaluating both
    sides. *)
Ltac by_evaluation :=
  lazymatch goal with
  | |- @eq ?A ?a ?b => vm_cast_no_check (@eq_refl A b)
  end.

(** ** Numbers as text *)

Section DecimalFacts.
Context `{UnicodeData}.

(** [int] of a run of digits, from the value [acc] of the digits
    before. *)
Definition digits_value (acc : Z) (s : str) : Z :=
  fold_left (fun acc c => 10 * acc + default 0 (digit_value c)) s acc.

Lemma int_of_digits_value (s : str) : int_of_digits s = digits_value 0 s.
Proof. reflexivity. Qed.

Lemma digits_value_acc (d : Decimal.uint) (acc : positive) :
  digits_value (Z.pos acc) (chars_of_uint d) = Z.pos (Pos.of_uint_acc d acc).
Proof.
  revert acc. unfold digits_value.
  induction d as [|d IH|d IH|d IH|d IH|d IH|d IH|d IH|d IH|d IH|d IH];
    intros acc; [reflexivity|..]; cbn [chars_of_uint fold_left Pos.of_uint_acc];
    rewrite <- IH; f_equal;
    match goal with
    | |- context [default 0 (digit_value ?c)] =>
        let v := eval vm_compute in (default 0 (digit_value c)) in
        change (default 0 (digit_value c)) with v
    end; lia.
Qed.

Lemma digits_value_uint (d : Decimal.uint) :
  digits_value 0 (chars_of_uint d) = Z.of_uint d.
Proof.
  unfold Z.of_uint.
  induction d as [|d IH|d IH|d IH|d IH|d IH|d IH|d IH|d IH|d IH|d IH];
    [reflexivity | exact IH |..];
    cbn [chars_of_uint Pos.of_uint Z.of_N]; rewrite <- digits_value_acc; reflexivity.
Qed.

(** The characters of a decimal numeral are digits. *)
Lemma chars_of_uint_digits (d : Decimal.uint) :
  Forall (fun c => is_ascii_digit c = true) (chars_of_uint d).
Proof. induction d; constructor; done. Qed.

Lemma is_ascii_digit_is_digit (c : N) : is_ascii_digit c = true -> is_digit c = true.
Proof.
  intros Hc. unfold is_digit, digit_value.
  assert (is_ascii c = true) as ->.
  { unfold is_ascii_digit, between in Hc. apply andb_true_iff in Hc as [_ Hhi].
    apply N.leb_le in Hhi. apply N.ltb_lt. lia. }
  by rewrite Hc.
Qed.

Lemma int_digits_uint (d : Decimal.uint) (acc : Z) (prev_digit : bool) :
  d <> Nil \/ prev_digit = true ->
  int_digits acc prev_digit (chars_of_uint d) = Some (digits_value acc (chars_of_uint d)).
Proof.
  revert acc prev_digit.
  induction d as [|d IH|d IH|d IH|d IH|d IH|d IH|d IH|d IH|d IH|d IH];
    intros acc prev_digit Hd;
    [destruct Hd as [?| ->]; done|..];
    cbn [chars_of_uint int_digits];
    match goal with
    | |- context [digit_value ?c] =>
        let v := eval vm_compute in (digit_value c) in
        change (digit_value c) with v at 1
    end; cbv iota beta; (rewrite IH; [reflexivity | by right]).
Qed.

End DecimalFacts.

(** ** Words and lines *)

(** No whitespace inside. *)
Definition spaceless (s : str) : Prop := Forall (fun c => isspace c = false) s.

(** A word as [split] gives them: not empty, no whitespace inside. *)
Definition word (s : str) : Prop := s <> [] /\ spaceless s.

Lemma drop_while_spaceless (s : str) : spaceless s -> drop_while isspace s = s.
Proof. intros Hs. destruct Hs as [|c s Hc Hs]; simpl; [done | by rewrite Hc]. Qed.

Lemma str_strip_spaceless (s : str) : spaceless s -> str_strip s = s.
Proof.
  intros Hs. unfold str_strip. rewrite (drop_while_spaceless s Hs).
  rewrite drop_while_spaceless; [apply rev_involutive|].
  unfold spaceless in *. rewrite Forall_forall in *. intros c Hc. apply Hs.
  by apply list_elem_of_In, in_rev, list_elem_of_In in Hc.
Qed.

Lemma chars_of_uint_spaceless (d : Decimal.uint) : spaceless (chars_of_uint d).
Proof. induction d; constructor; done. Qed.

Lemma str_of_int_word (z : Z) : word (str_of_int z).
Proof.
  unfold str_of_int, word. destruct (Z.to_int z) as [d|d] eqn:Hz.
  - split; [|apply chars_of_uint_spaceless].
    destruct d; try discriminate. destruct z; simpl in Hz; try discriminate.
    injection Hz as Hz. by apply DecimalPos.Unsigned.to_uint_nonnil in Hz.
  - split; [done|]. constructor; [done | apply chars_of_uint_spaceless].
Qed.

Lemma to_int_nonnil (z : Z) :
  match Z.to_int z with Decimal.Pos d | Decimal.Neg d => d <> Nil end.
Proof.
  destruct z; simpl; [done | apply DecimalPos.Unsigned.to_uint_nonnil
                     | apply DecimalPos.Unsigned.to_uint_nonnil].
Qed.

(** The number of digits of [str(n)]. *)
Definition digits_of (z : Z) : nat :=
  match Z.to_int z with
  | Decimal.Pos d | Decimal.Neg d => length (chars_of_uint d)
  end.

(** A number whose numeral [int] reads: it has no more digits than the
    limit allows.  Every number of at most 640 digits is one. *)
Definition readable `{Platform} (z : Z) : Prop := too_many_digits (digits_of z) = false.

Lemma filter_digits_uint `{UnicodeData} (d : Decimal.uint) :
  filter (fun c => is_digit c = true) (chars_of_uint d) = chars_of_uint d.
Proof.
  pose proof (chars_of_uint_digits d) as Hall.
  induction Hall as [|c l Hc Hall IH]; [reflexivity|].
  rewrite filter_cons, decide_True by (by apply is_ascii_digit_is_digit).
  by rewrite IH.
Qed.

Lemma int_limited_uint `{UnicodeData} `{Platform} (d : Decimal.uint) :
  d <> Nil -> too_many_digits (length (chars_of_uint d)) = false ->
  int_limited (chars_of_uint d) = Some (Z.of_uint d).
Proof.
  intros Hnil Hfit. unfold int_limited. rewrite filter_digits_uint, Hfit.
  rewrite (int_digits_uint d 0 false (or_introl Hnil)). by rewrite digits_value_uint.
Qed.

(** [int(str(n)) == n], within the limit on digits. *)
Lemma int_of_str_str_of_int `{UnicodeData} `{Platform} (z : Z) :
  readable z -> int_of_str (str_of_int z) = Some z.
Proof.
  unfold readable, digits_of, int_of_str. intros Hfit.
  rewrite str_strip_spaceless by apply str_of_int_word.
  pose proof (to_int_nonnil z) as Hnil. pose proof (DecimalZ.of_to z) as Hz.
  unfold str_of_int. destruct (Z.to_int z) as [d|d].
  - assert (Hd : int_limited (chars_of_uint d) = Some z).
    { rewrite int_limited_uint by done. f_equal. exact Hz. }
    destruct d; done.
  - rewrite int_limited_uint by done. simpl. f_equal. exact Hz.
Qed.

Lemma split_from_word (w cur rest : str) :
  spaceless w -> split_from cur (w ++ rest) = split_from (cur ++ w) rest.
Proof.
  intros Hw. revert cur. induction Hw as [|c w Hc Hw IH]; intros cur; simpl.
  - by rewrite app_nil_r.
  - rewrite Hc, IH. by rewrite <- app_assoc.
Qed.

Lemma split_from_space (cur rest : str) (c : N) :
  isspace c = true -> cur <> [] -> split_from cur (c :: rest) = cur :: split_from [] rest.
Proof. intros Hc Hcur. simpl. rewrite Hc. by destruct cur. Qed.

Lemma split_from_leading_space (rest : str) (c : N) :
  isspace c = true -> split_from [] (c :: rest) = split_from [] rest.
Proof. intros Hc. simpl. by rewrite Hc. Qed.

Lemma join_cons (sep w w2 : str) (ws : list str) :
  join sep (w :: w2 :: ws) = w ++ sep ++ join sep (w2 :: ws).
Proof. reflexivity. Qed.

Lemma lit_space : lit " " = [32%N].
Proof. reflexivity. Qed.

(** Words joined by single spaces, and ended by a newline, split into
    the same words. *)
Lemma split_join (ws : list str) :
  Forall word ws -> split_from [] (join (lit " ") ws ++ [10%N]) = ws.
Proof.
  induction 1 as [|w ws [Hne Hw] Hws IH]; [reflexivity|].
  destruct ws as [|w2 ws].
  - cbn [join]. rewrite split_from_word by done.
    cbn [app split_from]. change (isspace 10) with true. cbv iota. by destruct w.
  - rewrite lit_space in IH |- *.
    rewrite join_cons, <- !app_assoc, split_from_word by done.
    cbn [app]. rewrite split_from_space by done. by rewrite IH.
Qed.

(** The words of a line of the index file. *)
Lemma str_split_index_line (lemma : str) (ids : list Z) :
  word lemma -> str_split (index_line (lemma, ids)) = lemma :: map str_of_int ids.
Proof.
  intros [Hne Hw]. unfold str_split, index_line. cbn [fst snd].
  rewrite lit_space, split_from_word by done.
  cbn [app]. rewrite split_from_space by done. f_equal.
  rewrite <- lit_space. apply split_join. apply Forall_forall. intros w Hin.
  apply list_elem_of_In, in_map_iff in Hin as (z & <- & _). apply str_of_int_word.
Qed.

Lemma ints_str_of_int `{UnicodeData} `{Platform} (ids : list Z) :
  Forall readable ids -> ints (map str_of_int ids) = Ok ids.
Proof.
  induction 1 as [|z ids Hz Hids IH]; [reflexivity|].
  simpl. rewrite int_of_str_str_of_int, IH by done. reflexivity.
Qed.

(** Neither [\n] nor [\r]. *)
Definition no_newline (s : str) : Prop := Forall (fun c => c <> 10%N /\ c <> 13%N) s.

Lemma spaceless_no_newline (s : str) : spaceless s -> no_newline s.
Proof.
  unfold spaceless, no_newline. intros Hs. eapply Forall_impl; [exact Hs|].
  intros c Hc. split; intros ->; discriminate.
Qed.

Lemma lines_from_line (body cur rest : str) :
  no_newline body ->
  lines_from cur (body ++ 10%N :: rest) = (cur ++ body ++ [10%N]) :: lines_from [] rest.
Proof.
  intros Hb. revert cur. induction Hb as [|c body [Hc _] Hb IH]; intros cur; simpl.
  - reflexivity.
  - apply N.eqb_neq in Hc. rewrite Hc, IH. by rewrite <- app_assoc.
Qed.

Lemma universal_newlines_line (body rest : str) :
  no_newline body ->
  universal_newlines (body ++ 10%N :: rest) = body ++ 10%N :: universal_newlines rest.
Proof.
  induction 1 as [|c body [_ Hc] Hb IH]; [reflexivity|].
  simpl app. rewrite <- IH.
  destruct c as [|p]; [reflexivity|].
  do 4 (destruct p as [p|p|]; try reflexivity). done.
Qed.

(** ** The index file read back *)

(** A line of the index file without its newline. *)
Definition line_body (entry : str * list Z) : str :=
  entry.1 ++ lit " " ++ join (lit " ") (map str_of_int entry.2).

Lemma index_line_body (entry : str * list Z) : index_line entry = line_body entry ++ [10%N].
Proof. unfold index_line, line_body. by rewrite <- !app_assoc. Qed.

Lemma no_newline_app (s t : str) : no_newline s -> no_newline t -> no_newline (s ++ t).
Proof. unfold no_newline. intros. by apply Forall_app. Qed.

Lemma join_no_newline (ws : list str) :
  Forall word ws -> no_newline (join (lit " ") ws).
Proof.
  induction 1 as [|w ws [_ Hw] Hws IH]; [constructor|].
  destruct ws as [|w2 ws]; [by apply spaceless_no_newline|].
  rewrite join_cons. apply no_newline_app; [by apply spaceless_no_newline|].
  apply no_newline_app; [|done]. repeat constructor; discriminate.
Qed.

Lemma line_body_no_newline (entry : str * list Z) :
  word entry.1 -> no_newline (line_body entry).
Proof.
  intros [_ Hw]. unfold line_body.
  apply no_newline_app; [by apply spaceless_no_newline|].
  apply no_newline_app; [repeat constructor; discriminate|].
  apply join_no_newline, Forall_forall. intros w Hin.
  apply list_elem_of_In, in_map_iff in Hin as (z & <- & _). apply str_of_int_word.
Qed.

(** The text of an index: the lines that the builder writes, one
    after the other. *)
Definition serialize (index : list (str * list Z)) : str :=
  concat (map index_line index).

(** Reading the serialized index gives its lines back. *)
Lemma readlines_text_serialize (index : list (str * list Z)) :
  Forall (fun entry => word entry.1) index ->
  readlines_text (serialize index) = map index_line index.
Proof.
  unfold readlines_text, serialize.
  induction 1 as [|entry index Hw Hall IH]; [reflexivity|].
  cbn [map concat]. rewrite index_line_body, <- app_assoc.
  cbn [app]. rewrite universal_newlines_line by (by apply line_body_no_newline).
  rewrite lines_from_line by (by apply line_body_no_newline).
  by rewrite IH.
Qed.

Section LoadIndexFacts.
Context `{UnicodeData} `{Platform}.

(** The map of an index: each list of ids as a set. *)
Definition as_map (index : list (str * list Z)) (start : gmap str (gset Z))
    : gmap str (gset Z) :=
  fold_left (fun m entry => <[entry.1 := list_to_set entry.2]> m) index start.

Lemma load_index_lines_serialized (index : list (str * list Z))
    (start : gmap str (gset Z)) :
  Forall (fun entry => word entry.1 /\ Forall readable entry.2) index ->
  load_index_lines (map index_line index) start = Ok (as_map index start).
Proof.
  intros Hall. revert start.
  induction Hall as [|[lemma ids] index [Hw Hids] Hall IH]; intros start; [reflexivity|].
  cbn [map load_index_lines]. rewrite str_split_index_line by done.
  rewrite ints_str_of_int by done. apply IH.
Qed.

Lemma as_map_lookup (index : list (str * list Z)) (start : gmap str (gset Z)) (L : str) :
  NoDup index.*1 ->
  as_map index start !! L
  = match dict_get L index with
    | Some ids => Some (list_to_set ids)
    | None => start !! L
    end.
Proof.
  unfold as_map. revert start.
  induction index as [|[k v] index IH]; intros start Hnd; [reflexivity|].
  rewrite fmap_cons in Hnd. cbn [fst] in Hnd.
  apply NoDup_cons in Hnd as [Hk Hnd]. cbn [fold_left dict_get fst snd].
  rewrite IH by done. destruct (decide (L = k)) as [->|Hne].
  - apply dict_get_None in Hk. rewrite Hk. apply lookup_insert_eq.
  - destruct (dict_get L index); [done|]. by apply lookup_insert_ne.
Qed.

End LoadIndexFacts.

(** ** The first column of a line *)

Lemma take_while_prefix {A} (f : A -> bool) (l : list A) :
  l = take_while f l ++ drop_while f l.
Proof.
  induction l as [|a l IH]; simpl; [done|].
  destruct (f a); simpl; [by f_equal | done].
Qed.

Lemma take_while_Forall {A} (f : A -> bool) (l : list A) :
  Forall (fun a => f a = true) (take_while f l).
Proof.
  induction l as [|a l IH]; simpl; [constructor|].
  destruct (f a) eqn:Ha; by constructor.
Qed.

Lemma drop_while_head {A} (f : A -> bool) (l : list A) (a : A) (r : list A) :
  drop_while f l = a :: r -> f a = false.
Proof.
  induction l as [|b l IH]; simpl; [done|].
  destruct (f b) eqn:Hb; [done|]. by intros [= <- <-].
Qed.

Lemma split_from_drop_while (s : str) :
  split_from [] s = split_from [] (drop_while isspace s).
Proof.
  induction s as [|c s IH]; [reflexivity|].
  cbn [drop_while]. destruct (isspace c) eqn:Hc; [|reflexivity].
  by rewrite split_from_leading_space.
Qed.

(** The first word of a line that has one: the first element of
    [line.split()] and of [line.split(maxsplit=1)] alike. *)
Lemma first_word (s : str) :
  (drop_while isspace s = []
   /\ str_split s = [] /\ split_maxsplit1 s = [])
  \/ (exists w rest rest',
        word w /\ w = take_while nonspace (drop_while isspace s)
        /\ str_split s = w :: rest /\ split_maxsplit1 s = w :: rest').
Proof.
  unfold str_split, split_maxsplit1. rewrite split_from_drop_while.
  destruct (drop_while isspace s) as [|c s1] eqn:Hs1; [by left|]. right.
  pose proof (drop_while_head _ _ _ _ Hs1) as Hc.
  set (w := take_while nonspace (c :: s1)).
  assert (Hw : spaceless w).
  { unfold w, spaceless. eapply Forall_impl; [apply take_while_Forall|].
    intros x Hx. unfold nonspace in Hx. by destruct (isspace x). }
  assert (Hne : w <> []).
  { unfold w. simpl. unfold nonspace. by rewrite Hc. }
  assert (Hsplit : exists rest, split_from [] (c :: s1) = w :: rest).
  { rewrite (take_while_prefix nonspace (c :: s1)). fold w.
    rewrite split_from_word by done. cbn [app].
    destruct (drop_while nonspace (c :: s1)) as [|c' r] eqn:Hr.
    - exists []. simpl. by destruct w.
    - apply drop_while_head in Hr as Hc'. unfold nonspace in Hc'.
      apply negb_false_iff in Hc'. rewrite split_from_space by done. by eexists. }
  destruct Hsplit as [rest Hsplit].
  destruct (drop_while isspace (drop_while nonspace (c :: s1))) as [|c' r];
    eexists w, rest, _; by split_and!.
Qed.

Lemma first_column_word (line w : str) : first_column line = Ok w -> word w.
Proof.
  unfold first_column.
  destruct (first_word line) as [(_ & _ & ->)|(w' & r & r' & Hw & _ & _ & ->)];
    [done | by intros [= <-]].
Qed.

(** Builder and loader agree on the lemma of a line. *)
Lemma first_column_str_split (line : str) :
  first_column line
  = match str_split line with
    | w :: _ => Ok w
    | [] => Raise IndexError
    end.
Proof.
  unfold first_column.
  by destruct (first_word line) as [(_ & -> & ->)|(w & r & r' & _ & _ & -> & ->)].
Qed.

(** The lemmas of a built index are words, and each has an id. *)
Lemma build_index_keys `{UnicodeData} (dir : directory) (index : list (str * list Z)) :
  build_index dir = Ok index ->
  Forall (fun entry => word entry.1 /\ entry.2 <> []) index.
Proof.
  intros Hb. destruct (build_index_postings _ _ Hb) as (_ & Hnd & Hne & Hread & Hpost).
  apply Forall_forall. intros [L ids] Hin. cbn [fst snd].
  unfold no_empty_entry in Hne. rewrite Forall_forall in Hne.
  pose proof (Hne _ Hin) as Hids. cbn [snd] in Hids. split; [|done].
  pose proof (dict_get_elem_NoDup _ _ _ Hnd Hin) as Hget.
  pose proof (Hpost L) as HL. unfold postings in HL. rewrite Hget in HL. cbn in HL.
  destruct ids as [|d ids]; [done|].
  assert (Hd : d ∈ contributions dir L (get_lemmas_file_paths (map fst dir) []))
    by (rewrite <- HL; left).
  apply elem_of_contributions in Hd as (path & Hitem & Hlem).
  rewrite Forall_forall in Hread.
  destruct (file_lemmas_lines _ _ _ (Hread _ Hitem)) as (lines & _ & Hall).
  cbn [snd] in Hall.
  destruct (proj1 (first_column_elem _ _ L Hall) Hlem) as (line & _ & Hcol).
  by apply first_column_word in Hcol.
Qed.

(** ** The file system *)

Section FileSystemFacts.
Context `{Platform}.
Implicit Types (fs : files) (p q : Path).

Lemma stat_None fs p : stat fs p = None <-> p <> [] /\ fs !! p = None.
Proof. destruct p; simpl; [split; [done | by intros [? _]] | split; [done | by intros [_ ?]]]. Qed.

Lemma stat_Some_lookup fs p n : fs !! p = Some n -> p <> [] -> stat fs p = Some n.
Proof. by destruct p. Qed.

Lemma exists_false fs p : exists_ fs p = false <-> stat fs p = None.
Proof. unfold exists_. by destruct (stat fs p). Qed.

Lemma exists_true fs p : exists_ fs p = true <-> is_Some (stat fs p).
Proof. unfold exists_. destruct (stat fs p); split; done. Qed.

Lemma is_dir_true fs p : is_dir fs p = true <-> stat fs p = Some Dir.
Proof. unfold is_dir. destruct (stat fs p) as [[|c]|]; split; done. Qed.

(** What was there stays as it was. *)
Definition keeps fs fs' : Prop := forall q n, fs !! q = Some n -> fs' !! q = Some n.

(** Nothing changed but for new directories on the way to [p]. *)
Definition grew_dirs fs fs' p : Prop :=
  keeps fs fs'
  /\ forall q n, fs !! q = None -> fs' !! q = Some n -> n = Dir /\ q `suffix_of` p.

Lemma keeps_refl fs : keeps fs fs.
Proof. by intros q n. Qed.

Lemma keeps_trans fs fs1 fs2 : keeps fs fs1 -> keeps fs1 fs2 -> keeps fs fs2.
Proof. intros H1 H2 q n Hq. by apply H2, H1. Qed.

Lemma keeps_insert fs p n : fs !! p = None -> keeps fs (<[p := n]> fs).
Proof.
  intros Hp q m Hq. rewrite lookup_insert_ne; [done|]. congruence.
Qed.

Lemma grew_dirs_refl fs p : grew_dirs fs fs p.
Proof. split; [apply keeps_refl|]. intros q n Hq Hq'. congruence. Qed.

Lemma grew_dirs_insert fs p : fs !! p = None -> grew_dirs fs (<[p := Dir]> fs) p.
Proof.
  intros Hp. split; [by apply keeps_insert|]. intros q n Hq Hq'.
  destruct (decide (p = q)) as [<-|Hne].
  - rewrite lookup_insert_eq in Hq'. by injection Hq' as <-.
  - rewrite lookup_insert_ne in Hq' by done. congruence.
Qed.

Lemma grew_dirs_trans fs fs1 fs2 p1 p2 :
  grew_dirs fs fs1 p1 -> grew_dirs fs1 fs2 p2 -> p1 `suffix_of` p2 ->
  grew_dirs fs fs2 p2.
Proof.
  intros [Hk1 Hn1] [Hk2 Hn2] Hsuf. split; [by eapply keeps_trans|].
  intros q n Hq Hq'. destruct (fs1 !! q) as [m|] eqn:Hq1.
  - destruct (Hn1 _ _ Hq Hq1) as [-> Hs]. rewrite (Hk2 _ _ Hq1) in Hq'.
    injection Hq' as <-. split; [done|]. by etrans.
  - by apply Hn2.
Qed.

Lemma os_mkdir_Ok fs fs' p :
  os_mkdir fs p = Ok fs' ->
  stat fs p = None /\ is_dir fs (parent p) = true /\ fs' = <[p := Dir]> fs.
Proof.
  unfold os_mkdir, is_dir. destruct (stat fs p); [done|].
  destruct (stat fs (parent p)) as [[|c]|]; [|done..].
  destruct (refuses (Mkdir p)); [done|]. by intros [= <-].
Qed.

Lemma os_mkdir_grew fs fs' p : os_mkdir fs p = Ok fs' -> grew_dirs fs fs' p /\ is_dir fs' p = true.
Proof.
  intros (Hp & _ & ->)%os_mkdir_Ok. apply stat_None in Hp as [Hne Hp].
  split; [by apply grew_dirs_insert|]. apply is_dir_true.
  apply stat_Some_lookup; [apply lookup_insert_eq | done].
Qed.

Lemma mkdir_one_spec fs fs' p o :
  mkdir_one fs p = (fs', o) ->
  grew_dirs fs fs' p /\ (o = None -> is_dir fs' p = true).
Proof.
  unfold mkdir_one. destruct (os_mkdir fs p) as [fs1|e] eqn:Hos.
  - intros [= <- <-]. apply os_mkdir_grew in Hos as [? ?]. done.
  - destruct (is_dir fs p) eqn:Hd.
    + destruct e; intros [= <- <-]; (split; [apply grew_dirs_refl | done]).
    + destruct e; intros [= <- <-]; (split; [apply grew_dirs_refl | done]).
Qed.

Lemma mkdir_spec p : forall fs fs' o,
  mkdir fs p = (fs', o) ->
  grew_dirs fs fs' p /\ (o = None -> is_dir fs' p = true).
Proof.
  induction p as [|x p IH]; intros fs fs' o; cbn [mkdir].
  - destruct (os_mkdir fs []) as [fs1|e] eqn:Hos.
    + intros [= <- <-]. by apply os_mkdir_grew in Hos as [? ?].
    + destruct e; cbn; intros [= <- <-]; (split; [apply grew_dirs_refl | done]).
  - destruct (os_mkdir fs (x :: p)) as [fs1|e] eqn:Hos.
    + intros [= <- <-]. by apply os_mkdir_grew in Hos as [? ?].
    + assert (Hother : (if is_dir fs (x :: p) then (fs, None) else (fs, Some e)) = (fs', o) ->
                       grew_dirs fs fs' (x :: p) /\ (o = None -> is_dir fs' (x :: p) = true)).
      { destruct (is_dir fs (x :: p)) eqn:Hd; intros [= <- <-];
          (split; [apply grew_dirs_refl | done]). }
      destruct e; try exact Hother.
      destruct (mkdir fs p) as [fs1 [e1|]] eqn:Hm.
      * intros [= <- <-]. destruct (IH _ _ _ Hm) as [Hg _]. split; [|done].
        eapply grew_dirs_trans; [exact Hg | apply grew_dirs_refl | by apply suffix_cons_r].
      * intros Hone. destruct (IH _ _ _ Hm) as [Hg _].
        apply mkdir_one_spec in Hone as [Hg1 Hd]. split; [|done].
        eapply grew_dirs_trans; [exact Hg | exact Hg1 | by apply suffix_cons_r].
Qed.

(** Nothing to make when the directory is there. *)
Lemma mkdir_is_dir fs p : is_dir fs p = true -> mkdir fs p = (fs, None).
Proof.
  intros Hd. assert (Hos : os_mkdir fs p = Raise FileExistsError).
  { unfold os_mkdir. apply is_dir_true in Hd. by rewrite Hd. }
  destruct p; cbn [mkdir]; by rewrite Hos, Hd.
Qed.

Lemma touch_spec fs fs' p o :
  touch fs p = (fs', o) ->
  stat fs p = None ->
  (fs' = fs /\ is_Some o)
  \/ (fs' = <[p := File []]> fs /\ o = None /\ is_dir fs (parent p) = true).
Proof.
  unfold touch, is_dir. intros Ht Hp. apply exists_false in Hp. rewrite Hp in Ht.
  destruct (stat fs (parent p)) as [[|c]|]; [|injection Ht as <- <-; by left..].
  destruct (refuses (Touch p)); injection Ht as <- <-; [by left | by right].
Qed.

Lemma open_w_spec fs fs' p o content :
  open_w fs p = (fs', o) ->
  fs !! p = Some (File content) -> p <> [] ->
  (fs' = fs /\ is_Some o) \/ (fs' = <[p := File []]> fs /\ o = None).
Proof.
  unfold open_w. intros Ho Hp Hne. rewrite (stat_Some_lookup _ _ _ Hp Hne) in Ho.
  destruct (refuses (OpenWrite p)); injection Ho as <- <-; [by left | by right].
Qed.

(** The lines that reach the file are the first lines of the index. *)
Lemma write_lines_spec p items : forall fs fs' n o content,
  write_lines fs p n items = (fs', o) ->
  fs !! p = Some (File content) ->
  exists k chunks,
    fs' = <[p := File (content ++ concat chunks)]> fs
    /\ Forall2 (fun entry chunk => text_encode (index_line entry) = Some chunk)
               (take k items) chunks
    /\ (o = None -> k = length items).
Proof.
  induction items as [|entry items IH]; intros fs fs' n o content; cbn [write_lines].
  - intros [= <- <-] Hp. exists O, []. cbn. rewrite app_nil_r.
    split_and!; [by rewrite insert_id | constructor | done].
  - destruct (text_encode (index_line entry)) as [chunk|] eqn:Henc.
    + destruct (refuses (WriteLine p n)).
      * intros [= <- <-] Hp. exists O, []. cbn. rewrite app_nil_r.
        split_and!; [by rewrite insert_id | constructor | done].
      * intros Hw Hp.
        assert (Happ : append fs p chunk = <[p := File (content ++ chunk)]> fs)
          by (unfold append; by rewrite Hp).
        rewrite Happ in Hw.
        destruct (IH _ _ _ _ _ Hw (lookup_insert_eq _ _ _)) as (k & chunks & -> & Hall & Hk).
        exists (S k), (chunk :: chunks). cbn [take concat length].
        split_and!; [| by constructor | intros ?; f_equal; by apply Hk].
        by rewrite insert_insert_eq, <- app_assoc.
    + intros [= <- <-] Hp. exists O, []. cbn. rewrite app_nil_r.
      split_and!; [by rewrite insert_id | constructor | done].
Qed.

(** All lines are written when each can be encoded and none is
    refused. *)
Lemma write_lines_all p items : forall fs n,
  Forall (fun entry => is_Some (text_encode (index_line entry))) items ->
  (forall call, refuses call = false) ->
  exists fs', write_lines fs p n items = (fs', None).
Proof.
  induction items as [|entry items IH]; intros fs n Henc Hos; cbn [write_lines].
  - by eexists.
  - apply Forall_cons in Henc as [[chunk ->] Henc]. rewrite Hos. by apply IH.
Qed.

(** Lines 74-80 on a free path: directories above it may be new, and
    then the file with the lines that were written. *)
Lemma write_index_spec fs fs' p o index :
  write_index fs p index = (fs', o) ->
  stat fs p = None ->
  exists fs1 o1,
    mkdir fs (parent p) = (fs1, o1)
    /\ grew_dirs fs fs1 (parent p)
    /\ ((fs' = fs1 /\ is_Some o)
        \/ exists k chunks,
             o1 = None
             /\ fs' = <[p := File (concat chunks)]> fs1
             /\ Forall2 (fun entry chunk => text_encode (index_line entry) = Some chunk)
                        (take k index) chunks
             /\ (o = None -> k = length index)).
Proof.
  unfold write_index. intros Hw Hp. apply stat_None in Hp as Hp'. destruct Hp' as [Hne Hlook].
  apply exists_false in Hp as Hex. rewrite Hex in Hw. cbn [negb] in Hw.
  destruct (mkdir fs (parent p)) as [fs1 [e|]] eqn:Hm.
  { injection Hw as <- <-. exists fs1, (Some e).
    split_and!; [done | by apply mkdir_spec in Hm as [? _] | by left]. }
  apply mkdir_spec in Hm as [Hg Hd]. exists fs1, None. split_and!; [done | done |].
  assert (Hfree : fs1 !! p = None).
  { destruct (fs1 !! p) as [n|] eqn:Hp1; [|done]. exfalso.
    destruct Hg as [_ Hnew]. destruct (Hnew _ _ Hlook Hp1) as [_ Hsuf].
    apply suffix_length in Hsuf. destruct p; [done|]. cbn in Hsuf. lia. }
  assert (Hstat : stat fs1 p = None) by (by apply stat_None).
  destruct (touch fs1 p) as [fs2 o2] eqn:Ht.
  destruct (touch_spec _ _ _ _ Ht Hstat) as [[-> [e ->]]|(-> & -> & Hdir)].
  { injection Hw as <- <-. by left. }
  right. destruct (open_w (<[p := File []]> fs1) p) as [fs3 o3] eqn:Ho.
  destruct (open_w_spec _ _ _ _ _ Ho (lookup_insert_eq _ _ _) Hne)
    as [[-> [e ->]]|[-> ->]].
  { injection Hw as <- <-. exists O, []. cbn. split_and!; [done | done | constructor | done]. }
  rewrite insert_insert_eq in Hw.
  destruct (write_lines_spec _ _ _ _ _ _ _ Hw (lookup_insert_eq _ _ _))
    as (k & chunks & -> & Hall & Hk).
  exists k, chunks. rewrite insert_insert_eq. by split_and!.
Qed.

(** Lines 74-80 succeed on a free path in a directory that is there,
    when no call is refused and every line can be encoded. *)
Lemma write_index_succeeds fs p index :
  stat fs p = None -> is_dir fs (parent p) = true ->
  Forall (fun entry => is_Some (text_encode (index_line entry))) index ->
  (forall call, refuses call = false) ->
  exists fs', write_index fs p index = (fs', None).
Proof.
  intros Hp Hd Henc Hos. unfold write_index.
  apply exists_false in Hp as Hex. rewrite Hex. cbn [negb].
  rewrite mkdir_is_dir by done. unfold touch. rewrite Hex.
  apply is_dir_true in Hd. rewrite Hd, Hos. unfold open_w.
  apply stat_None in Hp as [Hne Hp].
  rewrite (stat_Some_lookup _ p (File [])) by (apply lookup_insert_eq || done).
  rewrite Hos. by apply write_lines_all.
Qed.








End FileSystemFacts.

(** *** [resolve_output] *)

Lemma chars_of_uint_inj (d d' : Decimal.uint) :
  chars_of_uint d = chars_of_uint d' -> d = d'.
Proof.
  revert d'. induction d as [|d IH|d IH|d IH|d IH|d IH|d IH|d IH|d IH|d IH|d IH];
    intros [|d'|d'|d'|d'|d'|d'|d'|d'|d'|d']; simpl; intros Heq;
    try discriminate; try reflexivity;
    injection Heq as Heq; f_equal; by apply IH.
Qed.

Lemma chars_of_uint_no_minus (d d' : Decimal.uint) :
  chars_of_uint d <> 45%N :: chars_of_uint d'.
Proof. destruct d; simpl; discriminate. Qed.

Lemma str_of_int_inj (j k : Z) : str_of_int j = str_of_int k -> j = k.
Proof.
  unfold str_of_int. intros Heq.
  rewrite <- (DecimalZ.of_to j), <- (DecimalZ.of_to k).
  destruct (Z.to_int j) as [d|d], (Z.to_int k) as [d'|d'].
  - by apply chars_of_uint_inj in Heq as ->.
  - by apply chars_of_uint_no_minus in Heq.
  - symmetry in Heq. by apply chars_of_uint_no_minus in Heq.
  - injection Heq as Heq. by apply chars_of_uint_inj in Heq as ->.
Qed.

Lemma numbered_inj (path : Path) (j k : Z) :
  numbered path j = numbered path k -> j = k.
Proof.
  unfold numbered. intros Heq. apply (f_equal name) in Heq.
  unfold name in Heq. cbn [hd] in Heq.
  apply app_inv_head, app_inv_head, app_inv_tail in Heq.
  by apply str_of_int_inj.
Qed.

Lemma exists_numbered (fs : files) (path : Path) (j : Z) :
  exists_ fs (numbered path j) = true <-> is_Some (fs !! numbered path j).
Proof. by rewrite exists_true. Qed.

(** The loop finds the first free number from [counter] on, as soon as
    the fuel exceeds the number of files that can be in its way. *)
Lemma resolve_output_loop_spec (fs : files) (path : Path) (fuel : nat) :
  forall (counter : Z) (X : gset Path),
    (forall j, counter <= j -> exists_ fs (numbered path j) = true ->
               numbered path j ∈ X) ->
    (size X < fuel)%nat ->
    exists k, counter <= k
      /\ resolve_output_loop fuel fs path counter = Some (numbered path k)
      /\ exists_ fs (numbered path k) = false
      /\ forall j, counter <= j < k -> exists_ fs (numbered path j) = true.
Proof.
  induction fuel as [|fuel IH]; intros counter X HX Hsize; [lia|].
  simpl. destruct (exists_ fs (numbered path counter)) eqn:He; simpl.
  - destruct (IH (counter + 1) (X ∖ {[numbered path counter]}))
      as (k & Hk & Hloop & Hfree & Hbusy).
    + intros j Hj Hej. apply elem_of_difference. split; [apply HX; [lia|done]|].
      intros Heq%elem_of_singleton%numbered_inj. lia.
    + assert (Hin : numbered path counter ∈ X) by (apply HX; [lia|done]).
      assert (Hsub : ({[numbered path counter]} : gset Path) ⊆ X) by set_solver.
      rewrite (size_difference _ _ Hsub), size_singleton.
      assert (size X <> O) by (intros ?%size_empty_inv; set_solver). lia.
    + exists k. split_and!; [lia | done | done |].
      intros j Hj. destruct (decide (j = counter)) as [->|]; [done|].
      apply Hbusy. lia.
  - exists counter. split_and!; [lia | done | done |]. intros j Hj. lia.
Qed.

Lemma resolve_output_spec (fs : files) (output : Path) :
  exists resolved,
    resolve_output fs output = Some resolved
    /\ stat fs resolved = None
    /\ (exists_ fs output = false -> resolved = output)
    /\ (exists_ fs output = true ->
        exists k, 1 <= k /\ resolved = numbered output k
                  /\ forall j, 1 <= j < k -> exists_ fs (numbered output j) = true).
Proof.
  unfold resolve_output. destruct (exists_ fs output) eqn:He; simpl.
  - destruct (resolve_output_loop_spec fs output (S (size fs)) 1 (dom fs))
      as (k & Hk & Hloop & Hfree & Hbusy).
    + intros j _ Hj. by apply elem_of_dom, exists_numbered.
    + rewrite size_dom. lia.
    + exists (numbered output k). split_and!; [done | by apply exists_false | done |].
      intros _. by exists k.
  - exists output. split_and!; [done | by apply exists_false | done | done].
Qed.

Lemma stem_suffix (p : Path) : stem p ++ suffix p = name p.
Proof.
  unfold stem, suffix. destruct (suffix_start (name p)); [apply take_drop | apply app_nil_r].
Qed.

(** *** The name of the numbered path *)

Lemma rfind_None (c : N) (s : str) : c ∉ s -> rfind c s = None.
Proof.
  induction s as [|x s IH]; [done|]. intros [Hx Hs]%not_elem_of_cons. simpl.
  rewrite IH by done. assert ((x =? c)%N = false) as -> by (apply N.eqb_neq; congruence).
  done.
Qed.

Lemma rfind_last (c : N) (base ext : str) :
  c ∉ ext -> rfind c (base ++ c :: ext) = Some (length base).
Proof.
  intros Hext. induction base as [|x base IH]; simpl.
  - by rewrite rfind_None, N.eqb_refl.
  - by rewrite IH.
Qed.

(** [stem] and [suffix] of a name with an extension, and of a name
    without a dot. *)
Lemma stem_suffix_ext (p : Path) (base ext : str) :
  name p = base ++ 46%N :: ext -> base <> [] -> ext <> [] -> 46%N ∉ ext ->
  stem p = base /\ suffix p = 46%N :: ext.
Proof.
  intros Hname Hbase Hext Hdot. unfold stem, suffix, suffix_start.
  rewrite Hname, rfind_last by done.
  assert (((0 <? length base) && (length base <? length (base ++ 46%N :: ext) - 1))%nat
          = true) as ->.
  { rewrite length_app. cbn [length]. destruct base; [done|]. destruct ext; [done|].
    cbn [length]. apply andb_true_iff. split; [done|]. apply Nat.ltb_lt. lia. }
  split; [by rewrite take_app_length | by rewrite drop_app_length].
Qed.

Lemma stem_suffix_plain (p : Path) :
  46%N ∉ name p -> stem p = name p /\ suffix p = [].
Proof.
  intros Hdot. unfold stem, suffix, suffix_start. by rewrite rfind_None.
Qed.

(** *** A run of the builder *)

(** The file at [p] holds the index: its content is the encoding,
    line by line, of lines of text; read as text these are the same
    lines again, and the words of each are a lemma of the index
    followed by the numerals of the ids of that lemma, lemma by lemma
    in the order of the index. *)
Definition holds_index `{Platform} (fs : files) (p : Path)
    (index : list (str * list Z)) : Prop :=
  exists lines chunks,
    fs !! p = Some (File (concat chunks))
    /\ Forall2 (fun line chunk => text_encode line = Some chunk) lines chunks
    /\ readlines_text (concat lines) = lines
    /\ map str_split lines = map (fun entry => entry.1 :: map str_of_int entry.2) index.

Section BuilderRuns.
Context `{UnicodeData} `{Platform}.

Lemma written_holds_index (fs : files) (p : Path) (index : list (str * list Z))
    (chunks : list bytes) :
  Forall (fun entry => word entry.1) index ->
  fs !! p = Some (File (concat chunks)) ->
  Forall2 (fun entry chunk => text_encode (index_line entry) = Some chunk) index chunks ->
  holds_index fs p index.
Proof.
  intros Hwords Hp Hall. exists (map index_line index), chunks. split_and!.
  - done.
  - by apply Forall2_fmap_l.
  - by apply readlines_text_serialize.
  - rewrite map_map. apply map_ext_Forall. eapply Forall_impl; [exact Hwords|].
    intros [lemma ids] Hw. by apply str_split_index_line.
Qed.

(** A run that reports no error: the index was built, the path was
    free, and the file there holds every line. *)
Lemma process_success dir output fs res fs' :
  process_lemmas_directory dir output fs = Some (res, fs') ->
  error_ res = None ->
  exists resolved index chunks,
    build_index dir = Ok index
    /\ resolve_output fs output = Some resolved
    /\ stat fs resolved = None
    /\ file_path res = Some resolved
    /\ fs' !! resolved = Some (File (concat chunks))
    /\ Forall2 (fun entry chunk => text_encode (index_line entry) = Some chunk)
               index chunks
    /\ holds_index fs' resolved index
    /\ exists fs0, mkdir fs (parent resolved) = (fs0, None)
                   /\ fs' = <[resolved := File (concat chunks)]> fs0.
Proof.
  unfold process_lemmas_directory, build_index.
  destruct (existsb lemma_number_raises (map fst dir)).
  { intros [= <- <-]. discriminate. }
  destruct (get_lemmas_file_paths (map fst dir) []) as [|item items] eqn:Hitems.
  { intros [= <- <-]. discriminate. }
  destruct (resolve_output_spec fs output) as (resolved & Hres & Hfree & _).
  rewrite Hres. destruct (index_files dir (item :: items) []) as [index|e] eqn:Hidx.
  2: { intros [= <- <-]. discriminate. }
  destruct (write_index fs resolved index) as [fs1 [e|]] eqn:Hw.
  { intros [= <- <-]. discriminate. }
  intros [= <- <-] _.
  destruct (write_index_spec _ _ _ _ _ Hw Hfree)
    as (fs0 & o1 & Hm & _ & [[_ [e [=]]]|(k & chunks & -> & -> & Hall & Hk)]).
  rewrite (Hk eq_refl), firstn_all in Hall.
  exists resolved, index, chunks. split_and!; try done; try apply lookup_insert_eq.
  - eapply written_holds_index; [|apply lookup_insert_eq | done].
    assert (Hb : build_index dir = Ok index) by (unfold build_index; by rewrite Hitems).
    eapply Forall_impl; [exact (build_index_keys _ _ Hb)|]. by intros entry [? _].
  - by exists fs0.
Qed.

(** Whatever the run does, nothing that was there changes, and what
    is new is on the way to the resolved path. *)
Lemma process_outcome dir output fs :
  exists res fs' resolved,
    process_lemmas_directory dir output fs = Some (res, fs')
    /\ resolve_output fs output = Some resolved
    /\ stat fs resolved = None
    /\ keeps fs fs'
    /\ (forall q n, fs !! q = None -> fs' !! q = Some n ->
          (n = Dir /\ q `suffix_of` parent resolved)
          \/ (q = resolved
              /\ exists index k chunks,
                   build_index dir = Ok index
                   /\ n = File (concat chunks)
                   /\ Forall2 (fun entry chunk =>
                                 text_encode (index_line entry) = Some chunk)
                              (take k index) chunks
                   /\ (error_ res = None -> k = length index)))
    /\ (is_Some (error_ res) <-> file_path res = None)
    /\ (error_ res = None -> file_path res = Some resolved).
Proof.
  destruct (resolve_output_spec fs output) as (resolved & Hres & Hfree & _).
  unfold process_lemmas_directory, build_index. rewrite Hres.
  assert (Hsame : forall q n, fs !! q = None -> fs !! q = Some n -> False)
    by (intros; congruence).
  destruct (existsb lemma_number_raises (map fst dir)).
  { exists {| file_path := None; error_ := Some (Caught InvertedIndex.ValueError) |},
      fs, resolved.
    split_and!; [done | done | done | apply keeps_refl | | by cbn | done].
    intros q n Hq Hq'. by destruct (Hsame q n). }
  destruct (get_lemmas_file_paths (map fst dir) []) as [|item items].
  { exists {| file_path := None; error_ := Some EmptyInput |}, fs, resolved.
    split_and!; [done | done | done | apply keeps_refl | | by cbn | done].
    intros q n Hq Hq'. by destruct (Hsame q n). }
  destruct (index_files dir (item :: items) []) as [index|e].
  2: { exists {| file_path := None; error_ := Some (Caught e) |}, fs, resolved.
       split_and!; [done | done | done | apply keeps_refl | | by cbn | done].
       intros q n Hq Hq'. by destruct (Hsame q n). }
  destruct (write_index fs resolved index) as [fs1 o] eqn:Hw.
  destruct (write_index_spec _ _ _ _ _ Hw Hfree) as (fs0 & o1 & _ & [Hk Hnew] & Hcases).
  apply stat_None in Hfree as [Hne Hfree].
  assert (Hfree0 : fs0 !! resolved = None).
  { destruct (fs0 !! resolved) as [n|] eqn:Hp1; [|done]. exfalso.
    destruct (Hnew _ _ Hfree Hp1) as [_ Hsuf].
    apply suffix_length in Hsuf. destruct resolved; [done|]. cbn in Hsuf. lia. }
  exists (match o with
          | None => {| file_path := Some resolved; error_ := None |}
          | Some e => {| file_path := None; error_ := Some (Caught e) |}
          end), fs1, resolved.
  split_and!; [by destruct o | done | by apply stat_None | | | |].
  - destruct Hcases as [[-> _]|(k & chunks & _ & -> & _)]; [done|].
    eapply keeps_trans; [exact Hk | by apply keeps_insert].
  - intros q n Hq Hq'. destruct Hcases as [[-> _]|(k & chunks & _ & -> & Hall & Hlen)].
    + left. by apply Hnew.
    + destruct (decide (resolved = q)) as [<-|Hneq].
      * right. split; [done|]. rewrite lookup_insert_eq in Hq'. injection Hq' as <-.
        exists index, k, chunks. split_and!; try done.
        intros Hok. apply Hlen. by destruct o.
      * left. rewrite lookup_insert_ne in Hq' by done. by apply Hnew.
  - destruct o; cbn; split; solve [done | by intros [? ?]].
  - by destruct o.
Qed.

(** The run succeeds when the index can be built, the directory of
    the output is there, no call is refused and every line can be
    encoded. *)
Lemma process_succeeds dir output fs index resolved :
  existsb lemma_number_raises (map fst dir) = false ->
  get_lemmas_file_paths (map fst dir) [] <> [] ->
  build_index dir = Ok index ->
  resolve_output fs output = Some resolved ->
  stat fs resolved = None ->
  is_dir fs (parent resolved) = true ->
  Forall (fun entry => is_Some (text_encode (index_line entry))) index ->
  (forall call, refuses call = false) ->
  exists fs',
    process_lemmas_directory dir output fs
    = Some ({| file_path := Some resolved; error_ := None |}, fs').
Proof.
  intros Hnum Hitems Hb Hres Hfree Hd Henc Hos.
  unfold process_lemmas_directory. unfold build_index in Hb. rewrite Hnum.
  destruct (get_lemmas_file_paths (map fst dir) []) as [|item items]; [done|].
  rewrite Hres, Hb.
  destruct (write_index_succeeds fs resolved index Hfree Hd Henc Hos) as [fs' ->].
  by exists fs'.
Qed.


End BuilderRuns.

(** *** Sample corpora *)

(** The two documents of the specification's scenario. *)
Definition two_docs : directory :=
  [ (lit "lemmas_1.txt", Some [Cyrillic.kot ++ [10%N]]);
    (lit "lemmas_2.txt", Some [Cyrillic.pyos ++ [10%N]]) ].


(** One document whose file has the same lemma on two lines. *)
Definition repeated_lemma : directory :=
  [ (lit "lemmas_1.txt",
     Some [Cyrillic.kot ++ lit " a" ++ [10%N]; Cyrillic.kot ++ lit " b" ++ [10%N]]) ].

(** [out/index.txt], and the directory [out]. *)
Definition index_txt : Path := [lit "index.txt"; lit "out"].
Definition out : Path := [lit "out"].

(** The file system after a build into [out/index.txt] from nothing:
    the directory [out] and the file with the given text in UTF-8. *)
Definition built (text : str) : files :=
  {[ out := Dir; index_txt := File (Posix.encoded text) ]}.

(** The text of the index of [two_docs]. *)
Definition two_docs_text : str :=
  Cyrillic.kot ++ lit " 1" ++ [10%N] ++ Cyrillic.pyos ++ lit " 2" ++ [10%N].

(** The build of [two_docs] into [out/index.txt]. *)
Example two_docs_run :
  @process_lemmas_directory Cyrillic.table Posix.platform two_docs index_txt ∅
  = Some ({| file_path := Some index_txt; error_ := None |}, built two_docs_text)
  /\ utf8_decode (Posix.encoded two_docs_text) = Some two_docs_text.
Proof. split; by_evaluation. Qed.

(** C1. Soundness and completeness of the build: after a successful
    run the file at the reported path holds the index, one line per
    lemma with the numerals of its ids, and a document id [d] stands
    on the line of a lemma [L] exactly when the lemma file registered
    for [d] has a line whose first column is [L]. *)
Theorem index_sound_and_complete `{UnicodeData} `{Platform} (dir : directory)
    (output : Path) (fs fs' : files) (res : ProcessingResult) :
  process_lemmas_directory dir output fs = Some (res, fs') ->
  error_ res = None ->
  exists resolved index,
    file_path res = Some resolved
    /\ holds_index fs' resolved index
    /\ NoDup index.*1
    /\ forall (L : str) (d : Z),
         d ∈ postings L index <->
         exists path lines line,
           dict_get d (get_lemmas_file_paths (map fst dir) []) = Some path
           /\ readlines dir path = Ok lines
           /\ line ∈ lines
           /\ first_column line = Ok L.
Proof.
  intros Hrun Hok.
  destruct (process_success _ _ _ _ _ Hrun Hok)
    as (resolved & index & chunks & Hb & _ & _ & Hpath & _ & _ & Hholds & _).
  exists resolved, index.
  destruct (build_index_postings _ _ Hb) as (Hkeys & Hnd & _ & Hread & Hpost).
  split_and!; [done | done | done |].
  intros L d. rewrite Hpost, elem_of_contributions.
  rewrite Forall_forall in Hread. split.
  - intros (path & Hin & HL).
    destruct (file_lemmas_lines _ _ _ (Hread _ Hin)) as (lines & Hrd & Hall).
    simpl in Hrd, Hall.
    destruct (proj1 (first_column_elem _ _ L Hall) HL) as (line & Hline & Hcol).
    exists path, lines, line. split_and!; try done.
    by apply dict_get_elem_NoDup.
  - intros (path & lines & line & Hget & Hlines & Hline & Hcol).
    apply dict_get_Some_elem in Hget as Hin. exists path. split; [done|].
    destruct (file_lemmas_lines _ _ _ (Hread _ Hin)) as (lines' & Hrd & Hall).
    simpl in Hrd, Hall.
    assert (lines' = lines) as -> by congruence.
    apply (first_column_elem _ _ L Hall). by exists line.
Qed.

Lemma index_sound_and_complete_witness :
  exists resolved index,
    Some index_txt = Some resolved
    /\ @holds_index Posix.platform (built two_docs_text) resolved index
    /\ NoDup index.*1
    /\ forall (L : str) (d : Z),
         d ∈ postings L index <->
         exists path lines line,
           dict_get d (@get_lemmas_file_paths Cyrillic.table (map fst two_docs) [])
             = Some path
           /\ readlines two_docs path = Ok lines
           /\ line ∈ lines
           /\ first_column line = Ok L.
Proof.
  apply (@index_sound_and_complete Cyrillic.table Posix.platform two_docs index_txt ∅
           (built two_docs_text)
           {| file_path := Some index_txt; error_ := None |}).
  - by_evaluation.
  - reflexivity.
Defined.




(** C4, as the code has it.  The builder appends a document's id once
    for every line of its file that starts with the lemma, so [d]
    stands on the line of [L] as often as the file of [d] has such
    lines; the line is free of duplicates when no file repeats a
    lemma. *)
Theorem one_id_per_line `{UnicodeData} `{Platform} (dir : directory) (output : Path)
    (fs fs' : files) (res : ProcessingResult) :
  process_lemmas_directory dir output fs = Some (res, fs') ->
  error_ res = None ->
  exists resolved index,
    file_path res = Some resolved
    /\ holds_index fs' resolved index
    /\ NoDup index.*1
    /\ forall (L : str),
         (forall d : Z,
            filter (fun x => x = d) (postings L index)
            = repeat d
                (match dict_get d (get_lemmas_file_paths (map fst dir) []) with
                 | Some path => occurrences L (file_lemmas dir path)
                 | None => O
                 end))
         /\ (Forall (fun item => NoDup (file_lemmas dir item.2))
                    (get_lemmas_file_paths (map fst dir) []) ->
             NoDup (postings L index)).
Proof.
  intros Hrun Hok.
  destruct (process_success _ _ _ _ _ Hrun Hok)
    as (resolved & index & chunks & Hb & _ & _ & Hpath & _ & _ & Hholds & _).
  exists resolved, index.
  destruct (build_index_postings _ _ Hb) as (Hkeys & Hnd & _ & _ & Hpost).
  split_and!; [done | done | done |].
  intros L. rewrite Hpost. split.
  - intros d. by apply contributions_count.
  - by apply contributions_NoDup.
Qed.

(** The text of the index of [repeated_lemma]. *)
Definition repeated_text : str := Cyrillic.kot ++ lit " 1 1" ++ [10%N].

Lemma one_id_per_line_witness :
  exists resolved index,
    Some index_txt = Some resolved
    /\ @holds_index Posix.platform (built repeated_text) resolved index
    /\ NoDup index.*1
    /\ forall (L : str),
         (forall d : Z,
            filter (fun x => x = d) (postings L index)
            = repeat d
                (match dict_get d (@get_lemmas_file_paths Cyrillic.table
                                     (map fst repeated_lemma) []) with
                 | Some path => occurrences L (file_lemmas repeated_lemma path)
                 | None => O
                 end))
         /\ (Forall (fun item => NoDup (file_lemmas repeated_lemma item.2))
                    (@get_lemmas_file_paths Cyrillic.table (map fst repeated_lemma) []) ->
             NoDup (postings L index)).
Proof.
  apply (@one_id_per_line Cyrillic.table Posix.platform repeated_lemma index_txt ∅
           (built repeated_text)
           {| file_path := Some index_txt; error_ := None |}).
  - by_evaluation.
  - reflexivity.
Defined.

(** C4 fails as stated: a lemma on two lines of document 1 gives the
    line "1 1". *)
Lemma repeated_line_repeats_id :
  @process_lemmas_directory Cyrillic.table Posix.platform repeated_lemma index_txt ∅
  = Some ({| file_path := Some index_txt; error_ := None |}, built repeated_text)
  /\ utf8_decode (Posix.encoded repeated_text) = Some repeated_text
  /\ map str_split (readlines_text repeated_text)
     = [[Cyrillic.kot; str_of_int 1; str_of_int 1]].
Proof. split_and!; by_evaluation. Qed.

(** C8. Collision-safe output: when the requested path exists, the
    run terminates and, whatever happens, leaves everything that
    existed as it was.  The path it resolves is [stem_k.ext] in the
    same directory, for the first [k >= 1] whose name is free; a run
    without error reports that path, and the file there holds the
    index.  The run is without error, and nothing but that file is
    new, when the index can be built and written: the directory of the
    requested path is there, the lemma files are read without an
    exception (no name has a number beyond the limit on digits, every
    file can be read and has no blank line), the system refuses no
    call and every line can be encoded. *)
Theorem collision_safe_output `{UnicodeData} `{Platform} (dir : directory)
    (output : Path) (fs : files) :
  exists_ fs output = true ->
  exists k res fs',
    1 <= k
    /\ process_lemmas_directory dir output fs = Some (res, fs')
    /\ (forall j, 1 <= j < k -> exists_ fs (numbered output j) = true)
    /\ exists_ fs (numbered output k) = false
    /\ parent (numbered output k) = parent output
    /\ (forall base ext,
          name output = base ++ 46%N :: ext -> base <> [] -> ext <> [] -> 46%N ∉ ext ->
          name (numbered output k) = base ++ lit "_" ++ str_of_int k ++ 46%N :: ext)
    /\ (46%N ∉ name output ->
        name (numbered output k) = name output ++ lit "_" ++ str_of_int k)
    /\ (forall p n, fs !! p = Some n -> fs' !! p = Some n)
    /\ (error_ res = None ->
        file_path res = Some (numbered output k)
        /\ exists index,
             build_index dir = Ok index /\ holds_index fs' (numbered output k) index)
    /\ (forall index,
          is_dir fs (parent output) = true ->
          existsb lemma_number_raises (map fst dir) = false ->
          get_lemmas_file_paths (map fst dir) [] <> [] ->
          build_index dir = Ok index ->
          Forall (fun entry => is_Some (text_encode (index_line entry))) index ->
          (forall call, refuses call = false) ->
          error_ res = None
          /\ forall p, fs !! p = None -> is_Some (fs' !! p) -> p = numbered output k).
Proof.
  intros Hexists.
  destruct (resolve_output_spec fs output) as (resolved & Hres & Hfree & _ & Hnum).
  destruct (Hnum Hexists) as (k & Hk & -> & Hbusy).
  destruct (process_outcome dir output fs)
    as (res & fs' & resolved & Hrun & Hres1 & _ & Hkeeps & _ & _ & Hok).
  assert (resolved = numbered output k) as -> by congruence.
  exists k, res, fs'. split_and!; try done.
  - by apply exists_false.
  - intros base ext Hname Hbase Hext Hdot.
    destruct (stem_suffix_ext output base ext Hname Hbase Hext Hdot) as [Hstem Hsuf].
    unfold numbered, name. cbn [hd]. by rewrite Hstem, Hsuf.
  - intros Hdot. destruct (stem_suffix_plain output Hdot) as [Hstem Hsuf].
    unfold numbered, name at 1. cbn [hd]. by rewrite Hstem, Hsuf, app_nil_r.
  - intros Hnone. split; [by apply Hok|].
    destruct (process_success _ _ _ _ _ Hrun Hnone)
      as (resolved & index & chunks & Hb & Hres' & _ & _ & _ & _ & Hholds & _).
    assert (resolved = numbered output k) as -> by congruence. by exists index.
  - intros index Hd Hlimit Hitems Hb Henc Hos.
    destruct (process_succeeds dir output fs index _ Hlimit Hitems Hb Hres Hfree Hd
                Henc Hos) as [fs1 Hrun1].
    rewrite Hrun in Hrun1. injection Hrun1 as -> ->. split; [done|].
    destruct (process_success _ _ _ _ _ Hrun eq_refl)
      as (resolved & index' & chunks & _ & Hres' & _ & _ & _ & _ & _ & fs0 & Hm & Hfs').
    assert (resolved = numbered output k) as -> by congruence.
    rewrite mkdir_is_dir in Hm by done. injection Hm as <-.
    intros p Hp [n Hn]. destruct (decide (numbered output k = p)) as [<-|Hne]; [done|].
    rewrite Hfs', lookup_insert_ne in Hn by done. congruence.
Qed.

(** [out] with an index file in it. *)
Definition old_index : files := {[ out := Dir; index_txt := File (lit "old") ]}.

Lemma collision_safe_output_witness :
  exists k res fs',
    1 <= k
    /\ @process_lemmas_directory Cyrillic.table Posix.platform two_docs index_txt old_index
       = Some (res, fs')
    /\ (forall j, 1 <= j < k -> exists_ old_index (numbered index_txt j) = true)
    /\ exists_ old_index (numbered index_txt k) = false
    /\ parent (numbered index_txt k) = parent index_txt
    /\ (forall base ext,
          name index_txt = base ++ 46%N :: ext -> base <> [] -> ext <> [] -> 46%N ∉ ext ->
          name (numbered index_txt k) = base ++ lit "_" ++ str_of_int k ++ 46%N :: ext)
    /\ (46%N ∉ name index_txt ->
        name (numbered index_txt k) = name index_txt ++ lit "_" ++ str_of_int k)
    /\ (forall p n, old_index !! p = Some n -> fs' !! p = Some n)
    /\ (error_ res = None ->
        file_path res = Some (numbered index_txt k)
        /\ exists index,
             @build_index Cyrillic.table two_docs = Ok index
             /\ @holds_index Posix.platform fs' (numbered index_txt k) index)
    /\ (forall index,
          is_dir old_index (parent index_txt) = true ->
          existsb (@lemma_number_raises Cyrillic.table Posix.platform)
                  (map fst two_docs) = false ->
          @get_lemmas_file_paths Cyrillic.table (map fst two_docs) [] <> [] ->
          @build_index Cyrillic.table two_docs = Ok index ->
          Forall (fun entry => is_Some (@text_encode Posix.platform (index_line entry)))
                 index ->
          (forall call, @refuses Posix.platform call = false) ->
          error_ res = None
          /\ forall p, old_index !! p = None -> is_Some (fs' !! p) ->
                       p = numbered index_txt k).
Proof.
  apply (@collision_safe_output Cyrillic.table Posix.platform two_docs index_txt
           old_index).
  reflexivity.
Defined.

(** The run of the witness: [out/index.txt] keeps its content and the
    index goes to [out/index_1.txt]. *)
Example collision_run :
  @process_lemmas_directory Cyrillic.table Posix.platform two_docs index_txt old_index
  = Some ({| file_path := Some [lit "index_1.txt"; lit "out"]; error_ := None |},
          {[ out := Dir;
             index_txt := File (lit "old");
             [lit "index_1.txt"; lit "out"] := File (Posix.encoded two_docs_text) ]}).
Proof. by_evaluation. Qed.

(** ** The query evaluator *)

(** Sample engines: the index says that кот is in documents 1 and 2,
    but only [1.html] is in the document directory. *)
Definition one_page : SearchEngine := {|
  inverted_index := {[ Cyrillic.kot := {[1; 2]} ]};
  lemmas := [];
  htmls := {[ 1 := lit "1.html" ]}
|}.

(** The specification's DocumentUniverse, for comparison with
    [all_docs]: the ids of the document table together with every id
    that has a posting. *)
Definition DocumentUniverse (self : SearchEngine) : gset Z :=
  dom (htmls self) ∪ ⋃ (map snd (map_to_list (inverted_index self))).

Lemma is_operator_NOT : is_operator NOT = true.
Proof. reflexivity. Qed.

Lemma is_operator_AND : is_operator AND = true.
Proof. reflexivity. Qed.

Lemma is_operator_OR : is_operator OR = true.
Proof. reflexivity. Qed.

Lemma eval_step_NOT (self : SearchEngine) (S : gset Z) (stack : list value) :
  eval_step self (Some S :: stack) NOT = Ok (Some (dom (htmls self) ∖ S) :: stack).
Proof. reflexivity. Qed.

Lemma DocumentUniverse_table (self : SearchEngine) :
  (forall L ids, inverted_index self !! L = Some ids -> ids ⊆ dom (htmls self)) ->
  DocumentUniverse self = dom (htmls self).
Proof.
  intros Hinv. unfold DocumentUniverse. apply set_eq. intros x.
  rewrite elem_of_union, elem_of_union_list. split; [|by left].
  intros [Hx|(X & HX & Hx)]; [done|].
  apply list_elem_of_In, in_map_iff in HX as ([L ids] & <- & Hin).
  apply list_elem_of_In, elem_of_map_to_list in Hin.
  by apply (Hinv L ids).
Qed.

(** C2, as the code has it.  [NOT] replaces the set [S] on top of the
    stack by the ids of the document table without [S]; that is the
    DocumentUniverse without [S] when every id with a posting is in the
    document table. *)
Theorem not_complements_document_table (self : SearchEngine) (S : gset Z)
    (stack : list value) :
  eval_step self (Some S :: stack) NOT = Ok (Some (dom (htmls self) ∖ S) :: stack)
  /\ ((forall L ids, inverted_index self !! L = Some ids -> ids ⊆ dom (htmls self)) ->
      dom (htmls self) ∖ S = DocumentUniverse self ∖ S).
Proof.
  split; [apply eval_step_NOT|].
  intros Hinv. by rewrite DocumentUniverse_table.
Qed.

(** C2 fails as stated: with a posting for document 2 and no [2.html],
    [NOT] of the empty set gives [{1}], while the DocumentUniverse
    without the empty set is [{1, 2}]. *)
Lemma not_ignores_posting_ids :
  eval_step one_page [Some ∅] NOT = Ok [Some {[1]}]
  /\ DocumentUniverse one_page ∖ ∅ = {[1; 2]}
  /\ ({[1]} : gset Z) <> {[1; 2]}.
Proof.
  split_and!.
  - by_evaluation.
  - by_evaluation.
  - intros Heq. assert (Hin : 2 ∈ ({[1]} : gset Z)).
    { rewrite Heq. apply elem_of_union_r, elem_of_singleton. reflexivity. }
    apply elem_of_singleton in Hin. discriminate.
Qed.

(** *** Term resolution *)

(** A lemma group whose only lemma is missing from the index, while one
    of its tokens is itself a key of the index. *)
Definition shadowed : SearchEngine := {|
  inverted_index := {[ lit "bar" := {[1]} ]};
  lemmas := [(lit "foo", {[ lit "bar" ]})];
  htmls := {[ 1 := lit "1.html" ]}
|}.

(** A lemma group whose only lemma is missing from the index. *)
Definition orphan : SearchEngine := {|
  inverted_index := ∅;
  lemmas := [(lit "foo", {[ lit "bar" ]})];
  htmls := {[ 1 := lit "1.html" ]}
|}.

(** [None] on the stack makes every operation that reads it raise. *)
Lemma none_operand_raises (self : SearchEngine) (v : value) (stack : list value) :
  eval_step self (None :: stack) NOT = Raise TypeError
  /\ eval_step self (None :: v :: stack) AND = Raise TypeError
  /\ eval_step self (None :: v :: stack) OR = Raise TypeError
  /\ eval_step self (v :: None :: stack) AND = Raise TypeError
  /\ eval_step self (v :: None :: stack) OR = Raise TypeError
  /\ surviving [None] = Raise TypeError.
Proof.
  split_and!; try reflexivity; unfold eval_step;
    rewrite ?is_operator_AND, ?is_operator_OR; simpl; by destruct v.
Qed.

(** C9, as the code has it.  If every lemma of the lemma group is a key
    of the index, a term always resolves to a set.  A term that is not
    itself a key of the index, and whose first lemma in the iteration
    order of the group with the term among its tokens is not a key
    either, resolves to [None]; [process_query] pushes that [None]
    unchecked, and the next operation on it, or the final [sorted],
    raises [TypeError]. *)
Theorem term_resolution_total_under_invariant (self : SearchEngine) :
  ((forall lemma tokens, (lemma, tokens) ∈ lemmas self ->
                         is_Some (inverted_index self !! lemma)) ->
   forall token default_value,
     is_Some (_get_indexes_by_token self token default_value))
  /\ (forall token default_value lemma tokens,
        inverted_index self !! token = None ->
        List.find (fun entry => bool_decide (token ∈ entry.2)) (lemmas self)
          = Some (lemma, tokens) ->
        inverted_index self !! lemma = None ->
        _get_indexes_by_token self token default_value = None
        /\ (is_operator token = false ->
            (forall stack, eval_step self stack token = Ok (None :: stack))
            /\ evaluate self [token] = Raise TypeError
            /\ evaluate self [token; NOT] = Raise TypeError)).
Proof.
  split.
  - intros Hinv token d. unfold _get_indexes_by_token.
    destruct (inverted_index self !! token) as [ids|]; [done|].
    destruct (List.find _ (lemmas self)) as [[lemma tokens]|] eqn:Hfind; [|done].
    apply find_some in Hfind as [Hin _]. apply (Hinv lemma tokens).
    by apply list_elem_of_In.
  - intros token d lemma tokens Htok Hfind Hlemma.
    assert (Hres : forall d', _get_indexes_by_token self token d' = None).
    { intros d'. unfold _get_indexes_by_token. by rewrite Htok, Hfind. }
    split; [apply Hres|]. intros Hop.
    assert (Hstep : forall stack, eval_step self stack token = Ok (None :: stack)).
    { intros stack. unfold eval_step. by rewrite Hop, Hres. }
    split_and!; [done | |].
    + unfold evaluate, evaluate_set. simpl. by rewrite Hstep.
    + unfold evaluate, evaluate_set. simpl. by rewrite Hstep.
Qed.

(** C9 fails as stated: bar is a token of the lemma foo, foo is not in
    the index, and yet bar resolves to a set, because bar is itself a
    key of the index. *)
Lemma token_of_missing_lemma_resolves :
  (lit "foo", {[ lit "bar" ]}) ∈ lemmas shadowed
  /\ lit "bar" ∈ ({[ lit "bar" ]} : gset str)
  /\ inverted_index shadowed !! lit "foo" = None
  /\ _get_indexes_by_token shadowed (lit "bar") ∅ = Some {[1]}.
Proof.
  split_and!.
  - left.
  - by apply elem_of_singleton.
  - by_evaluation.
  - by_evaluation.
Qed.

(** The [None] of C9 on an engine that breaks the invariant. *)
Example orphan_token_is_none :
  _get_indexes_by_token orphan (lit "bar") ∅ = None
  /\ evaluate orphan [lit "bar"] = Raise TypeError.
Proof. split; by_evaluation. Qed.

(** *** The stack machine *)

Lemma eval_loop_app (self : SearchEngine) (p1 p2 : list str) (stack : list value) :
  eval_loop self (p1 ++ p2) stack
  = match eval_loop self p1 stack with
    | Ok stack' => eval_loop self p2 stack'
    | Raise e => Raise e
    end.
Proof.
  revert stack. induction p1 as [|t p1 IH]; intros stack; simpl; [done|].
  destruct (eval_step self stack t) as [stack'|e]; simpl; [apply IH | done].
Qed.







(** ** The tokenizer *)

Section TokenizerFacts.
Context `{UnicodeData}.
Implicit Types (s x pre post run kw m : str) (prev : option N) (c p : N).

Lemma ci_match_cases p c :
  is_ascii_upper p = true -> ci_match p c = true -> c = p \/ c = (p + 32)%N.
Proof.
  unfold ci_match, ascii_lower, is_ascii_upper, between. intros Hp. rewrite Hp.
  apply andb_true_iff in Hp as [Hlo Hhi].
  apply N.leb_le in Hlo. apply N.leb_le in Hhi.
  destruct ((65 <=? c)%N && (c <=? 90)%N) eqn:Hc; intros Heq%N.eqb_eq.
  - left. lia.
  - right. lia.
Qed.

Lemma is_word_letter p :
  is_ascii_upper p = true -> is_word p = true /\ is_word (p + 32)%N = true.
Proof.
  unfold is_word, is_ascii, is_ascii_upper, is_ascii_lower, is_ascii_digit, between.
  intros Hp. apply andb_true_iff in Hp as [Hlo Hhi].
  apply N.leb_le in Hlo. apply N.leb_le in Hhi. split.
  - assert ((p <? 128)%N = true) as -> by (apply N.ltb_lt; lia).
    assert ((65 <=? p)%N = true) as -> by (apply N.leb_le; lia).
    assert ((p <=? 90)%N = true) as -> by (apply N.leb_le; lia). done.
  - assert ((p + 32 <? 128)%N = true) as -> by (apply N.ltb_lt; lia).
    assert ((97 <=? p + 32)%N = true) as -> by (apply N.leb_le; lia).
    assert ((p + 32 <=? 122)%N = true) as -> by (apply N.leb_le; lia).
    by rewrite orb_true_r.
Qed.

(** The letters of a keyword match word characters only. *)
Definition letters kw : Prop := Forall (fun p => is_ascii_upper p = true) kw.

Lemma ci_match_word kw p c :
  letters kw -> p ∈ kw -> ci_match p c = true -> is_word c = true.
Proof.
  unfold letters. rewrite Forall_forall. intros Hkw Hp Hm.
  destruct (is_word_letter p (Hkw p Hp)) as [H1 H2].
  destruct (ci_match_cases p c (Hkw p Hp) Hm) as [-> | ->]; done.
Qed.

Lemma letters_AND : letters AND.
Proof. repeat constructor. Qed.

Lemma letters_OR : letters OR.
Proof. repeat constructor. Qed.

Lemma letters_NOT : letters NOT.
Proof. repeat constructor. Qed.

Lemma take_while_app_stop x s :
  is_word_opt (head s) = false ->
  take_while is_word (x ++ s) = take_while is_word x.
Proof.
  intros Hs. induction x as [|c x IH]; simpl.
  - destruct s as [|c s]; [done|]. simpl in *. by rewrite Hs.
  - destruct (is_word c); [by rewrite IH | done].
Qed.

Lemma take_while_all {A} (f : A -> bool) (l : list A) :
  forallb f l = true -> take_while f l = l.
Proof.
  induction l as [|a l IH]; simpl; [done|].
  intros [-> Hl]%andb_true_iff. by rewrite IH.
Qed.

Lemma match_literal_ci_app kw x s :
  letters kw -> is_word_opt (head s) = false ->
  match_literal_ci kw (x ++ s)
  = match match_literal_ci kw x with
    | Some (m, rest) => Some (m, rest ++ s)
    | None => None
    end.
Proof.
  intros Hkw Hs. revert x. induction kw as [|p kw IH]; intros x; [done|].
  assert (Hkw' : letters kw) by (by apply Forall_inv_tail in Hkw).
  destruct x as [|c x]; simpl.
  - destruct s as [|c s]; [done|]. simpl in Hs.
    destruct (ci_match p c) eqn:Hm; [|done].
    apply (ci_match_word (p :: kw)) in Hm; [congruence | done | left].
  - destruct (ci_match p c); [|done]. rewrite (IH Hkw').
    by destruct (match_literal_ci kw x) as [[m rest]|].
Qed.

(** A keyword matches a prefix made of word characters. *)
Lemma match_literal_ci_prefix kw x m rest :
  letters kw -> match_literal_ci kw x = Some (m, rest) ->
  x = m ++ rest /\ forallb is_word m = true /\ length m = length kw.
Proof.
  intros Hkw. revert x m rest. induction kw as [|p kw IH]; intros x m rest; simpl.
  - by intros [= <- <-].
  - assert (Hkw' : letters kw) by (by apply Forall_inv_tail in Hkw).
    destruct x as [|c x]; [done|].
    destruct (ci_match p c) eqn:Hm; [|done].
    destruct (match_literal_ci kw x) as [[m' rest']|] eqn:Hrec; [|done].
    intros [= <- <-]. destruct (IH Hkw' _ _ _ Hrec) as (-> & Hw & Hlen).
    split_and!; [done | | simpl; by rewrite Hlen].
    simpl. rewrite Hw, andb_true_r.
    apply (ci_match_word (p :: kw) p); [done | left | done].
Qed.

Lemma is_word_opt_head_app rest s :
  is_word_opt (head s) = false ->
  is_word_opt (head (rest ++ s)) = is_word_opt (head rest).
Proof. intros Hs. destruct rest; simpl; [by rewrite Hs | done]. Qed.

Lemma match_keyword_app kw prev x s :
  letters kw -> x <> [] -> is_word_opt (head s) = false ->
  match_keyword kw prev (x ++ s) = match_keyword kw prev x.
Proof.
  intros Hkw Hx Hs. unfold match_keyword. rewrite match_literal_ci_app by done.
  destruct (match_literal_ci kw x) as [[m rest]|]; [|done].
  unfold boundary. by rewrite !is_word_opt_head_app by done.
Qed.

Lemma match_at_app prev x s :
  x <> [] -> is_word_opt (head s) = false ->
  match_at prev (x ++ s) = match_at prev x.
Proof.
  intros Hx Hs. destruct x as [|c x]; [done|].
  change ((c :: x) ++ s) with (c :: x ++ s). unfold match_at.
  change (c :: x ++ s) with ((c :: x) ++ s).
  rewrite !match_keyword_app by (done || apply letters_AND || apply letters_OR
                                 || apply letters_NOT).
  unfold match_word. by rewrite take_while_app_stop.
Qed.

(** A match is a non-empty prefix of the text. *)
Lemma match_at_prefix prev x m :
  match_at prev x = Some m -> m <> [] /\ exists rest, x = m ++ rest.
Proof.
  destruct x as [|c x]; [done|]. unfold match_at.
  destruct (c =? 40)%N; [intros [= <-]; split; [done | by exists x]|].
  destruct (c =? 41)%N; [intros [= <-]; split; [done | by exists x]|].
  assert (Hkw : forall kw, letters kw -> kw <> [] ->
            match_keyword kw prev (c :: x) = Some m ->
            m <> [] /\ exists rest, c :: x = m ++ rest).
  { intros kw Hl Hne. unfold match_keyword.
    destruct (match_literal_ci kw (c :: x)) as [[m' rest]|] eqn:Hlit; [|done].
    destruct (_ && _); [|done]. intros [= ->].
    destruct (match_literal_ci_prefix _ _ _ _ Hl Hlit) as (Hx & _ & Hlen).
    split; [|by exists rest]. intros ->. by destruct kw. }
  destruct (match_keyword AND prev (c :: x)) eqn:H1.
  { intros [= ->]. by apply (Hkw AND letters_AND). }
  destruct (match_keyword OR prev (c :: x)) eqn:H2.
  { intros [= ->]. by apply (Hkw OR letters_OR). }
  destruct (match_keyword NOT prev (c :: x)) eqn:H3.
  { intros [= ->]. by apply (Hkw NOT letters_NOT). }
  unfold match_word.
  destruct (take_while is_word (c :: x)) as [|c' m'] eqn:Htw; [done|].
  intros [= <-]. split; [done|]. exists (drop_while is_word (c :: x)).
  rewrite <- Htw. apply take_while_prefix.
Qed.

Lemma findall_nil skip prev : findall skip prev [] = [].
Proof. by destruct skip. Qed.

(** Inside the last match nothing is found. *)
Lemma findall_skip_all skip prev s :
  (length s <= skip)%nat -> findall skip prev s = [].
Proof.
  revert skip prev. induction s as [|c s IH]; intros skip prev Hlen; [apply findall_nil|].
  simpl in Hlen. destruct skip as [|skip]; [lia|]. simpl. apply IH. lia.
Qed.

(** The character before the position that follows [x]. *)
Definition last_or prev x : option N :=
  match last x with
  | Some c => Some c
  | None => prev
  end.

Lemma last_or_cons prev c x : last_or (Some c) x = last_or prev (c :: x).
Proof. unfold last_or. rewrite last_cons. by destruct (last x). Qed.

(** The scan splits where a separator or a parenthesis starts. *)
Lemma findall_app x s : forall skip prev,
  (skip <= length x)%nat -> is_word_opt (head s) = false ->
  findall skip prev (x ++ s) = findall skip prev x ++ findall O (last_or prev x) s.
Proof.
  induction x as [|c x IH]; intros skip prev Hskip Hs.
  - simpl in Hskip. assert (skip = O) as -> by lia. by rewrite findall_nil.
  - rewrite <- last_or_cons. destruct skip as [|skip].
    + change (findall O prev ((c :: x) ++ s))
        with (match match_at prev ((c :: x) ++ s) with
              | Some m => m :: findall (length m - 1) (Some c) (x ++ s)
              | None => findall O (Some c) (x ++ s)
              end).
      rewrite match_at_app by done.
      change (findall O prev (c :: x))
        with (match match_at prev (c :: x) with
              | Some m => m :: findall (length m - 1) (Some c) x
              | None => findall O (Some c) x
              end).
      destruct (match_at prev (c :: x)) as [m|] eqn:Hm.
      * apply match_at_prefix in Hm as (Hne & rest & Hx).
        apply (f_equal length) in Hx. rewrite length_app in Hx. simpl in Hx.
        rewrite IH by (done || lia). done.
      * rewrite IH by (done || lia). done.
    + simpl in Hskip. simpl. apply IH; [lia | done].
Qed.

(** A character that is not a word character is a parenthesis, which
    is a token, or a separator. *)
Definition paren_token c : list str :=
  if (c =? 40)%N then [[c]] else if (c =? 41)%N then [[c]] else [].

Lemma match_keyword_nonword kw prev c s :
  letters kw -> kw <> [] -> is_word c = false -> match_keyword kw prev (c :: s) = None.
Proof.
  intros Hl Hne Hc. unfold match_keyword. destruct kw as [|p kw]; [done|]. simpl.
  destruct (ci_match p c) eqn:Hm; [|done].
  apply (ci_match_word (p :: kw)) in Hm; [congruence | done | left].
Qed.

Lemma findall_nonword prev c s :
  is_word c = false -> findall O prev (c :: s) = paren_token c ++ findall O (Some c) s.
Proof.
  intros Hc. unfold paren_token. simpl.
  destruct (c =? 40)%N; [done|]. destruct (c =? 41)%N; [done|].
  rewrite !match_keyword_nonword by (done || apply letters_AND || apply letters_OR
                                     || apply letters_NOT).
  unfold match_word. simpl. by rewrite Hc.
Qed.

(** Only the class of the character before matters. *)
Lemma match_at_prev prev prev' s :
  is_word_opt prev = is_word_opt prev' -> match_at prev s = match_at prev' s.
Proof.
  intros Hp. unfold match_at, match_keyword, boundary. by rewrite Hp.
Qed.

Lemma findall_prev prev prev' s :
  is_word_opt prev = is_word_opt prev' -> findall O prev s = findall O prev' s.
Proof.
  intros Hp. destruct s as [|c s]; [done|].
  change (findall O prev (c :: s))
    with (match match_at prev (c :: s) with
          | Some m => m :: findall (length m - 1) (Some c) s
          | None => findall O (Some c) s
          end).
  by rewrite (match_at_prev prev prev').
Qed.

Lemma findall_prev_nonword prev prev' s :
  is_word_opt (head s) = false -> findall O prev s = findall O prev' s.
Proof.
  destruct s as [|c s]; [done|]. intros Hc. simpl in Hc.
  by rewrite !(findall_nonword _ c s Hc).
Qed.

Lemma is_word_not_paren c : is_word c = true -> (c =? 40)%N = false /\ (c =? 41)%N = false.
Proof.
  intros Hc. split; apply N.eqb_neq; intros ->; vm_compute in Hc; discriminate.
Qed.

(** A maximal run of word characters is one match. *)
Lemma match_at_run prev run :
  run <> [] -> forallb is_word run = true -> match_at prev run = Some run.
Proof.
  intros Hne Hall. destruct run as [|c r]; [done|]. unfold match_at.
  assert (Hc : is_word c = true) by (simpl in Hall; by apply andb_true_iff in Hall as [? _]).
  destruct (is_word_not_paren c Hc) as [-> ->].
  assert (Hkw : forall kw m, letters kw -> kw <> [] ->
            match_keyword kw prev (c :: r) = Some m -> m = c :: r).
  { intros kw m Hl Hk. unfold match_keyword.
    destruct (match_literal_ci kw (c :: r)) as [[m' rest]|] eqn:Hlit; [|done].
    destruct (match_literal_ci_prefix _ _ _ _ Hl Hlit) as (Hx & Hw & Hlen).
    destruct (boundary prev _); [|done]. simpl.
    destruct (boundary (last m') (head rest)) eqn:Hb; [|done]. intros [= <-].
    destruct rest as [|c' rest]; [by rewrite app_nil_r in Hx|]. exfalso.
    rewrite Hx, forallb_app in Hall. apply andb_true_iff in Hall as [_ Hrest].
    simpl in Hrest. apply andb_true_iff in Hrest as [Hc' _].
    unfold boundary in Hb. simpl in Hb. rewrite Hc' in Hb.
    destruct (last m') as [l|] eqn:Hlast.
    - apply last_Some in Hlast as [m'' ->]. rewrite forallb_app in Hw.
      apply andb_true_iff in Hw as [_ Hl']. simpl in Hl'.
      apply andb_true_iff in Hl' as [Hl' _]. simpl in Hb. by rewrite Hl' in Hb.
    - apply last_None in Hlast as ->. simpl in Hlen. by destruct kw. }
  destruct (match_keyword AND prev (c :: r)) eqn:H1.
  { f_equal. by apply (Hkw AND _ letters_AND). }
  destruct (match_keyword OR prev (c :: r)) eqn:H2.
  { f_equal. by apply (Hkw OR _ letters_OR). }
  destruct (match_keyword NOT prev (c :: r)) eqn:H3.
  { f_equal. by apply (Hkw NOT _ letters_NOT). }
  unfold match_word. rewrite take_while_all by done. done.
Qed.

Lemma findall_run prev run :
  run <> [] -> forallb is_word run = true -> findall O prev run = [run].
Proof.
  intros Hne Hall. destruct run as [|c r]; [done|].
  change (findall O prev (c :: r))
    with (match match_at prev (c :: r) with
          | Some m => m :: findall (length m - 1) (Some c) r
          | None => findall O (Some c) r
          end).
  rewrite match_at_run by done. f_equal. apply findall_skip_all. simpl. lia.
Qed.

(** The tokens of a text around one of its maximal runs of word
    characters. *)
Lemma findall_around_run pre run post :
  is_word_opt (last pre) = false -> run <> [] -> forallb is_word run = true ->
  is_word_opt (head post) = false ->
  findall O None (pre ++ run ++ post)
  = findall O None pre ++ [run] ++ findall O None post.
Proof.
  intros Hpre Hne Hall Hpost.
  assert (Hrun : forall prev, findall O prev (run ++ post)
                              = [run] ++ findall O None post).
  { intros prev. rewrite findall_app by (done || lia).
    rewrite findall_run by done. f_equal. by apply findall_prev_nonword. }
  destruct (last pre) as [c|] eqn:Hlast.
  - apply last_Some in Hlast as [pre' ->]. simpl in Hpre.
    rewrite <- !app_assoc. simpl.
    rewrite (findall_app pre' (c :: run ++ post)) by (done || lia).
    rewrite (findall_app pre' [c]) by (done || lia).
    rewrite !findall_nonword by done. rewrite Hrun, findall_nil.
    by rewrite app_nil_r, <- !app_assoc.
  - apply last_None in Hlast as ->. simpl. apply Hrun.
Qed.

Lemma _tokenize_query_around_run pre run post :
  is_word_opt (last pre) = false -> run <> [] -> forallb is_word run = true ->
  is_word_opt (head post) = false ->
  _tokenize_query (pre ++ run ++ post)
  = _tokenize_query pre ++ [normalize run] ++ _tokenize_query post.
Proof.
  intros. unfold _tokenize_query. rewrite findall_around_run by done.
  by rewrite !map_app.
Qed.

End TokenizerFacts.

(** *** Operator keywords *)

(** [run] is [kw] up to the case of its letters. *)
Definition ci_equal (kw run : str) : Prop :=
  Forall2 (fun p c => ci_match p c = true) kw run.

Lemma ci_equal_normalize `{UnicodeData} (kw run : str) :
  kw ∈ [AND; OR; NOT] -> ci_equal kw run ->
  run <> [] /\ forallb is_word run = true /\ normalize run = kw.
Proof.
  intros Hkw Hci. unfold ci_equal in Hci.
  repeat (apply elem_of_cons in Hkw as [-> | Hkw]); [| | |by apply elem_of_nil in Hkw].
  1: change AND with [65; 78; 68]%N in Hci.
  2: change OR with [79; 82]%N in Hci.
  3: change NOT with [78; 79; 84]%N in Hci.
  all: repeat match goal with
       | Hf : Forall2 _ (_ :: _) _ |- _ =>
           apply Forall2_cons_inv_l in Hf as (? & ? & ?%ci_match_cases & Hf & ->);
           [|reflexivity]
       | Hf : Forall2 _ [] _ |- _ => apply Forall2_nil_inv_l in Hf as ->
       end.
  all: repeat match goal with Hc : _ \/ _ |- _ => destruct Hc as [-> | ->] end.
  all: split_and!; [done | reflexivity | vm_compute; reflexivity].
Qed.

(** C10. A maximal run of word characters that is [and], [or] or [not]
    in any case becomes the operator token, whatever surrounds it, and
    the evaluator executes that token as the operator: its effect does
    not depend on the index or the lemma groups, so the word is never
    looked up as a term. *)
Theorem operator_keywords_shadow_literals `{UnicodeData} (pre run post kw : str) :
  kw ∈ [AND; OR; NOT] ->
  ci_equal kw run ->
  is_word_opt (last pre) = false ->
  is_word_opt (head post) = false ->
  _tokenize_query (pre ++ run ++ post)
    = _tokenize_query pre ++ [kw] ++ _tokenize_query post
  /\ is_operator kw = true
  /\ forall (self self' : SearchEngine) (stack : list value),
       htmls self = htmls self' ->
       eval_step self stack kw = eval_step self' stack kw.
Proof.
  intros Hkw Hci Hpre Hpost.
  destruct (ci_equal_normalize kw run Hkw Hci) as (Hne & Hall & Hnorm).
  assert (Hop : is_operator kw = true) by (unfold is_operator; by apply bool_decide_eq_true).
  split_and!; [|done|].
  - rewrite _tokenize_query_around_run by done. by rewrite Hnorm.
  - intros self self' stack Hhtmls. unfold eval_step. by rewrite Hop, Hhtmls.
Qed.

Lemma operator_keywords_shadow_literals_witness :
  @_tokenize_query Cyrillic.table
     ((Cyrillic.kot ++ lit " ") ++ lit "aNd" ++ (lit " " ++ Cyrillic.pyos))
    = @_tokenize_query Cyrillic.table (Cyrillic.kot ++ lit " ") ++ [AND]
      ++ @_tokenize_query Cyrillic.table (lit " " ++ Cyrillic.pyos)
  /\ is_operator AND = true
  /\ forall (self self' : SearchEngine) (stack : list value),
       htmls self = htmls self' ->
       eval_step self stack AND = eval_step self' stack AND.
Proof.
  apply (@operator_keywords_shadow_literals Cyrillic.table
           (Cyrillic.kot ++ lit " ") (lit "aNd") (lit " " ++ Cyrillic.pyos) AND).
  - left.
  - repeat constructor.
  - reflexivity.
  - reflexivity.
Defined.

(** The tokens of the witness: кот aNd пёс. *)
Example keyword_in_context :
  @_tokenize_query Cyrillic.table
     ((Cyrillic.kot ++ lit " ") ++ lit "aNd" ++ (lit " " ++ Cyrillic.pyos))
  = [Cyrillic.kot; AND; Cyrillic.pyos].
Proof. by_evaluation. Qed.

(** *** Malformed queries *)

Lemma precedence_None (t : str) : t ∉ [AND; OR; NOT] -> precedence t = None.
Proof.
  rewrite !not_elem_of_cons. intros (Ha & Ho & Hn & _). unfold precedence.
  by rewrite !bool_decide_eq_false_2.
Qed.

Lemma is_operator_false (t : str) : t ∉ [AND; OR; NOT] -> is_operator t = false.
Proof. intros Ht. unfold is_operator. by apply bool_decide_eq_false. Qed.

(** A literal term: a token that is neither an operator nor a
    parenthesis. *)
Definition literal (t : str) : Prop := t ∉ [AND; OR; NOT; LPAREN; RPAREN].

Lemma literal_spec (t : str) :
  literal t -> (t ∉ [AND; OR; NOT]) /\ t <> LPAREN /\ t <> RPAREN.
Proof. unfold literal. rewrite !not_elem_of_cons. tauto. Qed.

Lemma postfix_step_literal (output_queue operator_stack : list str) (t : str) :
  literal t ->
  postfix_step (output_queue, operator_stack) t = (output_queue ++ [t], operator_stack).
Proof.
  intros (Hop & Hl & Hr)%literal_spec. unfold postfix_step.
  rewrite precedence_None by done. by rewrite !bool_decide_eq_false_2.
Qed.




(** Programs that break each of the three rules, and one that keeps
    them. *)
Example malformed_programs :
  evaluate one_page [NOT] = Raise (ValueError NotNeedsOperand)
  /\ evaluate one_page [Cyrillic.kot; OR] = Raise (ValueError BinaryNeedsOperands)
  /\ evaluate one_page [Cyrillic.kot; Cyrillic.kot] = Raise (ValueError BadStructure)
  /\ evaluate one_page [] = Raise (ValueError BadStructure)
  /\ evaluate one_page [Cyrillic.kot; NOT] = Ok [].
Proof. split_and!; by_evaluation. Qed.

(** *** The result list *)

Lemma sorted_ascending (s : gset Z) :
  StronglySorted Z.le (sorted s) /\ (forall idx, idx ∈ sorted s <-> idx ∈ s).
Proof.
  unfold sorted. split.
  - apply StronglySorted_merge_sort; apply _.
  - intros idx. rewrite merge_sort_Permutation. apply elem_of_elements.
Qed.

(** What line 126 returns: one entry for every id of the surviving set,
    in ascending order of the ids, [None] for an id without an entry in
    the document table. *)
Lemma paths_spec (self : SearchEngine) (s : gset Z) :
  paths self s = map (fun idx => htmls self !! idx) (sorted s)
  /\ length (paths self s) = size s.
Proof.
  split; [done|]. unfold paths, sorted.
  rewrite length_map, merge_sort_Permutation. done.
Qed.

(** C7 does not hold of the code.  The index lists document 2 under
    кот and there is no [2.html]: the query кот returns the path of
    document 1 and then [None]; nothing is dropped. *)
Theorem missing_table_entry_is_returned_as_none :
  @process_query Cyrillic.table one_page Cyrillic.kot = Ok [Some (lit "1.html"); None]
  /\ length (paths one_page {[1; 2]}) = 2%nat.
Proof. split; by_evaluation. Qed.

(** ** The conversion to postfix inside parentheses *)

(** The tokens close every parenthesis they open, and no other, when
    [depth] parentheses are open before them. *)
Fixpoint balanced (depth : nat) (tokens : list str) : bool :=
  match tokens with
  | [] => Nat.eqb depth 0
  | t :: rest =>
      if bool_decide (t = LPAREN) then balanced (S depth) rest
      else if bool_decide (t = RPAREN)
           then match depth with
                | O => false
                | S depth' => balanced depth' rest
                end
           else balanced depth rest
  end.

(** The open parentheses on the operator stack. *)
Definition open_parens (operator_stack : list str) : nat :=
  length (filter (fun t => t = LPAREN) operator_stack).

(** A query that stands for one operand: a literal term, or a balanced
    query in parentheses. *)
Definition atom (tokens : list str) : Prop :=
  (exists t, tokens = [t] /\ literal t)
  \/ (exists inner, tokens = LPAREN :: inner ++ [RPAREN] /\ balanced 0 inner = true).

Section PostfixFacts.
Variables (out0 st0 : list str).

Lemma pop_operators_frame (p : Z) (loc : list str) : forall out,
  exists out' loc',
    pop_operators p out loc = (out', loc')
    /\ pop_operators p (out0 ++ out) (loc ++ LPAREN :: st0)
       = (out0 ++ out', loc' ++ LPAREN :: st0)
    /\ open_parens loc' = open_parens loc.
Proof.
  induction loc as [|top loc IH]; intros out.
  - by exists out, [].
  - simpl. destruct (bool_decide (top <> LPAREN) && (p <=? default 0 (precedence top)))
      eqn:Hc.
    + destruct (IH (out ++ [top])) as (out' & loc' & H1 & H2 & H3).
      exists out', loc'. rewrite H1, <- app_assoc in *. split_and!; [done | done |].
      rewrite H3. unfold open_parens. rewrite filter_cons.
      apply andb_true_iff in Hc as [Hne%bool_decide_eq_true _].
      by rewrite decide_False.
    + by exists out, (top :: loc).
Qed.

Lemma close_paren_frame (loc : list str) : forall out,
  (0 < open_parens loc)%nat ->
  exists out' loc',
    close_paren out loc = (out', loc')
    /\ close_paren (out0 ++ out) (loc ++ LPAREN :: st0)
       = (out0 ++ out', loc' ++ LPAREN :: st0)
    /\ S (open_parens loc') = open_parens loc.
Proof.
  induction loc as [|top loc IH]; intros out Hopen.
  - unfold open_parens in Hopen. rewrite filter_nil in Hopen. simpl in Hopen. lia.
  - simpl. unfold open_parens in Hopen |- *. rewrite filter_cons in Hopen |- *.
    destruct (decide (top = LPAREN)) as [->|Hne].
    + rewrite bool_decide_eq_true_2 by done. by exists out, loc.
    + rewrite bool_decide_eq_false_2 by done.
      destruct (IH (out ++ [top]) Hopen) as (out' & loc' & H1 & H2 & H3).
      exists out', loc'. by rewrite H1, <- app_assoc in *.
Qed.

Lemma close_paren_no_open (loc : list str) : forall out,
  open_parens loc = O ->
  close_paren out (loc ++ LPAREN :: st0) = (out ++ loc, st0).
Proof.
  induction loc as [|top loc IH]; intros out Hopen; simpl.
  - by rewrite app_nil_r.
  - unfold open_parens in Hopen. rewrite filter_cons in Hopen.
    destruct (decide (top = LPAREN)) as [->|Hne]; [done|].
    rewrite bool_decide_eq_false_2 by done.
    rewrite IH by done. by rewrite <- app_assoc.
Qed.

Lemma precedence_Some_not_paren (t : str) (p : Z) :
  precedence t = Some p -> t <> LPAREN /\ t <> RPAREN.
Proof.
  unfold precedence. repeat case_bool_decide; try done; subst; intros _; done.
Qed.

(** The parentheses open after a token. *)
Definition depth_after (t : str) (depth : nat) : nat :=
  if bool_decide (t = LPAREN) then S depth
  else if bool_decide (t = RPAREN) then pred depth
  else depth.

(** Below an open parenthesis one round does not look at, or change,
    what is under the parenthesis. *)
Lemma postfix_step_frame (t : str) (out loc : list str) :
  (t = RPAREN -> (0 < open_parens loc)%nat) ->
  exists out' loc',
    postfix_step (out, loc) t = (out', loc')
    /\ postfix_step (out0 ++ out, loc ++ LPAREN :: st0) t
       = (out0 ++ out', loc' ++ LPAREN :: st0)
    /\ open_parens loc' = depth_after t (open_parens loc).
Proof.
  intros Hclose. unfold postfix_step, depth_after.
  destruct (precedence t) as [p|] eqn:Hp.
  - destruct (precedence_Some_not_paren t p Hp) as [Hl Hr].
    rewrite !bool_decide_eq_false_2 by done.
    destruct (pop_operators_frame p loc out) as (out' & loc' & H1 & H2 & H3).
    rewrite H1, H2. exists out', (t :: loc'). split_and!; [done | done |].
    unfold open_parens. rewrite filter_cons, decide_False by done.
    fold (open_parens loc'). by rewrite H3.
  - destruct (decide (t = LPAREN)) as [->|Hl].
    + rewrite !bool_decide_eq_true_2 by done.
      exists out, (LPAREN :: loc). split_and!; [done | done |].
      unfold open_parens. by rewrite filter_cons, decide_True by done.
    + rewrite !(bool_decide_eq_false_2 (t = LPAREN)) by done.
      destruct (decide (t = RPAREN)) as [->|Hr].
      * rewrite !bool_decide_eq_true_2 by done.
        destruct (close_paren_frame loc out) as (out' & loc' & H1 & H2 & H3); [auto|].
        exists out', loc'. split_and!; [done | done | lia].
      * rewrite !bool_decide_eq_false_2 by done.
        exists (out ++ [t]), loc. by rewrite <- app_assoc.
Qed.

Lemma balanced_cons (t : str) (rest : list str) (depth : nat) :
  balanced depth (t :: rest) = true ->
  (t = RPAREN -> (0 < depth)%nat) /\ balanced (depth_after t depth) rest = true.
Proof.
  simpl. unfold depth_after.
  destruct (decide (t = LPAREN)) as [->|Hl].
  - rewrite !bool_decide_eq_true_2 by done. split; [discriminate | done].
  - rewrite !(bool_decide_eq_false_2 (t = LPAREN)) by done.
    destruct (decide (t = RPAREN)) as [->|Hr].
    + rewrite !bool_decide_eq_true_2 by done.
      destruct depth; [done|]. split; [lia | done].
    + rewrite !bool_decide_eq_false_2 by done. done.
Qed.

Lemma postfix_frame (tokens : list str) : forall out loc,
  balanced (open_parens loc) tokens = true ->
  exists out' loc',
    fold_left postfix_step tokens (out, loc) = (out', loc')
    /\ fold_left postfix_step tokens (out0 ++ out, loc ++ LPAREN :: st0)
       = (out0 ++ out', loc' ++ LPAREN :: st0)
    /\ open_parens loc' = O.
Proof.
  induction tokens as [|t rest IH]; intros out loc Hbal.
  - exists out, loc. split_and!; [done | done |]. by apply Nat.eqb_eq.
  - apply balanced_cons in Hbal as [Hclose Hbal].
    destruct (postfix_step_frame t out loc Hclose) as (out1 & loc1 & H1 & H2 & H3).
    cbn [fold_left]. rewrite H1, H2. apply IH. by rewrite H3.
Qed.

(** A balanced query in parentheses adds its own postfix form to the
    output and leaves the operator stack as it found it. *)
Lemma postfix_parenthesized (inner : list str) :
  balanced 0 inner = true ->
  fold_left postfix_step (LPAREN :: inner ++ [RPAREN]) (out0, st0)
  = (out0 ++ _to_postfix inner, st0).
Proof.
  intros Hbal. simpl fold_left. rewrite fold_left_app.
  change (postfix_step (out0, st0) LPAREN) with (out0, LPAREN :: st0).
  destruct (postfix_frame inner [] [] Hbal) as (out' & loc' & H1 & H2 & H3).
  simpl in H2. rewrite app_nil_r in H2. rewrite H2. simpl.
  unfold postfix_step.
  change (precedence RPAREN) with (@None Z).
  change (bool_decide (RPAREN = LPAREN)) with false.
  change (bool_decide (RPAREN = RPAREN)) with true. cbv iota.
  rewrite close_paren_no_open by done.
  unfold _to_postfix. rewrite H1. by rewrite app_assoc.
Qed.

End PostfixFacts.

Lemma atom_postfix (tokens : list str) :
  atom tokens ->
  forall out0 st0,
    fold_left postfix_step tokens (out0, st0) = (out0 ++ _to_postfix tokens, st0).
Proof.
  intros [(t & -> & Ht)|(inner & -> & Hbal)] out0 st0.
  - unfold _to_postfix. cbn [fold_left]. rewrite !postfix_step_literal by done.
    by rewrite app_nil_r.
  - rewrite postfix_parenthesized by done.
    assert (_to_postfix (LPAREN :: inner ++ [RPAREN]) = _to_postfix inner) as ->; [|done].
    unfold _to_postfix at 1. rewrite (postfix_parenthesized [] []) by done.
    by rewrite app_nil_r.
Qed.

(** The postfix form of [NOT ( NOT q )] for an operand [q]. *)
Lemma _to_postfix_double_negation (tokens : list str) :
  atom tokens ->
  _to_postfix ([NOT; LPAREN; NOT] ++ tokens ++ [RPAREN])
  = _to_postfix tokens ++ [NOT; NOT].
Proof.
  intros Hatom. unfold _to_postfix at 1. rewrite !fold_left_app.
  change (fold_left postfix_step [NOT; LPAREN; NOT] ([], []))
    with (([] : list str), [NOT; LPAREN; NOT]).
  rewrite atom_postfix by done.
  change (fold_left postfix_step [RPAREN] ([] ++ _to_postfix tokens, [NOT; LPAREN; NOT]))
    with ((_to_postfix tokens ++ [NOT]), [NOT]).
  cbv beta iota. by rewrite <- app_assoc.
Qed.

(** ** Double negation *)

(** The tokens of the query [NOT (NOT q)]. *)
Lemma _tokenize_query_double_negation `{UnicodeData} (q : str) :
  _tokenize_query (lit "NOT (NOT " ++ q ++ lit ")")
  = [NOT; LPAREN; NOT] ++ _tokenize_query q ++ [RPAREN].
Proof.
  unfold _tokenize_query.
  change (lit "NOT (NOT " ++ q ++ lit ")")
    with (lit "NOT (NOT" ++ 32%N :: q ++ [41%N]).
  rewrite findall_app by (reflexivity || (simpl; lia)).
  rewrite findall_nonword by reflexivity.
  rewrite (findall_app q [41%N]) by (reflexivity || lia).
  rewrite (findall_nonword _ 41%N []) by reflexivity.
  rewrite (findall_prev (Some 32%N) None q) by reflexivity.
  rewrite !map_app. reflexivity.
Qed.

Lemma evaluate_set_Ok (self : SearchEngine) (postfix : list str) (S : gset Z) :
  evaluate_set self postfix = Ok S <-> eval_loop self postfix [] = Ok [Some S].
Proof.
  unfold evaluate_set. destruct (eval_loop self postfix []) as [stack|e]; simpl.
  - destruct stack as [|[s|] [|v stack]]; simpl; split; intros Heq;
      try discriminate; congruence.
  - split; discriminate.
Qed.

(** C5, as the code has it.  For a query [q] that is one operand (a
    literal term, or a balanced query in parentheses) and evaluates to
    the set [S], the query [NOT (NOT q)] evaluates to the ids of [S]
    that are in the document table; that is [S] itself exactly when
    [S] has only ids of the document table. *)
Theorem double_negation_within_table `{UnicodeData} (self : SearchEngine) (q : str)
    (S : gset Z) :
  atom (_tokenize_query q) ->
  query_set self q = Ok S ->
  query_set self (lit "NOT (NOT " ++ q ++ lit ")") = Ok (dom (htmls self) ∩ S)
  /\ (query_set self (lit "NOT (NOT " ++ q ++ lit ")") = Ok S <->
      S ⊆ dom (htmls self)).
Proof.
  intros Hatom Hq. unfold query_set in *.
  assert (Hnn : evaluate_set self
                  (_to_postfix (_tokenize_query (lit "NOT (NOT " ++ q ++ lit ")")))
                = Ok (dom (htmls self) ∩ S)).
  { rewrite _tokenize_query_double_negation, _to_postfix_double_negation by done.
    apply evaluate_set_Ok. apply evaluate_set_Ok in Hq.
    rewrite eval_loop_app, Hq.
    assert (Hloop : eval_loop self [NOT; NOT] [Some S]
                    = Ok [Some (dom (htmls self) ∖ (dom (htmls self) ∖ S))])
      by reflexivity.
    rewrite Hloop. do 3 f_equal. apply set_eq. intros x.
    rewrite !elem_of_difference, elem_of_intersection.
    destruct (decide (x ∈ S)); tauto. }
  split; [done|]. rewrite Hnn. split.
  - intros [= Heq] x Hx. rewrite <- Heq in Hx.
    by apply elem_of_intersection in Hx as [? _].
  - intros Hsub. f_equal. apply set_eq. intros x.
    rewrite elem_of_intersection. split; [tauto|].
    intros Hx. split; [by apply Hsub | done].
Qed.

Lemma double_negation_within_table_witness :
  @query_set Cyrillic.table one_page (lit "NOT (NOT " ++ Cyrillic.kot ++ lit ")")
    = Ok (dom (htmls one_page) ∩ {[1; 2]})
  /\ (@query_set Cyrillic.table one_page (lit "NOT (NOT " ++ Cyrillic.kot ++ lit ")")
      = Ok {[1; 2]} <->
      ({[1; 2]} : gset Z) ⊆ dom (htmls one_page)).
Proof.
  apply (@double_negation_within_table Cyrillic.table one_page Cyrillic.kot {[1; 2]}).
  - left. exists Cyrillic.kot. split; [reflexivity|].
    unfold literal. rewrite !not_elem_of_cons. split_and!; try discriminate.
    apply not_elem_of_nil.
  - by_evaluation.
Defined.

(** C5 fails as stated: кот evaluates to [{1, 2}] and its double
    negation to [{1}], because document 2 is not in the document
    table. *)
Lemma double_negation_loses_ids :
  @query_set Cyrillic.table one_page Cyrillic.kot = Ok {[1; 2]}
  /\ @query_set Cyrillic.table one_page (lit "NOT (NOT " ++ Cyrillic.kot ++ lit ")")
     = Ok {[1]}
  /\ @process_query Cyrillic.table one_page Cyrillic.kot
     = Ok [Some (lit "1.html"); None]
  /\ @process_query Cyrillic.table one_page (lit "NOT (NOT " ++ Cyrillic.kot ++ lit ")")
     = Ok [Some (lit "1.html")].
Proof. split_and!; by_evaluation. Qed.

(** The same query without the parentheses of the inner negation is
    malformed for this parser: the second [NOT] pops the first. *)
Example not_not_is_malformed :
  _to_postfix [NOT; NOT; lit "a"] = [NOT; lit "a"; NOT]
  /\ @process_query Cyrillic.table one_page (lit "NOT NOT " ++ Cyrillic.kot)
     = Raise (ValueError NotNeedsOperand).
Proof. split; by_evaluation. Qed.

(** * Further properties of the two programs *)

(** ** UTF-8 read back *)

(** Linear arithmetic with division and remainder by constants. *)
Ltac div_lia := zify; Z.to_euclidean_division_equations; lia.

(** Settle the comparisons of the goal by arithmetic. *)
Ltac settle_comparisons :=
  repeat match goal with
  | |- context [(?a <? ?b)%N] =>
      first [ replace (a <? b)%N with true by (symmetry; apply N.ltb_lt; div_lia)
            | replace (a <? b)%N with false by (symmetry; apply N.ltb_ge; div_lia) ]
  | |- context [(?a <=? ?b)%N] =>
      first [ replace (a <=? b)%N with true by (symmetry; apply N.leb_le; div_lia)
            | replace (a <=? b)%N with false by (symmetry; apply N.leb_gt; div_lia) ]
  end.

Lemma utf8_decode_encode_char (c : N) (b rest : bytes) :
  utf8_encode_char c = Some b ->
  utf8_decode (b ++ rest) = cons c <$> utf8_decode rest.
Proof.
  unfold utf8_encode_char, between.
  destruct (N.ltb_spec c 128) as [H1|H1].
  { intros [= <-]. cbn [app utf8_decode]. by settle_comparisons. }
  destruct (N.ltb_spec c 2048) as [H2|H2].
  { intros [= <-]. cbn [app utf8_decode]. unfold continuation, between.
    settle_comparisons. cbn [andb negb]. do 2 f_equal. div_lia. }
  destruct (N.ltb_spec c 65536) as [H3|H3].
  { destruct (N.leb_spec 55296 c) as [H4|H4]; cbn [andb];
      [destruct (N.leb_spec c 57343) as [H5|H5]; [done|]|];
      intros [= <-]; cbn [app utf8_decode]; unfold continuation, between;
      cbv zeta; settle_comparisons; cbn [andb negb]; do 2 f_equal; div_lia. }
  destruct (N.ltb_spec c 1114112) as [H4|H4]; [|done].
  intros [= <-]. cbn [app utf8_decode]. unfold continuation, between.
  cbv zeta. settle_comparisons. cbn [andb negb]. do 2 f_equal. div_lia.
Qed.

Lemma utf8_decode_encode (s : str) : forall (b rest : bytes),
  utf8_encode s = Some b ->
  utf8_decode (b ++ rest) = app s <$> utf8_decode rest.
Proof.
  induction s as [|c s IH]; intros b rest; cbn [utf8_encode].
  - intros [= <-]. cbn. by destruct (utf8_decode rest).
  - destruct (utf8_encode_char c) as [bc|] eqn:Hc; [|done].
    destruct (utf8_encode s) as [bs|] eqn:Hs; [|done]. intros [= <-].
    rewrite <- app_assoc, (utf8_decode_encode_char _ _ _ Hc), (IH _ _ eq_refl).
    by destruct (utf8_decode rest).
Qed.

(** What UTF-8 wrote line by line is read as the lines, one after the
    other. *)
Lemma utf8_decode_lines (lines : list str) (chunks : list bytes) :
  Forall2 (fun line chunk => utf8_encode line = Some chunk) lines chunks ->
  utf8_decode (concat chunks) = Some (concat lines).
Proof.
  induction 1 as [|line chunk lines chunks Hl Hall IH]; [reflexivity|].
  cbn [concat]. by rewrite (utf8_decode_encode _ _ _ Hl), IH.
Qed.

(** ** The builder on every input, and its output read back *)

(** The ids of a built index are numbers of lemma files. *)
Lemma build_index_ids `{UnicodeData} (dir : directory) (index : list (str * list Z))
    (P : Z -> Prop) :
  build_index dir = Ok index ->
  Forall (fun item => P item.1) (get_lemmas_file_paths (map fst dir) []) ->
  Forall (fun entry => Forall P entry.2) index.
Proof.
  intros Hb Hitems. destruct (build_index_postings _ _ Hb) as (_ & Hnd & _ & _ & Hpost).
  apply Forall_forall. intros [L ids] Hin. cbn [snd]. apply Forall_forall. intros d Hd.
  pose proof (dict_get_elem_NoDup _ _ _ Hnd Hin) as Hget.
  pose proof (Hpost L) as HL. unfold postings in HL. rewrite Hget in HL. cbn in HL.
  rewrite HL in Hd. apply elem_of_contributions in Hd as (path & Hitem & _).
  rewrite Forall_forall in Hitems. exact (Hitems _ Hitem).
Qed.

Section ReadBack.
Context `{UnicodeData} `{Platform}.

(** What the loader makes of the file of a built index, on a platform
    that writes UTF-8 and lets the file be opened. *)
Lemma load_built_index (dir : directory) (index : list (str * list Z))
    (fs : files) (p : Path) (chunks : list bytes) :
  build_index dir = Ok index ->
  Forall (fun item => readable item.1) (get_lemmas_file_paths (map fst dir) []) ->
  (forall s, text_encode s = utf8_encode s) ->
  refuses (OpenRead p) = false ->
  p <> [] ->
  fs !! p = Some (File (concat chunks)) ->
  Forall2 (fun entry chunk => text_encode (index_line entry) = Some chunk) index chunks ->
  _load_inverted_index fs p = Ok (as_map index ∅).
Proof.
  intros Hb Hread Hutf8 Hopen Hne Hp Hall.
  pose proof (build_index_keys _ _ Hb) as Hkeys.
  pose proof (build_index_ids _ _ _ Hb Hread) as Hids.
  assert (Hwords : Forall (fun entry : str * list Z => word entry.1) index).
  { eapply Forall_impl; [exact Hkeys|]. by intros e [? _]. }
  assert (Hdec : utf8_decode (concat chunks) = Some (serialize index)).
  { apply utf8_decode_lines. apply Forall2_fmap_l.
    eapply Forall2_impl; [exact Hall|]. intros entry chunk Henc. cbn.
    by rewrite <- Hutf8. }
  unfold _load_inverted_index, read_lines.
  rewrite (stat_Some_lookup _ _ _ Hp Hne), Hopen, Hdec. cbn.
  rewrite readlines_text_serialize by done.
  apply load_index_lines_serialized. apply Forall_forall. intros entry Hin.
  rewrite Forall_forall in Hwords, Hids. split; [by apply Hwords | by apply Hids].
Qed.

End ReadBack.

(** X1. The loader reads back what the builder wrote: on a platform
    that writes text as UTF-8 and lets the file be opened, and for
    document numbers within the limit on digits, after a successful
    build [_load_inverted_index] of the reported path succeeds, and it
    maps every lemma of the built index to the set of the ids on its
    line, and no other word to anything. *)
Theorem index_file_round_trip `{UnicodeData} `{Platform} (dir : directory)
    (output : Path) (fs fs' : files) (res : ProcessingResult) :
  process_lemmas_directory dir output fs = Some (res, fs') ->
  error_ res = None ->
  (forall s, text_encode s = utf8_encode s) ->
  (forall p, refuses (OpenRead p) = false) ->
  Forall (fun item => readable item.1) (get_lemmas_file_paths (map fst dir) []) ->
  exists resolved index loaded,
    file_path res = Some resolved
    /\ holds_index fs' resolved index
    /\ build_index dir = Ok index
    /\ _load_inverted_index fs' resolved = Ok loaded
    /\ forall L : str,
         loaded !! L = (list_to_set <$> dict_get L index)
         /\ forall d : Z, d ∈ default ∅ (loaded !! L) <-> d ∈ postings L index.
Proof.
  intros Hrun Hok Hutf8 Hopen Hread.
  destruct (process_success _ _ _ _ _ Hrun Hok)
    as (resolved & index & chunks & Hb & _ & Hfree & Hpath & Hfile & Hall & Hholds & _).
  destruct (build_index_postings _ _ Hb) as (_ & Hnd & _ & _ & _).
  apply stat_None in Hfree as [Hne _].
  exists resolved, index, (as_map index ∅). split_and!; [done | done | done | |].
  - by eapply load_built_index.
  - intros L. rewrite as_map_lookup by done. unfold postings.
    destruct (dict_get L index) as [ids|]; cbn.
    + split; [done|]. intros d. apply elem_of_list_to_set.
    + split; [apply lookup_empty|]. intros d. rewrite elem_of_nil. set_solver.
Qed.

Lemma index_file_round_trip_witness :
  exists resolved index loaded,
    Some index_txt = Some resolved
    /\ @holds_index Posix.platform (built two_docs_text) resolved index
    /\ @build_index Cyrillic.table two_docs = Ok index
    /\ @_load_inverted_index Cyrillic.table Posix.platform (built two_docs_text)
         resolved = Ok loaded
    /\ forall L : str,
         loaded !! L = (list_to_set <$> dict_get L index)
         /\ forall d : Z, d ∈ default ∅ (loaded !! L) <-> d ∈ postings L index.
Proof.
  apply (@index_file_round_trip Cyrillic.table Posix.platform two_docs index_txt ∅
           (built two_docs_text)
           {| file_path := Some index_txt; error_ := None |}).
  - by_evaluation.
  - reflexivity.
  - reflexivity.
  - reflexivity.
  - repeat constructor.
Defined.

Lemma get_lemmas_file_paths_nil `{UnicodeData} (listing : list str) (acc : list (Z * str)) :
  get_lemmas_file_paths listing acc = [] <->
  acc = [] /\ Forall (fun filename => match_lemma_filename filename = None) listing.
Proof.
  revert acc. induction listing as [|f listing IH]; intros acc; simpl.
  - split; [by intros -> | by intros [-> _]].
  - destruct (match_lemma_filename f) as [n|] eqn:Hf.
    + rewrite IH. split.
      * intros [Hset _]. exfalso. destruct acc as [|[k v] acc]; simpl in Hset; [done|].
        by destruct (decide (n = k)).
      * intros [_ Hall]. apply Forall_cons in Hall as [Hf' _]. congruence.
    + rewrite IH. split; intros [-> Hall]; split; try done.
      * by constructor.
      * by apply Forall_cons in Hall as [_ ?].
Qed.

(** Only a name that matches can have a number beyond the limit. *)
Lemma lemma_number_raises_matches `{UnicodeData} `{Platform} (dir : directory) :
  existsb lemma_number_raises (map fst dir) = true ->
  exists entry, entry ∈ dir /\ is_Some (match_lemma_filename entry.1).
Proof.
  intros (f & Hin & Hf)%existsb_exists. apply in_map_iff in Hin as (entry & <- & Hin).
  exists entry. split; [by apply list_elem_of_In|].
  unfold lemma_number_raises in Hf. by destruct (match_lemma_filename entry.1).
Qed.

(** X2. Without a file named [lemmas_<digits>.txt] in the directory
    the builder reports the empty-input error and touches no file, and
    that is the only case in which it reports this error. *)
Theorem empty_input_writes_nothing `{UnicodeData} `{Platform} (dir : directory)
    (output : Path) (fs : files) :
  Forall (fun entry => match_lemma_filename entry.1 = None) dir <->
  process_lemmas_directory dir output fs
  = Some ({| file_path := None; error_ := Some EmptyInput |}, fs).
Proof.
  unfold process_lemmas_directory.
  pose proof (lemma_number_raises_matches dir) as Hlimit.
  destruct (existsb lemma_number_raises (map fst dir)).
  { split; [|done]. intros Hall. exfalso.
    destruct (Hlimit eq_refl) as (entry & Hin & [n Hn]).
    rewrite Forall_forall in Hall. rewrite (Hall _ Hin) in Hn. discriminate. }
  clear Hlimit.
  pose proof (get_lemmas_file_paths_nil (map fst dir) []) as Hnil.
  destruct (get_lemmas_file_paths (map fst dir) []) as [|item items].
  - split; [done|]. intros _. apply Forall_forall. intros entry Hin.
    destruct (proj1 Hnil eq_refl) as [_ Hall]. rewrite Forall_forall in Hall.
    apply Hall. apply list_elem_of_In, in_map. by apply list_elem_of_In.
  - split.
    + intros Hall. exfalso. assert (Hcontra : item :: items = []); [|discriminate].
      apply Hnil. split; [done|]. apply Forall_forall. intros f Hin.
      apply list_elem_of_In, in_map_iff in Hin as (entry & <- & Hin).
      rewrite Forall_forall in Hall. by apply Hall, list_elem_of_In.
    + destruct (resolve_output fs output) as [resolved|]; [|done].
      destruct (index_files dir (item :: items) []) as [index|e]; [|done].
      by destruct (write_index fs resolved index) as [fs1 [e|]].
Qed.

Lemma first_column_blank (line : str) :
  Forall (fun c => isspace c = true) line -> first_column line = Raise IndexError.
Proof.
  intros Hall. unfold first_column, split_maxsplit1.
  assert (drop_while isspace line = []) as ->; [|done].
  induction Hall as [|c line Hc Hall IH]; simpl; [done | by rewrite Hc].
Qed.

(** One lemma file that cannot be read, or has a blank line. *)
Definition bad_file (dir : directory) (path : str) : Prop :=
  (forall lines, readlines dir path <> Ok lines)
  \/ (exists lines line,
        readlines dir path = Ok lines /\ line ∈ lines
        /\ Forall (fun c => isspace c = true) line).

Lemma bad_file_raises (dir : directory) (path : str) :
  bad_file dir path -> forall lemmas, get_lemmas_from_lemma_file dir path <> Ok lemmas.
Proof.
  intros Hbad lemmas Hok. apply file_lemmas_lines in Hok as (lines & Hread & Hall).
  destruct Hbad as [Hno|(lines' & line & Hread' & Hin & Hblank)]; [by apply (Hno lines)|].
  assert (lines' = lines) as -> by congruence.
  apply list_elem_of_lookup in Hin as [i Hi].
  destruct (Forall2_lookup_l _ _ _ _ _ Hall Hi) as (w & _ & Hw).
  rewrite first_column_blank in Hw by done. discriminate.
Qed.

(** X3. No partial output: when one of the indexed lemma files cannot
    be read, or has a line without a word, the builder reports the
    exception as its error and leaves the files as they were. *)
Theorem bad_lemma_file_writes_nothing `{UnicodeData} `{Platform} (dir : directory)
    (output : Path) (fs : files) (d : Z) (path : str) :
  dict_get d (get_lemmas_file_paths (map fst dir) []) = Some path ->
  bad_file dir path ->
  exists e,
    process_lemmas_directory dir output fs
    = Some ({| file_path := None; error_ := Some (Caught e) |}, fs).
Proof.
  intros Hget Hbad. unfold process_lemmas_directory.
  destruct (existsb lemma_number_raises (map fst dir)); [by eexists|].
  destruct (resolve_output_spec fs output) as (resolved & -> & _).
  destruct (get_lemmas_file_paths (map fst dir) []) as [|item items] eqn:Hitems;
    [done|].
  destruct (index_files dir (item :: items) []) as [index|e] eqn:Hidx; [|by exists e].
  exfalso. apply index_files_postings in Hidx as (_ & Hread & _).
  rewrite Forall_forall in Hread. apply dict_get_Some_elem in Hget.
  by apply (bad_file_raises dir path Hbad _ (Hread _ Hget)).
Qed.

(** A directory whose only lemma file has a blank second line. *)
Definition blank_line_dir : directory :=
  [ (lit "lemmas_1.txt", Some [Cyrillic.kot ++ [10%N]; [32%N; 10%N]]) ].

Lemma bad_lemma_file_writes_nothing_witness :
  exists e,
    @process_lemmas_directory Cyrillic.table Posix.platform blank_line_dir index_txt
      old_index
    = Some ({| file_path := None; error_ := Some (Caught e) |}, old_index).
Proof.
  apply (@bad_lemma_file_writes_nothing Cyrillic.table Posix.platform blank_line_dir
           index_txt old_index 1 (lit "lemmas_1.txt")).
  - reflexivity.
  - right. exists [Cyrillic.kot ++ [10%N]; [32%N; 10%N]], [32%N; 10%N].
    split_and!; [reflexivity | right; left | repeat constructor].
Defined.


(** A platform that refuses the second line of a file. *)
Definition second_line_refused : Platform := {|
  text_encode := utf8_encode;
  refuses := fun call => match call with WriteLine _ 1 => true | _ => false end;
  int_max_str_digits := 4300
|}.

(** On it the build of [two_docs] reports the error and leaves the
    directory [out] and a file with the first line. *)
Example refused_write_leaves_partial_file :
  @process_lemmas_directory Cyrillic.table second_line_refused two_docs index_txt ∅
  = Some ({| file_path := None; error_ := Some (Caught OSError) |},
          built (Cyrillic.kot ++ lit " 1" ++ [10%N])).
Proof. by_evaluation. Qed.

(** A platform whose locale encodes ASCII only. *)
Definition ascii_locale : Platform := {|
  text_encode := fun s => if forallb is_ascii s then Some s else None;
  refuses := fun _ => false;
  int_max_str_digits := 4300
|}.

(** On it a lemma outside ASCII stops the write: with [abc] in the
    document listed first and кот in the second, the build reports the
    error of the encoding and leaves the directory [out] and a file
    with the line of [abc]. *)
Example unencodable_line_leaves_partial_file :
  @process_lemmas_directory Cyrillic.table ascii_locale
     [ (lit "lemmas_2.txt", Some [lit "abc" ++ [10%N]]);
       (lit "lemmas_1.txt", Some [Cyrillic.kot ++ [10%N]]) ]
     index_txt ∅
  = Some ({| file_path := None; error_ := Some (Caught UnicodeEncodeError) |},
          {[ out := Dir; index_txt := File (lit "abc 2" ++ [10%N]) ]}).
Proof. by_evaluation. Qed.

(** When [out] is a regular file, nothing can be made below it: the
    build into [out/index.txt] reports the error of [mkdir] and
    changes nothing. *)
Example output_below_a_file :
  @process_lemmas_directory Cyrillic.table Posix.platform two_docs index_txt
    {[ out := File [] ]}
  = Some ({| file_path := None; error_ := Some (Caught FileExistsError) |},
          {[ out := File [] ]}).
Proof. by_evaluation. Qed.

(** ** File names and document ids *)

Section FileNameFacts.
Context `{UnicodeData}.

Lemma get_lemmas_file_paths_lookup (listing : list str) (acc : list (Z * str)) (n : Z) :
  dict_get n (get_lemmas_file_paths listing acc)
  = match last (filter (fun f => match_lemma_filename f = Some n) listing) with
    | Some f => Some f
    | None => dict_get n acc
    end.
Proof.
  revert acc. induction listing as [|f listing IH]; intros acc; [reflexivity|].
  cbn [get_lemmas_file_paths]. rewrite filter_cons.
  destruct (match_lemma_filename f) as [m|] eqn:Hf.
  - rewrite IH. destruct (decide (Some m = Some n)) as [[= ->]|Hne].
    + rewrite last_cons. destruct (last (filter _ listing)); [done|].
      apply dict_get_set_eq.
    + destruct (last (filter _ listing)); [done|].
      apply dict_get_set_ne. congruence.
  - rewrite IH. by rewrite decide_False.
Qed.

Lemma _load_htmls_lookup (listing : list str) (acc : gmap Z str) (n : Z) :
  _load_htmls listing acc !! n
  = match last (filter (fun f => match_html_filename f = Some n) listing) with
    | Some f => Some f
    | None => acc !! n
    end.
Proof.
  revert acc. induction listing as [|f listing IH]; intros acc; [reflexivity|].
  cbn [_load_htmls]. rewrite filter_cons.
  destruct (match_html_filename f) as [m|] eqn:Hf.
  - rewrite IH. destruct (decide (Some m = Some n)) as [[= ->]|Hne].
    + rewrite last_cons. destruct (last (filter _ listing)); [done|].
      apply lookup_insert_eq.
    + destruct (last (filter _ listing)); [done|].
      apply lookup_insert_ne. congruence.
  - rewrite IH. by rewrite decide_False.
Qed.

Lemma strip_prefix_app (pre s : str) : strip_prefix pre (pre ++ s) = Some s.
Proof. induction pre as [|c pre IH]; [done|]. simpl. by rewrite N.eqb_refl. Qed.

Lemma take_while_digits (ds tail : str) :
  forallb is_digit ds = true -> is_digit (default 0%N (head tail)) = false ->
  tail <> [] ->
  take_while is_digit (ds ++ tail) = ds /\ drop_while is_digit (ds ++ tail) = tail.
Proof.
  intros Hds Htail Hne. induction ds as [|c ds IH]; simpl in *.
  - destruct tail as [|c tail]; [done|]. simpl in *. by rewrite Htail.
  - apply andb_true_iff in Hds as [-> Hds]. destruct (IH Hds) as [-> ->]. done.
Qed.

Lemma chars_of_uint_is_digit (d : Decimal.uint) :
  forallb is_digit (chars_of_uint d) = true.
Proof.
  apply forallb_forall. intros c Hc. apply is_ascii_digit_is_digit.
  pose proof (chars_of_uint_digits d) as Hall. rewrite Forall_forall in Hall.
  by apply Hall, list_elem_of_In.
Qed.

End FileNameFacts.

(** X5. When several names of the lemma directory carry the same
    number (as [lemmas_1.txt] and [lemmas_01.txt] do), the file indexed
    for that number is the one that [os.listdir] gives last; a number
    that no name carries has no file. *)
Theorem last_listed_lemma_file_wins `{UnicodeData} (listing : list str) (n : Z) :
  dict_get n (get_lemmas_file_paths listing [])
  = last (filter (fun filename => match_lemma_filename filename = Some n) listing).
Proof.
  rewrite get_lemmas_file_paths_lookup. by destruct (last _).
Qed.

(** X6. The document table maps a number to the last listed file name
    of the form [<digits>.html] (a final newline allowed) whose digits
    read as that number, and holds nothing for other numbers. *)
Theorem html_table_lookup `{UnicodeData} (listing : list str) (n : Z) :
  _load_htmls listing ∅ !! n
  = last (filter (fun filename => match_html_filename filename = Some n) listing).
Proof.
  rewrite _load_htmls_lookup. destruct (last _); [done | apply lookup_empty].
Qed.

(** X7. Builder and loader number the documents alike: for every
    decimal numeral, zero-padded or not, [lemmas_<numeral>.txt] is the
    lemma file of, and [<numeral>.html] the page of, the number the
    numeral denotes. *)
Theorem file_numbers_agree `{UnicodeData} (d : Decimal.uint) :
  d <> Nil ->
  match_lemma_filename (lit "lemmas_" ++ chars_of_uint d ++ lit ".txt") = Some (Z.of_uint d)
  /\ match_html_filename (chars_of_uint d ++ lit ".html") = Some (Z.of_uint d).
Proof.
  intros Hd.
  assert (Hne : chars_of_uint d <> []) by (by destruct d).
  unfold match_lemma_filename, match_html_filename. rewrite strip_prefix_app.
  destruct (take_while_digits (chars_of_uint d) (lit ".txt")) as [-> ->];
    [apply chars_of_uint_is_digit | reflexivity | discriminate |].
  destruct (take_while_digits (chars_of_uint d) (lit ".html")) as [-> ->];
    [apply chars_of_uint_is_digit | reflexivity | discriminate |].
  rewrite !bool_decide_eq_true_2 by (by left).
  rewrite int_of_digits_value, digits_value_uint.
  by destruct (chars_of_uint d).
Qed.

Lemma file_numbers_agree_witness :
  @match_lemma_filename Cyrillic.table (lit "lemmas_" ++ lit "0012" ++ lit ".txt")
    = Some 12
  /\ @match_html_filename Cyrillic.table (lit "0012" ++ lit ".html") = Some 12.
Proof.
  apply (@file_numbers_agree Cyrillic.table (D0 (D0 (D1 (D2 Nil))))). discriminate.
Defined.

(** ** The lemma groups *)

(** The directory has a readable file with a line whose words are [L]
    followed by [words]. *)
Definition has_line (dir : directory) (L : str) (words : list str) : Prop :=
  exists name lines line,
    (name, Some lines) ∈ dir /\ line ∈ lines /\ str_split line = L :: words.

(** The tokens grouped under a lemma; none for a lemma without group. *)
Definition tokens_of (L : str) (groups : list (str * gset str)) : gset str :=
  default ∅ (dict_get L groups).

Lemma add_tokens_lookup (groups : list (str * gset str)) (lemma L : str)
    (tokens : gset str) :
  dict_get L (add_tokens groups lemma tokens)
  = if decide (lemma = L) then Some (tokens_of L groups ∪ tokens)
    else dict_get L groups.
Proof.
  unfold add_tokens, tokens_of. destruct (decide (lemma = L)) as [->|Hne].
  - destruct (dict_get L groups) as [known|]; rewrite dict_get_set_eq; cbn; [done|].
    by rewrite (left_id_L ∅ (∪)).
  - destruct (dict_get lemma groups); by rewrite dict_get_set_ne.
Qed.

Lemma add_tokens_NoDup (groups : list (str * gset str)) (lemma : str) (tokens : gset str) :
  NoDup groups.*1 -> NoDup (add_tokens groups lemma tokens).*1.
Proof. unfold add_tokens. destruct (dict_get lemma groups); apply dict_set_NoDup. Qed.

(** What the lines of one file add to the groups. *)
Lemma load_lemma_lines_spec (lines : list str) (groups groups' : list (str * gset str)) :
  load_lemma_lines lines groups = Ok groups' ->
  (NoDup groups.*1 -> NoDup groups'.*1)
  /\ Forall (fun line => str_split line <> []) lines
  /\ forall L,
       (is_Some (dict_get L groups') <->
        is_Some (dict_get L groups)
        \/ exists line words, line ∈ lines /\ str_split line = L :: words)
       /\ forall t, t ∈ tokens_of L groups' <->
            t ∈ tokens_of L groups
            \/ exists line words,
                 line ∈ lines /\ str_split line = L :: words /\ t ∈ words.
Proof.
  revert groups. induction lines as [|line lines IH]; intros groups; simpl.
  - intros [= <-]. split_and!; [done | constructor |]. intros L. split.
    + split; [by left|]. intros [?|(l & ws & Hin & _)]; [done|].
      by apply elem_of_nil in Hin.
    + intros t. split; [by left|]. intros [?|(l & ws & Hin & _)]; [done|].
      by apply elem_of_nil in Hin.
  - destruct (str_split line) as [|lemma words] eqn:Hsplit; [done|].
    intros Hrest. destruct (IH _ Hrest) as (Hnd & Hall & Hspec).
    split_and!.
    + intros Hg. by apply Hnd, add_tokens_NoDup.
    + constructor; [by rewrite Hsplit | done].
    + intros L. destruct (Hspec L) as [Hkey Htok]. split.
      * rewrite Hkey, add_tokens_lookup. split.
        -- intros [Hs|(l & ws & Hin & Hl)].
           ++ destruct (decide (lemma = L)) as [->|]; [|by left].
              right. exists line, words. split; [left | done].
           ++ right. exists l, ws. split; [by right | done].
        -- intros [Hs|(l & ws & Hin & Hl)].
           ++ left. destruct (decide (lemma = L)); [done | done].
           ++ apply elem_of_cons in Hin as [->|Hin].
              ** left. rewrite Hsplit in Hl. injection Hl as -> ->.
                 by rewrite decide_True.
              ** right. by exists l, ws.
      * intros t. rewrite Htok. unfold tokens_of at 1. rewrite add_tokens_lookup.
        split.
        -- intros [Ht|(l & ws & Hin & Hl & Hw)].
           ++ destruct (decide (lemma = L)) as [->|]; [|by left].
              cbn in Ht. apply elem_of_union in Ht as [Ht|Ht]; [by left|].
              right. exists line, words. split_and!; [left | done |].
              by apply elem_of_list_to_set in Ht.
           ++ right. exists l, ws. split_and!; [by right | done | done].
        -- intros [Ht|(l & ws & Hin & Hl & Hw)].
           ++ left. destruct (decide (lemma = L)) as [->|]; [|done].
              cbn. apply elem_of_union. by left.
           ++ apply elem_of_cons in Hin as [->|Hin].
              ** left. rewrite Hsplit in Hl. injection Hl as -> ->.
                 rewrite decide_True by done. cbn. apply elem_of_union. right.
                 by apply elem_of_list_to_set.
              ** right. by exists l, ws.
Qed.

Lemma _load_lemmas_spec (dir : directory) (groups groups' : list (str * gset str)) :
  _load_lemmas dir groups = Ok groups' ->
  (NoDup groups.*1 -> NoDup groups'.*1)
  /\ Forall (fun entry => exists lines,
               entry.2 = Some lines /\ Forall (fun line => str_split line <> []) lines)
            dir
  /\ forall L,
       (is_Some (dict_get L groups') <->
        is_Some (dict_get L groups) \/ exists words, has_line dir L words)
       /\ forall t, t ∈ tokens_of L groups' <->
            t ∈ tokens_of L groups \/ exists words, has_line dir L words /\ t ∈ words.
Proof.
  revert groups. induction dir as [|[name content] dir IH]; intros groups; simpl.
  - intros [= <-]. split_and!; [done | constructor |]. intros L. split.
    + split; [by left|]. intros [?|(ws & n & ls & l & Hin & _)]; [done|].
      by apply elem_of_nil in Hin.
    + intros t. split; [by left|]. intros [?|(ws & (n & ls & l & Hin & _) & _)]; [done|].
      by apply elem_of_nil in Hin.
  - destruct content as [lines|]; [|done].
    destruct (load_lemma_lines lines groups) as [groups1|e] eqn:Hlines; [|done].
    simpl. intros Hrest.
    destruct (load_lemma_lines_spec _ _ _ Hlines) as (Hnd1 & Hall1 & Hspec1).
    destruct (IH _ Hrest) as (Hnd & Hall & Hspec).
    split_and!.
    + intros Hg. by apply Hnd, Hnd1.
    + constructor; [by exists lines | done].
    + intros L. destruct (Hspec1 L) as [Hkey1 Htok1].
      destruct (Hspec L) as [Hkey Htok]. split.
      * rewrite Hkey, Hkey1. split.
        -- intros [[Hs|(l & ws & Hin & Hl)]|(ws & n & ls & l & Hin & Hl)].
           ++ by left.
           ++ right. exists ws, name, lines, l. split; [left | done].
           ++ right. exists ws, n, ls, l. split; [by right | done].
        -- intros [Hs|(ws & n & ls & l & Hin & Hl & Hsp)]; [by left; left|].
           apply elem_of_cons in Hin as [[= -> ->]|Hin].
           ++ left. right. by exists l, ws.
           ++ right. by exists ws, n, ls, l.
      * intros t. rewrite Htok, Htok1. split.
        -- intros [[Hs|(l & ws & Hin & Hl & Ht)]|(ws & (n & ls & l & Hin & Hl) & Ht)].
           ++ by left.
           ++ right. exists ws. split; [|done].
              exists name, lines, l. split; [left | done].
           ++ right. exists ws. split; [|done].
              exists n, ls, l. split; [by right | done].
        -- intros [Hs|(ws & (n & ls & l & Hin & Hl & Hsp) & Ht)]; [by left; left|].
           apply elem_of_cons in Hin as [[= -> ->]|Hin].
           ++ left. right. by exists l, ws.
           ++ right. exists ws. split; [|done]. by exists n, ls, l.
Qed.

(** X8. The lemma groups are sound and complete for the directory:
    [_load_lemmas] reads every file, whatever its name; when it
    succeeds, a word is the lemma of a group exactly when some line of
    some file has it as first word, and a token is in the group of a
    lemma exactly when it follows that lemma on some line.  Each lemma
    has one group. *)
Theorem lemma_groups_sound_and_complete (dir : directory) (groups : list (str * gset str)) :
  _load_lemmas dir [] = Ok groups ->
  NoDup groups.*1
  /\ forall L : str,
       (is_Some (dict_get L groups) <-> exists words, has_line dir L words)
       /\ forall t : str,
            t ∈ tokens_of L groups <-> exists words, has_line dir L words /\ t ∈ words.
Proof.
  intros Hload. destruct (_load_lemmas_spec _ _ _ Hload) as (Hnd & _ & Hspec).
  split; [apply Hnd; constructor|]. intros L. destruct (Hspec L) as [Hkey Htok]. split.
  - rewrite Hkey. split; [|by right]. intros [Hs|?]; [|done]. by destruct Hs.
  - intros t. rewrite Htok. split; [|by right]. intros [Ht|?]; [|done].
    unfold tokens_of in Ht. cbn in Ht. by apply elem_of_empty in Ht.
Qed.

(** Two files that give forms of one lemma, the second under a name
    that the builder would not index. *)
Definition forms_dir : directory :=
  [ (lit "lemmas_1.txt", Some [lit "cat cats" ++ [10%N]]);
    (lit "notes.txt", Some [lit "cat cat's" ++ [10%N]; lit "dog dogs" ++ [10%N]]) ].

Lemma lemma_groups_sound_and_complete_witness :
  NoDup [(lit "cat", ({[ lit "cats"; lit "cat's" ]} : gset str)); (lit "dog", {[ lit "dogs" ]})].*1
  /\ forall L : str,
       (is_Some (dict_get L [(lit "cat", ({[ lit "cats"; lit "cat's" ]} : gset str));
                             (lit "dog", {[ lit "dogs" ]})])
        <-> exists words, has_line forms_dir L words)
       /\ forall t : str,
            t ∈ tokens_of L [(lit "cat", ({[ lit "cats"; lit "cat's" ]} : gset str));
                             (lit "dog", {[ lit "dogs" ]})]
            <-> exists words, has_line forms_dir L words /\ t ∈ words.
Proof.
  apply (lemma_groups_sound_and_complete forms_dir). by_evaluation.
Defined.

(** ** An engine loaded from what the builder wrote *)

Lemma NoDup_map_inj {A B} (f : A -> B) (l : list A) (x y : A) :
  NoDup (map f l) -> x ∈ l -> y ∈ l -> f x = f y -> x = y.
Proof.
  induction l as [|a l IH]; simpl; intros Hnd Hx Hy Hf.
  - by apply elem_of_nil in Hx.
  - apply NoDup_cons in Hnd as [Ha Hnd].
    assert (Hmem : forall z, z ∈ l -> f z ∈ map f l).
    { intros z Hz. by apply list_elem_of_In, in_map, list_elem_of_In. }
    apply elem_of_cons in Hx as [->|Hx]; apply elem_of_cons in Hy as [->|Hy].
    + done.
    + exfalso. apply Ha. rewrite Hf. by apply Hmem.
    + exfalso. apply Ha. rewrite <- Hf. by apply Hmem.
    + by apply IH.
Qed.

(** A directory in which every name is the name of a lemma file and no
    two names carry the same number. *)
Definition all_indexed `{UnicodeData} (dir : directory) : Prop :=
  Forall (fun entry => is_Some (match_lemma_filename entry.1)) dir
  /\ NoDup (map (fun entry => match_lemma_filename entry.1) dir).

Section EngineFacts.
Context `{UnicodeData}.

Lemma all_indexed_dict_get (dir : directory) (name : str) (content : option (list str)) :
  all_indexed dir -> (name, content) ∈ dir -> dict_get name dir = Some content.
Proof.
  intros [_ Hnd] Hin. induction dir as [|[k v] dir IH]; [by apply elem_of_nil in Hin|].
  simpl. destruct (decide (name = k)) as [->|Hne].
  - f_equal.
    assert (Heq : (k, v) = (k, content)); [|congruence].
    apply (NoDup_map_inj _ _ _ _ Hnd); [left | done | done].
  - apply elem_of_cons in Hin as [[= ? ?]|Hin]; [done|].
    simpl in Hnd. apply NoDup_cons in Hnd as [_ Hnd]. by apply IH.
Qed.

Lemma all_indexed_registered (dir : directory) (name : str) (content : option (list str)) :
  all_indexed dir -> (name, content) ∈ dir ->
  exists n, match_lemma_filename name = Some n
            /\ dict_get n (get_lemmas_file_paths (map fst dir) []) = Some name.
Proof.
  intros [Hall Hnd] Hin. rewrite Forall_forall in Hall.
  destruct (Hall _ Hin) as [n Hn]. cbn [fst] in Hn. exists n. split; [done|].
  rewrite get_lemmas_file_paths_lookup.
  set (found := filter (fun f => match_lemma_filename f = Some n) (map fst dir)).
  assert (Hname : name ∈ found).
  { apply list_elem_of_filter. split; [done|].
    apply list_elem_of_In, in_map_iff. exists (name, content).
    split; [done | by apply list_elem_of_In]. }
  destruct (last found) as [name'|] eqn:Hlast.
  - f_equal. apply last_Some in Hlast as [l' Hl'].
    assert (Hin' : name' ∈ found) by (rewrite Hl'; apply elem_of_app; right; left).
    apply list_elem_of_filter in Hin' as [Hn' Hin'].
    apply list_elem_of_In, in_map_iff in Hin' as ([k v] & <- & Hin').
    apply list_elem_of_In in Hin'. cbn [fst] in *.
    assert (Heq : (k, v) = (name, content)); [|congruence].
    apply (NoDup_map_inj _ _ _ _ Hnd); [done | done |]. cbn [fst]. congruence.
  - apply last_None in Hlast. rewrite Hlast in Hname. by apply elem_of_nil in Hname.
Qed.

Lemma load_lemma_lines_total (lines : list str) (groups : list (str * gset str)) :
  Forall (fun line => str_split line <> []) lines ->
  exists groups', load_lemma_lines lines groups = Ok groups'.
Proof.
  intros Hall. revert groups. induction Hall as [|line lines Hl Hall IH]; intros groups.
  - by exists groups.
  - simpl. destruct (str_split line) as [|lemma words]; [done|]. apply IH.
Qed.

Lemma _load_lemmas_total (dir : directory) (groups : list (str * gset str)) :
  Forall (fun entry => exists lines,
            entry.2 = Some lines /\ Forall (fun line => str_split line <> []) lines) dir ->
  exists groups', _load_lemmas dir groups = Ok groups'.
Proof.
  intros Hall. revert groups.
  induction Hall as [|[name content] dir (lines & Hc & Hl) Hall IH]; intros groups.
  - by exists groups.
  - cbn [snd] in Hc. subst content. simpl.
    destruct (load_lemma_lines_total lines groups Hl) as [groups1 ->]. simpl. apply IH.
Qed.

(** The files that the builder read have no line without a word. *)
Lemma read_file_has_words (dir : directory) (path : str) (lemmas : list str) :
  get_lemmas_from_lemma_file dir path = Ok lemmas ->
  exists lines, readlines dir path = Ok lines
                /\ Forall (fun line => str_split line <> []) lines.
Proof.
  intros Hread. apply file_lemmas_lines in Hread as (lines & Hlines & Hall).
  exists lines. split; [done|]. apply Forall_forall. intros line Hin.
  apply list_elem_of_lookup in Hin as [i Hi].
  destruct (Forall2_lookup_l _ _ _ _ _ Hall Hi) as (w & _ & Hw).
  rewrite first_column_str_split in Hw. by destruct (str_split line).
Qed.

Lemma readlines_Ok (dir : directory) (path : str) (lines : list str) :
  readlines dir path = Ok lines <-> dict_get path dir = Some (Some lines).
Proof.
  unfold readlines. destruct (dict_get path dir) as [[l|]|]; split; intros Heq;
    try discriminate; congruence.
Qed.

(** The builder's completeness, for one line. *)
Lemma postings_complete (dir : directory) (index : list (str * list Z)) (d : Z)
    (path line L : str) (lines : list str) :
  build_index dir = Ok index ->
  dict_get d (get_lemmas_file_paths (map fst dir) []) = Some path ->
  readlines dir path = Ok lines -> line ∈ lines -> first_column line = Ok L ->
  d ∈ postings L index.
Proof.
  intros Hb Hget Hlines Hline Hcol.
  destruct (build_index_postings _ _ Hb) as (_ & _ & _ & Hread & Hpost).
  rewrite Hpost, elem_of_contributions. exists path.
  apply dict_get_Some_elem in Hget as Hin. split; [done|].
  rewrite Forall_forall in Hread.
  destruct (file_lemmas_lines _ _ _ (Hread _ Hin)) as (lines' & Hrd & Hall).
  cbn [snd] in Hrd, Hall. assert (lines' = lines) as -> by congruence.
  apply (first_column_elem _ _ L Hall). by exists line.
Qed.

(** Resolution never gives [None] when every lemma with a group is in
    the index. *)
Lemma resolver_total (self : SearchEngine) :
  (forall lemma tokens, (lemma, tokens) ∈ lemmas self ->
                        is_Some (inverted_index self !! lemma)) ->
  forall token default_value, is_Some (_get_indexes_by_token self token default_value).
Proof.
  intros Hinv token d. unfold _get_indexes_by_token.
  destruct (inverted_index self !! token) as [ids|]; [done|].
  destruct (List.find _ (lemmas self)) as [[lemma tokens]|] eqn:Hfind; [|done].
  apply find_some in Hfind as [Hin _]. apply (Hinv lemma tokens).
  by apply list_elem_of_In.
Qed.

End EngineFacts.

(** Names of at most 640 characters have numbers within every limit
    on digits. *)
Lemma take_while_length {A} (f : A -> bool) (l : list A) :
  (length (take_while f l) <= length l)%nat.
Proof.
  induction l as [|a l IH]; simpl; [done|]. destruct (f a); simpl; lia.
Qed.

Lemma too_many_digits_small `{Platform} (n : nat) :
  (n <= 640)%nat -> too_many_digits n = false.
Proof.
  intros Hn. unfold too_many_digits.
  assert ((640 <? n)%nat = false) as -> by (apply Nat.ltb_ge; lia). done.
Qed.

Lemma html_number_raises_short `{UnicodeData} `{Platform} (listing : list str) :
  Forall (fun filename => (length filename <= 640)%nat) listing ->
  existsb html_number_raises listing = false.
Proof.
  induction 1 as [|f listing Hf Hall IH]; [done|]. cbn [existsb]. rewrite IH.
  unfold html_number_raises. destruct (match_html_filename f); [|done].
  rewrite too_many_digits_small; [done|].
  pose proof (take_while_length is_digit f). lia.
Qed.

(** X9. Build, then load: when every name in the lemma directory is
    the name of a lemma file and no two carry the same number, then,
    on a platform that writes text as UTF-8 and lets the file be
    opened, and for document numbers within the limit on digits, a
    successful build followed by [SearchEngine.__init__] on the written
    index, the same directory and any listing of the document
    directory with names of at most 640 characters succeeds, every
    lemma that has a token group is a key of the loaded index, and so
    every query term resolves to a set, never to [None]. *)
Theorem engine_from_built_index_resolves `{UnicodeData} `{Platform} (dir : directory)
    (output : Path) (fs fs' : files) (res : ProcessingResult)
    (htmls_listing : list str) :
  process_lemmas_directory dir output fs = Some (res, fs') ->
  error_ res = None ->
  all_indexed dir ->
  (forall s, text_encode s = utf8_encode s) ->
  (forall p, refuses (OpenRead p) = false) ->
  Forall (fun item => readable item.1) (get_lemmas_file_paths (map fst dir) []) ->
  Forall (fun filename => (length filename <= 640)%nat) htmls_listing ->
  exists resolved self,
    file_path res = Some resolved
    /\ init fs' resolved (Some dir) (Some htmls_listing) = Ok self
    /\ (forall lemma tokens, (lemma, tokens) ∈ lemmas self ->
                             is_Some (inverted_index self !! lemma))
    /\ forall token default_value,
         is_Some (_get_indexes_by_token self token default_value).
Proof.
  intros Hrun Hok Hdir Hutf8 Hopen Hreadable Hshort.
  destruct (process_success _ _ _ _ _ Hrun Hok)
    as (resolved & index & chunks & Hb & _ & Hfree & Hpath & Hfile & Hchunks & _).
  apply stat_None in Hfree as [Hne _].
  destruct (build_index_postings _ _ Hb) as (_ & Hnd & _ & Hread & _).
  rewrite Forall_forall in Hread.
  assert (Hfiles : forall name content, (name, content) ∈ dir ->
            exists n lines, dict_get n (get_lemmas_file_paths (map fst dir) []) = Some name
                            /\ content = Some lines
                            /\ readlines dir name = Ok lines
                            /\ Forall (fun line => str_split line <> []) lines).
  { intros name content Hin.
    destruct (all_indexed_registered _ _ _ Hdir Hin) as (n & _ & Hn).
    apply dict_get_Some_elem in Hn as Hitem.
    destruct (read_file_has_words _ _ _ (Hread _ Hitem)) as (lines & Hlines & Hwords).
    cbn [snd] in Hlines. exists n, lines. split_and!; try done.
    apply readlines_Ok in Hlines.
    rewrite (all_indexed_dict_get _ _ _ Hdir Hin) in Hlines. congruence. }
  destruct (_load_lemmas_total dir []) as [groups Hgroups].
  { apply Forall_forall. intros [name content] Hin.
    destruct (Hfiles _ _ Hin) as (n & lines & _ & -> & _ & Hwords). by exists lines. }
  set (self := {| inverted_index := as_map index ∅;
                  lemmas := groups;
                  htmls := _load_htmls htmls_listing ∅ |}).
  assert (Hinv : forall lemma tokens, (lemma, tokens) ∈ lemmas self ->
                                      is_Some (inverted_index self !! lemma)).
  { intros lemma tokens Hin. cbn [lemmas inverted_index self] in *.
    destruct (_load_lemmas_spec _ _ _ Hgroups) as (_ & _ & Hspec).
    destruct (Hspec lemma) as [Hkey _].
    assert (Hsome : is_Some (dict_get lemma groups)).
    { destruct (dict_get lemma groups) eqn:Hg; [done|].
      apply dict_get_None in Hg. exfalso. apply Hg.
      apply list_elem_of_fmap. by exists (lemma, tokens). }
    apply Hkey in Hsome as [[? [=]]|(words & name & lines & line & Hfile' & Hline & Hsplit)].
    destruct (Hfiles _ _ Hfile') as (n & lines' & Hn & [= <-] & Hlines & _).
    assert (Hcol : first_column line = Ok lemma)
      by (by rewrite first_column_str_split, Hsplit).
    pose proof (postings_complete _ _ _ _ _ _ _ Hb Hn Hlines Hline Hcol) as Hd.
    rewrite as_map_lookup by done. unfold postings in Hd.
    destruct (dict_get lemma index); [done|]. by apply elem_of_nil in Hd. }
  exists resolved, self. split_and!; [done | | done | by apply resolver_total].
  unfold init.
  rewrite (load_built_index dir index fs' resolved chunks) by done.
  cbn. rewrite Hgroups. cbn. by rewrite html_number_raises_short.
Qed.

Lemma engine_from_built_index_resolves_witness :
  exists resolved self,
    Some index_txt = Some resolved
    /\ @init Cyrillic.table Posix.platform (built two_docs_text)
         resolved (Some two_docs) (Some [lit "1.html"; lit "2.html"]) = Ok self
    /\ (forall lemma tokens, (lemma, tokens) ∈ lemmas self ->
                             is_Some (inverted_index self !! lemma))
    /\ forall token default_value,
         is_Some (_get_indexes_by_token self token default_value).
Proof.
  apply (@engine_from_built_index_resolves Cyrillic.table Posix.platform two_docs
           index_txt ∅ (built two_docs_text)
           {| file_path := Some index_txt; error_ := None |}).
  - by_evaluation.
  - reflexivity.
  - split; [repeat constructor; by eexists|].
    apply NoDup_cons. split; [|apply NoDup_singleton].
    intros Hin%list_elem_of_singleton. discriminate.
  - reflexivity.
  - reflexivity.
  - repeat constructor.
  - repeat constructor; cbn; lia.
Defined.

(** With a file in the lemma directory that the builder does not index
    the same start gives an engine for which a term resolves to
    [None]. *)
Example stray_file_breaks_resolution :
  match @process_lemmas_directory Cyrillic.table Posix.platform forms_dir index_txt ∅ with
  | Some (_, fs') =>
      match @init Cyrillic.table Posix.platform fs' index_txt (Some forms_dir) (Some []) with
      | Ok self => _get_indexes_by_token self (lit "dogs") ∅
      | Raise _ => Some ∅
      end
  | None => Some ∅
  end = None.
Proof. by_evaluation. Qed.

(** ** What the conversion to postfix keeps *)

(** A token other than a parenthesis: a word or an operator. *)
Definition not_paren (t : str) : Prop := t <> LPAREN /\ t <> RPAREN.

#[local] Instance not_paren_dec (t : str) : Decision (not_paren t).
Proof. unfold not_paren. apply _. Defined.

(** One round, seen on the output followed by the operator stack: a
    token other than [)] is inserted, [)] removes a [(] or nothing. *)
Definition round (seq : list str) (t : str) (seq' : list str) : Prop :=
  (t <> RPAREN /\ exists l r, seq = l ++ r /\ seq' = l ++ t :: r)
  \/ (t = RPAREN
      /\ (seq' = seq \/ exists l r, seq = l ++ LPAREN :: r /\ seq' = l ++ r)).

Lemma pop_operators_concat (p : Z) (st : list str) : forall out,
  (pop_operators p out st).1 ++ (pop_operators p out st).2 = out ++ st.
Proof.
  induction st as [|top st IH]; intros out; simpl; [done|].
  destruct (bool_decide (top <> LPAREN) && (p <=? default 0 (precedence top))); [|done].
  rewrite IH. by rewrite <- app_assoc.
Qed.

Lemma close_paren_concat (st : list str) : forall out,
  (close_paren out st).1 ++ (close_paren out st).2 = out ++ st
  \/ exists l r, out ++ st = l ++ LPAREN :: r
                 /\ (close_paren out st).1 ++ (close_paren out st).2 = l ++ r.
Proof.
  induction st as [|top st IH]; intros out; simpl; [by left|].
  destruct (decide (top = LPAREN)) as [->|Hne].
  - rewrite bool_decide_eq_true_2 by done. right. by exists out, st.
  - rewrite bool_decide_eq_false_2 by done.
    destruct (IH (out ++ [top])) as [Heq|(l & r & Heq & Hres)].
    + left. by rewrite Heq, <- app_assoc.
    + right. exists l, r. by rewrite <- Heq, <- app_assoc.
Qed.

Lemma postfix_step_round (out st : list str) (t : str) :
  round (out ++ st) t ((postfix_step (out, st) t).1 ++ (postfix_step (out, st) t).2).
Proof.
  unfold round, postfix_step. destruct (precedence t) as [p|] eqn:Hp.
  - left. destruct (precedence_Some_not_paren _ _ Hp) as [_ Hr]. split; [done|].
    pose proof (pop_operators_concat p st out) as Hcat.
    destruct (pop_operators p out st) as [out' st']. cbn [fst snd] in *.
    by exists out', st'.
  - destruct (decide (t = LPAREN)) as [->|Hl].
    + rewrite bool_decide_eq_true_2 by done. left. split; [done|]. by exists out, st.
    + rewrite bool_decide_eq_false_2 by done.
      destruct (decide (t = RPAREN)) as [->|Hr].
      * rewrite bool_decide_eq_true_2 by done. right. split; [done|].
        destruct (close_paren_concat st out) as [Heq|(l & r & Heq & Hres)];
          [by left | right; by exists l, r].
      * rewrite bool_decide_eq_false_2 by done. left. split; [done|].
        exists out, st. cbn [fst snd]. by rewrite <- app_assoc.
Qed.

(** What a round keeps. *)
Lemma round_keeps (seq seq' : list str) (t : str) :
  round seq t seq' ->
  filter not_paren seq' ≡ₚ filter not_paren seq ++ filter not_paren [t]
  /\ (RPAREN ∉ seq -> RPAREN ∉ seq')
  /\ (forall x, x ∈ seq' -> x ∈ seq \/ x = t)
  /\ (length seq' <= S (length seq))%nat.
Proof.
  intros [[Ht (l & r & -> & ->)]|[-> [->|(l & r & -> & ->)]]].
  - split_and!.
    + rewrite !filter_app, (filter_cons _ t r), (filter_cons _ t []), filter_nil.
      destruct (decide (not_paren t)); rewrite ?app_nil_r; [|done].
      rewrite <- app_assoc. apply Permutation_app_head.
      apply Permutation_cons_append.
    + rewrite !not_elem_of_app, not_elem_of_cons. intuition congruence.
    + intros x. rewrite !elem_of_app, elem_of_cons. tauto.
    + rewrite !length_app. simpl. lia.
  - split_and!; [|done | by left | lia].
    rewrite filter_cons, filter_nil, decide_False, app_nil_r; [done|].
    unfold not_paren. tauto.
  - split_and!.
    + rewrite !filter_app, !filter_cons, filter_nil.
      rewrite !decide_False by (unfold not_paren; tauto).
      by rewrite app_nil_r.
    + rewrite !not_elem_of_app, not_elem_of_cons. intuition congruence.
    + intros x. rewrite !elem_of_app, elem_of_cons. tauto.
    + rewrite !length_app. simpl. lia.
Qed.

Lemma fold_postfix_keeps (tokens : list str) : forall out st,
  let final := fold_left postfix_step tokens (out, st) in
  filter not_paren (final.1 ++ final.2)
    ≡ₚ filter not_paren (out ++ st) ++ filter not_paren tokens
  /\ (RPAREN ∉ out ++ st -> RPAREN ∉ final.1 ++ final.2)
  /\ (forall x, x ∈ final.1 ++ final.2 -> x ∈ out ++ st \/ x ∈ tokens)
  /\ (length (final.1 ++ final.2) <= length (out ++ st) + length tokens)%nat.
Proof.
  induction tokens as [|t tokens IH]; intros out st; cbn zeta.
  - simpl. rewrite filter_nil, app_nil_r. split_and!; [done | done | by left | lia].
  - cbn [fold_left].
    destruct (round_keeps _ _ _ (postfix_step_round out st t)) as (Hp & Hr & Hin & Hlen).
    destruct (postfix_step (out, st) t) as [out1 st1]. cbn [fst snd] in *.
    destruct (IH out1 st1) as (Hp' & Hr' & Hin' & Hlen'). cbn zeta in *.
    split_and!.
    + rewrite Hp', Hp, <- app_assoc. apply Permutation_app_head.
      by rewrite (filter_cons _ t tokens), (filter_cons _ t []), filter_nil;
        destruct (decide (not_paren t)).
    + auto.
    + intros x Hx. destruct (Hin' x Hx) as [H1|H1]; [|right; by right].
      destruct (Hin x H1) as [?| ->]; [by left | right; left].
    + simpl. lia.
Qed.

(** X10. The conversion to postfix neither loses nor invents a word or
    an operator: the words and operators of the postfix program are
    those of the tokens, each as often (only their order changes and
    parentheses go); the program never contains [)], has only tokens
    of the query, and is not longer than the query. *)
Theorem postfix_keeps_words_and_operators (tokens : list str) :
  filter not_paren (_to_postfix tokens) ≡ₚ filter not_paren tokens
  /\ (RPAREN ∉ _to_postfix tokens)
  /\ (forall t, t ∈ _to_postfix tokens -> t ∈ tokens)
  /\ (length (_to_postfix tokens) <= length tokens)%nat.
Proof.
  destruct (fold_postfix_keeps tokens [] []) as (Hp & Hr & Hin & Hlen).
  cbn zeta in *. unfold _to_postfix.
  destruct (fold_left postfix_step tokens ([], [])) as [out st]. cbn [fst snd] in *.
  split_and!; [done | | | done].
  - apply Hr, not_elem_of_nil.
  - intros t Ht. destruct (Hin t Ht) as [Hnil|?]; [|done]. by apply elem_of_nil in Hnil.
Qed.

(** ** Queries as expressions *)

(** Boolean queries, and how they are written for this parser: with
    the parentheses that precedence and grouping require ([NOT] binds
    tighter than [AND], [AND] tighter than [OR], the binary operators
    group to the left), and with one pair more than these require: a
    negation that is the operand of a negation is put in parentheses,
    [NOT ( NOT a )].  Without that pair the parser goes wrong (line 76
    pops a [NOT] for a [NOT]). *)
Inductive expr :=
| Term (t : str)
| Not (a : expr)
| And (a b : expr)
| Or (a b : expr).

Definition wrap (parens : bool) (tokens : list str) : list str :=
  if parens then LPAREN :: tokens ++ [RPAREN] else tokens.

(** The tokens of an expression where an operand of precedence [level]
    or more is expected.  The operand of [NOT] is written at level 4,
    above every operator, so that it is a term or in parentheses. *)
Fixpoint show (level : Z) (e : expr) : list str :=
  match e with
  | Term t => [t]
  | Not a => wrap (3 <? level) (NOT :: show 4 a)
  | And a b => wrap (2 <? level) (show 2 a ++ AND :: show 3 b)
  | Or a b => wrap (1 <? level) (show 1 a ++ OR :: show 2 b)
  end.

(** Operands first, operator last. *)
Fixpoint postfix (e : expr) : list str :=
  match e with
  | Term t => [t]
  | Not a => postfix a ++ [NOT]
  | And a b => postfix a ++ postfix b ++ [AND]
  | Or a b => postfix a ++ postfix b ++ [OR]
  end.

Fixpoint terms (e : expr) : list str :=
  match e with
  | Term t => [t]
  | Not a => terms a
  | And a b | Or a b => terms a ++ terms b
  end.

(** The set an expression stands for: a term for its postings,
    [NOT] for the complement within the document table. *)
Fixpoint denote (self : SearchEngine) (e : expr) : gset Z :=
  match e with
  | Term t => default ∅ (_get_indexes_by_token self t ∅)
  | Not a => dom (htmls self) ∖ denote self a
  | And a b => denote self a ∩ denote self b
  | Or a b => denote self a ∪ denote self b
  end.

(** The operator stack lets an operand of this level through: its top
    is a parenthesis or binds less. *)
Definition ctx_ok (level : Z) (st : list str) : Prop :=
  match st with
  | [] => True
  | top :: _ => top = LPAREN \/ default 0 (precedence top) < level
  end.

(** Operators that bind at least as tightly as [level]. *)
Definition pending (level : Z) (ops : list str) : Prop :=
  Forall (fun op => exists p, precedence op = Some p /\ level <= p) ops.

Lemma pending_mono (level level' : Z) (ops : list str) :
  level' <= level -> pending level ops -> pending level' ops.
Proof.
  intros Hle. unfold pending. intros Hops. eapply Forall_impl; [exact Hops|].
  intros op (p & Hp & Hlp). exists p. split; [done | lia].
Qed.

Lemma ctx_ok_mono (level level' : Z) (st : list str) :
  level <= level' -> ctx_ok level st -> ctx_ok level' st.
Proof. intros Hle. destruct st as [|top st]; [done|]. intros [?|?]; [by left | right; lia]. Qed.

Lemma pending_open_parens (level : Z) (ops : list str) :
  pending level ops -> open_parens ops = O.
Proof.
  unfold open_parens. induction 1 as [|op ops (p & Hp & _) Hops IH]; [done|].
  rewrite filter_cons, decide_False; [done|].
  by destruct (precedence_Some_not_paren _ _ Hp).
Qed.

Lemma pop_operators_pending (p : Z) (ops st : list str) : forall out,
  pending p ops -> ctx_ok p st ->
  pop_operators p out (ops ++ st) = (out ++ ops, st).
Proof.
  induction ops as [|op ops IH]; intros out Hops Hst.
  - rewrite app_nil_r. destruct st as [|top st]; [done|]. simpl.
    destruct Hst as [->|Hlt]; [by rewrite bool_decide_eq_false_2 by (by intros [])|].
    assert ((p <=? default 0 (precedence top)) = false) as -> by (apply Z.leb_gt; lia).
    by rewrite andb_false_r.
  - apply Forall_cons in Hops as [(q & Hq & Hpq) Hops]. simpl. rewrite Hq.
    cbn [from_option id].
    destruct (precedence_Some_not_paren _ _ Hq) as [Hl _].
    rewrite bool_decide_eq_true_2 by done.
    assert ((p <=? q) = true) as -> by (apply Z.leb_le; lia). cbn [andb].
    rewrite IH by done. by rewrite <- app_assoc.
Qed.

Lemma close_paren_pending (level : Z) (ops st out : list str) :
  pending level ops -> close_paren out (ops ++ LPAREN :: st) = (out ++ ops, st).
Proof. intros Hops. apply close_paren_no_open. by apply (pending_open_parens level). Qed.

(** What the conversion does with the tokens of an operand: [o] goes
    to the output, the operators [ops] wait on the stack, and turned
    out in this order they make the postfix form [program]. *)
Definition converts (tokens program : list str) (level : Z) : Prop :=
  forall out st, ctx_ok level st ->
    exists o ops,
      fold_left postfix_step tokens (out, st) = (out ++ o, ops ++ st)
      /\ o ++ ops = program
      /\ pending level ops.

Lemma converts_wrap (tokens program : list str) (own level : Z) :
  converts tokens program own ->
  converts (wrap (own <? level) tokens) program level.
Proof.
  intros Hbody out st Hctx. unfold wrap. destruct (own <? level) eqn:Hlev.
  - destruct (Hbody out (LPAREN :: st)) as (o & ops & Hfold & Hprog & Hops); [by left|].
    exists program, []. split_and!; [|by rewrite app_nil_r | constructor].
    cbn [fold_left]. rewrite fold_left_app.
    change (postfix_step (out, st) LPAREN) with (out, LPAREN :: st).
    rewrite Hfold. cbn [fold_left]. unfold postfix_step.
    change (precedence RPAREN) with (@None Z).
    change (bool_decide (RPAREN = LPAREN)) with false.
    change (bool_decide (RPAREN = RPAREN)) with true. cbv iota.
    rewrite (close_paren_pending own) by done. by rewrite <- app_assoc, Hprog.
  - apply Z.ltb_ge in Hlev.
    destruct (Hbody out st) as (o & ops & Hfold & Hprog & Hops);
      [by apply (ctx_ok_mono level)|].
    exists o, ops. split_and!; [done | done | by apply (pending_mono own)].
Qed.

(** An operator of precedence [p] after a left operand: the waiting
    operators of the operand go to the output, the operator waits. *)
Lemma postfix_step_operator (op : str) (p : Z) (out o ops st : list str) :
  precedence op = Some p -> pending p ops -> ctx_ok p st ->
  postfix_step (out ++ o, ops ++ st) op = (out ++ o ++ ops, op :: st).
Proof.
  intros Hp Hops Hst. unfold postfix_step. rewrite Hp.
  rewrite pop_operators_pending by done. by rewrite <- app_assoc.
Qed.

(** Two [NOT] in a row: the second pops the first, which then lacks
    its operand. *)
Lemma _to_postfix_bare_double_negation (t : str) :
  literal t -> _to_postfix [NOT; NOT; t] = [NOT; t; NOT].
Proof.
  intros Ht. unfold _to_postfix.
  assert (H2 : fold_left postfix_step [NOT; NOT] ([], []) = ([NOT], [NOT])) by reflexivity.
  change [NOT; NOT; t] with ([NOT; NOT] ++ [t]). rewrite fold_left_app, H2.
  cbn [fold_left]. by rewrite postfix_step_literal by done.
Qed.

Lemma show_converts (e : expr) :
  Forall literal (terms e) -> forall level, converts (show level e) (postfix e) level.
Proof.
  induction e as [t|a IHa|a IHa b IHb|a IHa b IHb]; intros Hterms level; cbn [show].
  - apply Forall_inv in Hterms. intros out st _. exists [t], [].
    split_and!; [|done | constructor].
    cbn [fold_left]. by rewrite postfix_step_literal by done.
  - cbn [terms] in Hterms. apply converts_wrap. intros out st Hctx.
    assert (Hnot : postfix_step (out, st) NOT = (out, NOT :: st)).
    { pose proof (postfix_step_operator NOT 3 out [] [] st eq_refl) as Hstep.
      rewrite !app_nil_r in Hstep. apply Hstep; [constructor | done]. }
    destruct (IHa Hterms 4 out (NOT :: st)) as (o & ops & Hfold & Hprog & Hops);
      [right; reflexivity|].
    exists o, (ops ++ [NOT]). split_and!.
    + cbn [fold_left]. rewrite Hnot, Hfold. by rewrite <- app_assoc.
    + cbn [postfix]. by rewrite app_assoc, Hprog.
    + apply Forall_app. split; [by apply (pending_mono 4)|].
      constructor; [|constructor]. by exists 3.
  - cbn [terms] in Hterms. apply Forall_app in Hterms as [Ha Hb].
    apply converts_wrap. intros out st Hctx.
    destruct (IHa Ha 2 out st Hctx) as (oa & opsa & Hfa & Hpa & Hopsa).
    destruct (IHb Hb 3 (out ++ oa ++ opsa) (AND :: st))
      as (ob & opsb & Hfb & Hpb & Hopsb); [right; reflexivity|].
    exists (postfix a ++ ob), (opsb ++ [AND]). split_and!.
    + rewrite fold_left_app, Hfa. cbn [fold_left].
      rewrite (postfix_step_operator AND 2) by done. rewrite Hfb.
      by rewrite Hpa, <- !app_assoc.
    + cbn [postfix]. by rewrite <- Hpb, <- !app_assoc.
    + apply Forall_app. split; [by apply (pending_mono 3)|].
      constructor; [|constructor]. by exists 2.
  - cbn [terms] in Hterms. apply Forall_app in Hterms as [Ha Hb].
    apply converts_wrap. intros out st Hctx.
    destruct (IHa Ha 1 out st Hctx) as (oa & opsa & Hfa & Hpa & Hopsa).
    destruct (IHb Hb 2 (out ++ oa ++ opsa) (OR :: st))
      as (ob & opsb & Hfb & Hpb & Hopsb); [right; reflexivity|].
    exists (postfix a ++ ob), (opsb ++ [OR]). split_and!.
    + rewrite fold_left_app, Hfa. cbn [fold_left].
      rewrite (postfix_step_operator OR 1) by done. rewrite Hfb.
      by rewrite Hpa, <- !app_assoc.
    + cbn [postfix]. by rewrite <- Hpb, <- !app_assoc.
    + apply Forall_app. split; [by apply (pending_mono 2)|].
      constructor; [|constructor]. by exists 1.
Qed.

(** X11. The shunting-yard conversion is right on expressions written
    with a negation under a negation in parentheses, and wrong without
    them.  For every expression over literal terms, written with the
    parentheses that the precedences [NOT > AND > OR] and left
    grouping require and with every negation that is the operand of a
    negation in parentheses, [_to_postfix] gives the operands-first
    program of that expression.  Written without parentheses, the
    double negation [NOT NOT t] of a term gives the program
    [NOT t NOT], which is not [t NOT NOT]. *)
Theorem to_postfix_of_expression (e : expr) (level : Z) :
  Forall literal (terms e) ->
  _to_postfix (show level e) = postfix e
  /\ forall t, t ∈ terms e ->
       show 1 (Not (Not (Term t))) = [NOT; LPAREN; NOT; t; RPAREN]
       /\ _to_postfix [NOT; NOT; t] = [NOT; t; NOT].
Proof.
  intros Hterms. split.
  - destruct (show_converts e Hterms level [] []) as (o & ops & Hf & Hp & _); [done|].
    unfold _to_postfix. rewrite Hf. by rewrite app_nil_r.
  - intros t Ht. rewrite Forall_forall in Hterms. split.
    + reflexivity.
    + by apply _to_postfix_bare_double_negation, Hterms.
Qed.

(** кот OR пёс AND NOT (кот OR x) *)
Definition sample_expr : expr :=
  Or (Term Cyrillic.kot)
     (And (Term Cyrillic.pyos) (Not (Or (Term Cyrillic.kot) (Term (lit "x"))))).

Lemma sample_terms_literal : Forall literal (terms sample_expr).
Proof.
  repeat constructor; unfold literal; rewrite !not_elem_of_cons;
    (split_and!; [discriminate.. | apply not_elem_of_nil]).
Qed.

Lemma to_postfix_of_expression_witness :
  _to_postfix [Cyrillic.kot; OR; Cyrillic.pyos; AND; NOT; LPAREN; Cyrillic.kot; OR;
               lit "x"; RPAREN]
  = [Cyrillic.kot; Cyrillic.pyos; Cyrillic.kot; lit "x"; OR; NOT; AND; OR]
  /\ forall t, t ∈ terms sample_expr ->
       show 1 (Not (Not (Term t))) = [NOT; LPAREN; NOT; t; RPAREN]
       /\ _to_postfix [NOT; NOT; t] = [NOT; t; NOT].
Proof. exact (to_postfix_of_expression sample_expr 1 sample_terms_literal). Defined.

(** ** What a program computes *)

(** Every term of the expression is a literal that resolves to a set. *)
Definition resolvable (self : SearchEngine) (e : expr) : Prop :=
  Forall (fun t => literal t /\ is_Some (_get_indexes_by_token self t ∅)) (terms e).

Lemma eval_step_literal (self : SearchEngine) (stack : list value) (t : str) :
  literal t -> eval_step self stack t = Ok (_get_indexes_by_token self t ∅ :: stack).
Proof.
  intros (Hop & _ & _)%literal_spec. unfold eval_step.
  by rewrite (is_operator_false _ Hop).
Qed.

Lemma eval_loop_postfix (self : SearchEngine) (e : expr) :
  resolvable self e ->
  forall stack, eval_loop self (postfix e) stack = Ok (Some (denote self e) :: stack).
Proof.
  unfold resolvable.
  induction e as [t|a IHa|a IHa b IHb|a IHa b IHb]; intros Hres stack;
    cbn [terms postfix denote] in *.
  - apply Forall_inv in Hres as [Hlit [S HS]]. cbn [eval_loop].
    rewrite eval_step_literal by done. by rewrite HS.
  - rewrite eval_loop_app, IHa by done. reflexivity.
  - apply Forall_app in Hres as [Ha Hb].
    rewrite eval_loop_app, IHa by done. cbv iota beta.
    rewrite eval_loop_app, IHb by done. reflexivity.
  - apply Forall_app in Hres as [Ha Hb].
    rewrite eval_loop_app, IHa by done. cbv iota beta.
    rewrite eval_loop_app, IHb by done. reflexivity.
Qed.

(** X12. The stack machine computes set algebra: the postfix program
    of an expression whose terms resolve evaluates without error to
    the set the expression stands for, with [AND] as intersection,
    [OR] as union and [NOT] as complement within the document table;
    the result list has exactly the paths of that set, in ascending
    order of the ids. *)
Theorem evaluate_postfix_of_expression (self : SearchEngine) (e : expr) :
  resolvable self e ->
  evaluate_set self (postfix e) = Ok (denote self e)
  /\ evaluate self (postfix e)
     = Ok (map (fun idx => htmls self !! idx) (sorted (denote self e)))
  /\ StronglySorted Z.le (sorted (denote self e))
  /\ forall idx, idx ∈ sorted (denote self e) <-> idx ∈ denote self e.
Proof.
  intros Hres.
  assert (Hset : evaluate_set self (postfix e) = Ok (denote self e)).
  { unfold evaluate_set. by rewrite eval_loop_postfix. }
  split_and!; [done | | apply sorted_ascending | apply sorted_ascending].
  unfold evaluate. by rewrite Hset.
Qed.

(** Both documents have a page, and both lemmas are indexed. *)
Definition two_pages : SearchEngine := {|
  inverted_index := {[ Cyrillic.kot := {[1]}; Cyrillic.pyos := {[2]} ]};
  lemmas := [];
  htmls := {[ 1 := lit "1.html"; 2 := lit "2.html" ]}
|}.

Lemma sample_resolvable : resolvable two_pages sample_expr.
Proof.
  unfold resolvable. pose proof sample_terms_literal as Hlit.
  rewrite Forall_forall in Hlit |- *. intros t Ht. split; [by apply Hlit|].
  cbn in Ht. repeat (apply elem_of_cons in Ht as [->|Ht]); try (by eexists).
  by apply elem_of_nil in Ht.
Qed.

Lemma evaluate_postfix_of_expression_witness :
  evaluate_set two_pages (postfix sample_expr) = Ok (denote two_pages sample_expr)
  /\ evaluate two_pages (postfix sample_expr)
     = Ok (map (fun idx => htmls two_pages !! idx)
               (sorted (denote two_pages sample_expr)))
  /\ StronglySorted Z.le (sorted (denote two_pages sample_expr))
  /\ forall idx, idx ∈ sorted (denote two_pages sample_expr)
                 <-> idx ∈ denote two_pages sample_expr.
Proof. exact (evaluate_postfix_of_expression two_pages sample_expr sample_resolvable). Defined.

(** The sample expression кот OR пёс AND NOT (кот OR x) selects both
    documents. *)
Example sample_expr_result :
  evaluate two_pages (postfix sample_expr) = Ok [Some (lit "1.html"); Some (lit "2.html")].
Proof. by_evaluation. Qed.

(** ** Queries written out and read back *)

Section WrittenQueries.
Context `{UnicodeData}.

(** A token as the tokenizer gives them: a parenthesis, or a run of
    word characters in its normal form (an operator in upper case, a
    term in lower case). *)
Definition clean_token (t : str) : Prop :=
  t = LPAREN \/ t = RPAREN
  \/ (t <> [] /\ forallb is_word t = true /\ normalize t = t).

Lemma findall_space (prev : option N) (s : str) :
  findall O prev (32%N :: s) = findall O None s.
Proof.
  rewrite findall_nonword by reflexivity. cbn [paren_token app].
  change (paren_token 32) with (@nil str). cbn [app].
  by apply findall_prev.
Qed.

Lemma findall_join (ts : list str) :
  Forall clean_token ts -> findall O None (join (lit " ") ts) = ts.
Proof.
  induction 1 as [|t ts Ht Hts IH]; [reflexivity|].
  destruct ts as [|t2 ts].
  - cbn [join]. destruct Ht as [->|[->|(Hne & Hw & _)]];
      [reflexivity | reflexivity | by apply findall_run].
  - rewrite join_cons, lit_space. cbn [app] in *.
    destruct Ht as [->|[->|(Hne & Hw & _)]].
    + change (LPAREN ++ 32%N :: ?x) with (40%N :: 32%N :: x).
      rewrite findall_nonword by reflexivity. rewrite findall_space.
      rewrite <- lit_space, IH. reflexivity.
    + change (RPAREN ++ 32%N :: ?x) with (41%N :: 32%N :: x).
      rewrite findall_nonword by reflexivity. rewrite findall_space.
      rewrite <- lit_space, IH. reflexivity.
    + pose proof (findall_around_run [] t (32%N :: join [32%N] (t2 :: ts))) as Hrun.
      cbn [app] in Hrun. rewrite Hrun by done.
      rewrite findall_space. rewrite <- lit_space, IH. reflexivity.
Qed.

Lemma normalize_clean (ts : list str) :
  Forall clean_token ts -> map normalize ts = ts.
Proof.
  induction 1 as [|t ts Ht Hts IH]; [reflexivity|]. cbn [map]. rewrite IH. f_equal.
  by destruct Ht as [->|[->|(_ & _ & ?)]].
Qed.

(** A term as the tokenizer gives them. *)
Definition clean_term (t : str) : Prop :=
  t <> [] /\ forallb is_word t = true /\ normalize t = t /\ literal t.

Lemma show_clean (e : expr) (level : Z) :
  Forall clean_term (terms e) -> Forall clean_token (show level e).
Proof.
  assert (Hop : forall op, op ∈ [AND; OR; NOT] -> clean_token op).
  { intros op Hin. right. right.
    repeat (apply elem_of_cons in Hin as [->|Hin]); [done.. |].
    by apply elem_of_nil in Hin. }
  assert (Hwrap : forall b ts, Forall clean_token ts -> Forall clean_token (wrap b ts)).
  { intros [] ts Hts; [|done]. cbn [wrap]. constructor; [by left|].
    apply Forall_app. split; [done|]. constructor; [right; by left | constructor]. }
  revert level. induction e as [t|a IHa|a IHa b IHb|a IHa b IHb]; intros level Hterms;
    cbn [show terms] in *.
  - apply Forall_inv in Hterms as (? & ? & ? & _). constructor; [|constructor].
    right. by right.
  - apply Hwrap. constructor; [apply Hop; set_solver | by apply IHa].
  - apply Forall_app in Hterms as [Ha Hb]. apply Hwrap, Forall_app. split; [by apply IHa|].
    constructor; [apply Hop; set_solver | by apply IHb].
  - apply Forall_app in Hterms as [Ha Hb]. apply Hwrap, Forall_app. split; [by apply IHa|].
    constructor; [apply Hop; set_solver | by apply IHb].
Qed.

End WrittenQueries.

(** X13. Tokenizing undoes writing: tokens in their normal form,
    written with one space between them, are the tokens
    [_tokenize_query] finds in that text. *)
Theorem tokenize_written_tokens `{UnicodeData} (tokens : list str) :
  Forall clean_token tokens ->
  _tokenize_query (join (lit " ") tokens) = tokens.
Proof.
  intros Hts. unfold _tokenize_query. rewrite findall_join by done.
  by apply normalize_clean.
Qed.

Lemma tokenize_written_tokens_witness :
  @_tokenize_query Cyrillic.table
     (join (lit " ") [Cyrillic.kot; AND; LPAREN; NOT; Cyrillic.pyos; RPAREN])
  = [Cyrillic.kot; AND; LPAREN; NOT; Cyrillic.pyos; RPAREN].
Proof.
  apply (@tokenize_written_tokens Cyrillic.table).
  repeat (apply List.Forall_cons); try apply List.Forall_nil;
    first [ by left | right; by left | right; right; by split_and! ].
Defined.

(** The query [NOT NOT t] is malformed for this engine. *)
Lemma bare_double_negation_raises `{UnicodeData} (self : SearchEngine) (t : str) :
  clean_term t ->
  process_query self (join (lit " ") [NOT; NOT; t])
  = Raise (ValueError NotNeedsOperand).
Proof.
  intros (Hne & Hw & Hn & Hlit).
  assert (Htokens : Forall clean_token [NOT; NOT; t]).
  { repeat (apply List.Forall_cons); try apply List.Forall_nil;
      right; right; by split_and!. }
  unfold process_query, _tokenize_query.
  rewrite findall_join, normalize_clean by done.
  by rewrite _to_postfix_bare_double_negation.
Qed.

(** X14. From the text of a query to its result, with a negation
    under a negation in parentheses.  For an expression over terms in
    their normal form that resolve, the query written as [show] does,
    with single spaces, evaluates to the set the expression stands for,
    and [process_query] returns the table entries of that set in
    ascending order of the ids.  Written without parentheses, the
    double negation [NOT NOT t] of a term is malformed:
    [process_query] raises the [ValueError] of line 104. *)
Theorem query_of_expression `{UnicodeData} (self : SearchEngine) (e : expr) :
  Forall clean_term (terms e) ->
  Forall (fun t => is_Some (_get_indexes_by_token self t ∅)) (terms e) ->
  query_set self (join (lit " ") (show 1 e)) = Ok (denote self e)
  /\ process_query self (join (lit " ") (show 1 e))
     = Ok (map (fun idx => htmls self !! idx) (sorted (denote self e)))
  /\ forall t, t ∈ terms e ->
       show 1 (Not (Not (Term t))) = [NOT; LPAREN; NOT; t; RPAREN]
       /\ process_query self (join (lit " ") [NOT; NOT; t])
          = Raise (ValueError NotNeedsOperand).
Proof.
  intros Hclean Hsome.
  assert (Hlit : Forall literal (terms e)).
  { eapply Forall_impl; [exact Hclean|]. by intros t (_ & _ & _ & ?). }
  assert (Hres : resolvable self e).
  { unfold resolvable. rewrite Forall_forall in *. intros t Ht. split; auto. }
  unfold query_set.
  pose proof (show_clean e 1 Hclean) as Htokens.
  assert (Hq : _to_postfix (_tokenize_query (join (lit " ") (show 1 e))) = postfix e).
  { unfold _tokenize_query. rewrite findall_join, normalize_clean by done.
    destruct (show_converts e Hlit 1 [] []) as (o & ops & Hf & Hp & _); [done|].
    unfold _to_postfix. rewrite Hf, app_nil_r. cbn [app fst snd]. by rewrite Hp. }
  assert (Hset : evaluate_set self (postfix e) = Ok (denote self e)).
  { unfold evaluate_set. by rewrite eval_loop_postfix. }
  split_and!.
  - by rewrite Hq.
  - unfold process_query. rewrite Hq. unfold evaluate. by rewrite Hset.
  - intros t Ht. split; [reflexivity|]. rewrite Forall_forall in Hclean.
    by apply bare_double_negation_raises, Hclean.
Qed.

Lemma sample_terms_clean : Forall (@clean_term Cyrillic.table) (terms sample_expr).
Proof.
  pose proof sample_terms_literal as Hlit. rewrite Forall_forall in Hlit |- *.
  intros t Ht. split_and!; [| | |by apply Hlit];
    cbn in Ht; repeat (apply elem_of_cons in Ht as [->|Ht]); try done;
    by apply elem_of_nil in Ht.
Qed.

Lemma sample_terms_resolve :
  Forall (fun t => is_Some (_get_indexes_by_token two_pages t ∅)) (terms sample_expr).
Proof.
  eapply Forall_impl; [exact sample_resolvable|]. by intros t [_ ?].
Qed.

Lemma query_of_expression_witness :
  @query_set Cyrillic.table two_pages (join (lit " ") (show 1 sample_expr))
  = Ok (denote two_pages sample_expr)
  /\ @process_query Cyrillic.table two_pages (join (lit " ") (show 1 sample_expr))
     = Ok (map (fun idx => htmls two_pages !! idx)
               (sorted (denote two_pages sample_expr)))
  /\ forall t, t ∈ terms sample_expr ->
       show 1 (Not (Not (Term t))) = [NOT; LPAREN; NOT; t; RPAREN]
       /\ @process_query Cyrillic.table two_pages (join (lit " ") [NOT; NOT; t])
          = Raise (ValueError NotNeedsOperand).
Proof.
  exact (@query_of_expression Cyrillic.table two_pages sample_expr
           sample_terms_clean sample_terms_resolve).
Defined.

(** The sample expression is written [кот OR пёс AND NOT ( кот OR x )]. *)
Example sample_expr_text :
  show 1 sample_expr
  = [Cyrillic.kot; OR; Cyrillic.pyos; AND; NOT; LPAREN; Cyrillic.kot; OR; lit "x"; RPAREN].
Proof. reflexivity. Qed.

(** ** Queries at the edges *)

Section EdgeQueries.
Context `{UnicodeData}.

(** A character that belongs to no token. *)
Definition separator (c : N) : Prop := is_word c = false /\ c <> 40%N /\ c <> 41%N.

Lemma findall_separators (prev : option N) (s : str) :
  Forall separator s -> findall O prev s = [].
Proof.
  intros Hall. revert prev. induction Hall as [|c s (Hw & Hl & Hr) Hall IH]; intros prev.
  - by destruct prev.
  - rewrite findall_nonword by done. rewrite IH. unfold paren_token.
    apply N.eqb_neq in Hl, Hr. by rewrite Hl, Hr.
Qed.

Lemma sorted_empty : sorted ∅ = [].
Proof. unfold sorted. by rewrite elements_empty. Qed.

Lemma unknown_token (self : SearchEngine) (t : str) (default_value : gset Z) :
  inverted_index self !! t = None ->
  Forall (fun entry => t ∉ entry.2) (lemmas self) ->
  _get_indexes_by_token self t default_value = Some default_value.
Proof.
  intros Hindex Hgroups. unfold _get_indexes_by_token. rewrite Hindex.
  destruct (List.find _ (lemmas self)) as [[lemma tokens]|] eqn:Hfind; [|done].
  apply find_some in Hfind as [Hin Hmem]. apply bool_decide_eq_true in Hmem.
  rewrite Forall_forall in Hgroups. apply list_elem_of_In in Hin.
  by destruct (Hgroups _ Hin).
Qed.

End EdgeQueries.

(** X15. A query without tokens is malformed: when no character of
    the query is a word character or a parenthesis (the empty query,
    blanks, punctuation), [process_query] raises the [ValueError] of
    line 124. *)
Theorem query_without_tokens_is_malformed `{UnicodeData} (self : SearchEngine)
    (query : str) :
  Forall separator query ->
  process_query self query = Raise (ValueError BadStructure).
Proof.
  intros Hall. unfold process_query, _tokenize_query.
  by rewrite findall_separators.
Qed.

Lemma query_without_tokens_is_malformed_witness :
  @process_query Cyrillic.table two_pages (lit " ,  !") = Raise (ValueError BadStructure).
Proof.
  apply (@query_without_tokens_is_malformed Cyrillic.table two_pages).
  repeat (apply List.Forall_cons); try apply List.Forall_nil; by split_and!.
Defined.

(** X16. A term nobody knows finds nothing, and is no error: for a
    term in its normal form that is neither a key of the inverted
    index nor a token of any lemma group, [process_query] returns the
    empty list. *)
Theorem unknown_term_finds_nothing `{UnicodeData} (self : SearchEngine) (t : str) :
  clean_term t ->
  inverted_index self !! t = None ->
  Forall (fun entry => t ∉ entry.2) (lemmas self) ->
  process_query self t = Ok [].
Proof.
  intros (Hne & Hw & Hn & Hlit) Hindex Hgroups.
  unfold process_query, _tokenize_query.
  pose proof (findall_run None t Hne Hw) as Hrun. rewrite Hrun. cbn [map]. rewrite Hn.
  unfold _to_postfix. cbn [fold_left]. rewrite postfix_step_literal by done.
  cbn [app fst snd]. unfold evaluate, evaluate_set. cbn [eval_loop].
  rewrite eval_step_literal by done. rewrite unknown_token by done.
  cbn. unfold paths. by rewrite sorted_empty.
Qed.

Lemma unknown_term_finds_nothing_witness :
  @process_query Cyrillic.table two_pages Cyrillic.slovo = Ok [].
Proof.
  apply (@unknown_term_finds_nothing Cyrillic.table two_pages Cyrillic.slovo).
  - split_and!; try done. unfold literal. rewrite !not_elem_of_cons.
    split_and!; try done. apply not_elem_of_nil.
  - by_evaluation.
  - apply List.Forall_nil.
Defined.

(** ** When the engine starts *)

Section StartFacts.
Context `{UnicodeData} `{Platform}.

Lemma split_from_nil (cur s : str) :
  split_from cur s = [] <-> cur = [] /\ forallb isspace s = true.
Proof.
  revert cur. induction s as [|c s IH]; intros cur; cbn [split_from forallb].
  - destruct cur; intuition congruence.
  - destruct (isspace c); cbn [andb].
    + destruct cur as [|x cur]; [apply IH|]. intuition congruence.
    + rewrite IH. split; [intros [Hc _]|intros [_ Hc]]; [|done].
      by destruct cur.
Qed.

Lemma str_split_nil (s : str) : str_split s = [] <-> forallb isspace s = true.
Proof. unfold str_split. rewrite split_from_nil. tauto. Qed.

(** A line of the index file that the loader accepts: a first word,
    then words that [int] accepts. *)
Definition index_line_ok (line : str) : Prop :=
  forallb isspace line = false
  /\ Forall (fun w => is_Some (int_of_str w)) (tail (str_split line)).

(** A file of the lemma directory that the loader accepts: it can be
    read and none of its lines is blank. *)
Definition lemma_file_ok (entry : str * option (list str)) : Prop :=
  exists lines, entry.2 = Some lines
                /\ Forall (fun line => forallb isspace line = false) lines.

Lemma ints_Ok (words : list str) :
  (exists ns, ints words = Ok ns) <-> Forall (fun w => is_Some (int_of_str w)) words.
Proof.
  induction words as [|w words IH]; cbn [ints].
  - split; [constructor | by exists []].
  - rewrite Forall_cons, <- IH. destruct (int_of_str w) as [n|].
    + destruct (ints words) as [ns|e]; cbn.
      * split; [intros _; split; by eexists | by eexists].
      * split; [by intros [? ?] | by intros [_ [? ?]]].
    + split; [by intros [? ?] | by intros [[? ?] _]].
Qed.

Lemma load_index_lines_Ok (lines : list str) (start : gmap str (gset Z)) :
  (exists index, load_index_lines lines start = Ok index) <-> Forall index_line_ok lines.
Proof.
  revert start. induction lines as [|line lines IH]; intros start; cbn [load_index_lines].
  - split; [constructor | by eexists].
  - rewrite Forall_cons. unfold index_line_ok at 1.
    pose proof (str_split_nil line) as Hnil.
    destruct (str_split line) as [|lemma words]; cbn [tail].
    + split; [by intros [? ?]|]. intros [[Hsp _] _].
      rewrite (proj1 Hnil eq_refl) in Hsp. done.
    + rewrite <- ints_Ok. destruct (ints words) as [ns|e]; cbn.
      * rewrite IH. split; [|tauto]. intros Hall. split_and!; [|by eexists|done].
        destruct (forallb isspace line); [|done]. discriminate (proj2 Hnil eq_refl).
      * split; [by intros [? ?] | by intros [(_ & ? & ?) _]].
Qed.

Lemma load_lemma_lines_Ok (lines : list str) (groups : list (str * gset str)) :
  (exists groups', load_lemma_lines lines groups = Ok groups')
  <-> Forall (fun line => forallb isspace line = false) lines.
Proof.
  revert groups. induction lines as [|line lines IH]; intros groups;
    cbn [load_lemma_lines].
  - split; [constructor | by eexists].
  - rewrite Forall_cons. pose proof (str_split_nil line) as Hnil.
    destruct (str_split line) as [|lemma words].
    + split; [by intros [? ?]|]. intros [Hsp _].
      rewrite (proj1 Hnil eq_refl) in Hsp. done.
    + rewrite IH. split; [|tauto]. intros Hall. split; [|done].
      destruct (forallb isspace line); [|done]. discriminate (proj2 Hnil eq_refl).
Qed.

Lemma _load_lemmas_Ok (dir : directory) (groups : list (str * gset str)) :
  (exists groups', _load_lemmas dir groups = Ok groups') <-> Forall lemma_file_ok dir.
Proof.
  revert groups. induction dir as [|[filename content] dir IH]; intros groups;
    cbn [_load_lemmas].
  - split; [constructor | by eexists].
  - rewrite Forall_cons. unfold lemma_file_ok at 1. cbn [snd].
    destruct content as [lines|].
    + pose proof (load_lemma_lines_Ok lines groups) as Hlines.
      destruct (load_lemma_lines lines groups) as [groups1|e]; cbn.
      * rewrite IH. split; [|tauto]. intros Hall. split; [|done].
        exists lines. split; [done|]. apply Hlines. by eexists.
      * split; [by intros [? ?]|]. intros [(lines' & [= <-] & Hall) _].
        apply Hlines in Hall as [? ?]. done.
    + split; [by intros [? ?]|]. by intros [(? & ? & _) _].
Qed.

Lemma read_lines_Ok (fs : files) (p : Path) (lines : list str) :
  read_lines fs p = Ok lines <->
  exists content text,
    stat fs p = Some (File content)
    /\ refuses (OpenRead p) = false
    /\ utf8_decode content = Some text
    /\ lines = readlines_text text.
Proof.
  unfold read_lines. split.
  - destruct (stat fs p) as [[|content]|]; [done| |done].
    destruct (refuses (OpenRead p)); [done|].
    destruct (utf8_decode content) as [text|] eqn:Hdec; [|done].
    intros [= <-]. exists content, text. by split_and!.
  - intros (content & text & -> & -> & -> & ->). done.
Qed.

End StartFacts.

(** X17. When the engine starts: [SearchEngine.__init__] returns an
    engine exactly when
    - the index path names a regular file that the system lets be
      opened and that is UTF-8, and each of its lines has a first word
      followed only by words that [int] accepts,
    - [os.listdir] of the lemma directory succeeds, and every file of
      the directory can be read and has no blank line, and
    - [os.listdir] of the document directory succeeds, and no name
      of the form [<digits>.html] in it has more digits than the
      limit on digits allows. *)
Theorem engine_starts_iff `{UnicodeData} `{Platform} (fs : files) (index_path : Path)
    (lemmas_dir : option directory) (htmls_listing : option (list str)) :
  (exists self, init fs index_path lemmas_dir htmls_listing = Ok self)
  <-> (exists content text,
         stat fs index_path = Some (File content)
         /\ refuses (OpenRead index_path) = false
         /\ utf8_decode content = Some text
         /\ Forall index_line_ok (readlines_text text))
      /\ (exists dir, lemmas_dir = Some dir /\ Forall lemma_file_ok dir)
      /\ (exists listing,
            htmls_listing = Some listing
            /\ Forall (fun filename => html_number_raises filename = false) listing).
Proof.
  unfold init, _load_inverted_index.
  pose proof (read_lines_Ok fs index_path) as Hread.
  destruct (read_lines fs index_path) as [lines|e]; cbn.
  2: { split; [by intros [? ?]|]. intros [(content & text & Hc) _].
       assert (Hok : exists lines, Raise e = Ok lines /\ Forall index_line_ok lines).
       { exists (readlines_text text). split; [|by destruct Hc as (_ & _ & _ & ?)].
         apply Hread. exists content, text. by destruct Hc as (? & ? & ? & _). }
       by destruct Hok as (? & ? & _). }
  destruct (proj1 (Hread lines) eq_refl) as (content & text & Hstat & Hopen & Hdec & ->).
  pose proof (load_index_lines_Ok (readlines_text text) ∅) as Hindex.
  assert (Hiff : (exists content' text',
                    stat fs index_path = Some (File content')
                    /\ refuses (OpenRead index_path) = false
                    /\ utf8_decode content' = Some text'
                    /\ Forall index_line_ok (readlines_text text'))
                 <-> Forall index_line_ok (readlines_text text)).
  { split; [|intros Hall; by exists content, text].
    intros (content' & text' & Hstat' & _ & Hdec' & Hall).
    assert (content' = content) as -> by congruence.
    by assert (text' = text) as -> by congruence. }
  rewrite Hiff, <- Hindex. clear Hiff Hindex Hread.
  destruct (load_index_lines (readlines_text text) ∅) as [index|e]; cbn.
  2: { split; [by intros [? ?] | by intros [[? ?] _]]. }
  destruct lemmas_dir as [dir|]; cbn;
    [|split; [by intros [? ?] | by intros (_ & (? & ? & _) & _)]].
  pose proof (_load_lemmas_Ok dir []) as Hgroups.
  destruct (_load_lemmas dir []) as [groups|e]; cbn.
  2: { split; [by intros [? ?]|]. intros (_ & (? & [= <-] & [? ?]%Hgroups) & _). done. }
  destruct htmls_listing as [listing|]; cbn;
    [|split; [by intros [? ?] | by intros (_ & _ & (? & ? & _))]].
  assert (Hlimit : existsb html_number_raises listing = false
                   <-> Forall (fun filename => html_number_raises filename = false) listing).
  { rewrite Forall_forall. split.
    - intros Hex f Hin. destruct (html_number_raises f) eqn:Hf; [|done].
      assert (existsb html_number_raises listing = true); [|congruence].
      apply existsb_exists. exists f. split; [by apply list_elem_of_In | done].
    - intros Hall. destruct (existsb html_number_raises listing) eqn:Hex; [|done].
      apply existsb_exists in Hex as (f & Hin & Hf).
      apply list_elem_of_In in Hin. rewrite (Hall _ Hin) in Hf. discriminate. }
  destruct (existsb html_number_raises listing); cbn.
  - split; [by intros [? ?]|]. intros (_ & _ & (listing' & [= <-] & Hall)).
    apply Hlimit in Hall. discriminate.
  - split; [intros _|by eexists].
    split_and!; [by eexists | exists dir; split; [done|]; apply Hgroups; by eexists |].
    exists listing. split; [done|]. by apply Hlimit.
Qed.

(** An engine that starts: the one of [two_docs]. *)
Example engine_of_two_docs :
  @init Cyrillic.table Posix.platform (built two_docs_text) index_txt
    (Some two_docs) (Some [lit "1.html"; lit "2.html"])
  = Ok {| inverted_index := {[ Cyrillic.kot := {[1]}; Cyrillic.pyos := {[2]} ]};
          lemmas := [(Cyrillic.kot, ∅); (Cyrillic.pyos, ∅)];
          htmls := {[ 1 := lit "1.html"; 2 := lit "2.html" ]} |}.
Proof. by_evaluation. Qed.

(** The limit on digits at its default: [int] reads a numeral of 4300
    digits and raises for one of 4301; and an engine does not start
    when the document directory cannot be listed. *)
Example engine_does_not_start :
  @int_of_str Cyrillic.table Posix.platform (repeat 49%N 4301) = None
  /\ match @int_of_str Cyrillic.table Posix.platform (repeat 49%N 4300) with
     | Some n => (0 <? n)
     | None => false
     end = true
  /\ @init Cyrillic.table Posix.platform (built two_docs_text) index_txt
       (Some two_docs) None
     = Raise CannotRead.
Proof. split_and!; by_evaluation. Qed.
